(** * Sophie Travel Designer: the page script [assets/js/script.js]

    A shallow embedding of the script that drives the site: the navigation
    bar, the mobile menu, smooth scrolling, the FAQ accordion, the contact
    form and the two card grids.  The script is an event-driven program over
    the browser's document, so it is embedded as functions in a state and
    exception monad over a model of the document, with the closures it
    registers (listeners, timers, continuations of awaited requests) kept as
    data and run by a step function. *)

From Stdlib Require Import ZArith Lia Ascii.
From stdpp Require Import base list strings gmap.

(* stdpp's solvers clear hypotheses that may be gone already. *)
#[global] Set Warnings "-clear-no-such-hyp".

(** ** JavaScript strings *)

Module JsString.

(** [s.includes(needle)] *)
Fixpoint includes (needle s : string) : bool :=
  String.prefix needle s ||
  match s with
  | EmptyString => false
  | String _ rest => includes needle rest
  end.

(** [s.startsWith(p)] *)
Definition startsWith (p s : string) : bool := String.prefix p s.

(** [s.substring(1)] *)
Definition substring1 (s : string) : string :=
  match s with
  | EmptyString => EmptyString
  | String _ rest => rest
  end.

(** [s.split(c)[0]]: the text before the first [c], all of [s] when there
    is none. *)
Fixpoint beforeFirst (c : ascii) (s : string) : string :=
  match s with
  | EmptyString => EmptyString
  | String a rest => if Ascii.eqb a c then EmptyString else String a (beforeFirst c rest)
  end.

(** The text after the first [c], when there is one. *)
Fixpoint afterFirst (c : ascii) (s : string) : option string :=
  match s with
  | EmptyString => None
  | String a rest => if Ascii.eqb a c then Some rest else afterFirst c rest
  end.

(** [parts.join('')] *)
Definition join (parts : list string) : string := String.concat "" parts.

Definition eqb (a b : string) : bool := bool_decide (a = b).

End JsString.

(** ** JavaScript values

    The values the script handles as data: a property of a parsed JSON
    record or of an element's [dataset] is a string, [null], or absent
    ([undefined]). *)

Inductive JsVal :=
| Undefined
| Null
| Str (s : string).

#[global] Instance JsVal_eq_dec : EqDecision JsVal.
Proof. solve_decision. Defined.

(** Truthiness: [undefined], [null] and the empty string are falsy. *)
Definition truthy (v : JsVal) : bool :=
  match v with
  | Str s => negb (JsString.eqb s "")
  | _ => false
  end.

(** [a || b] *)
Definition orElse (a b : JsVal) : JsVal := if truthy a then a else b.

(** String conversion, as a template literal applies it to [${v}]. *)
Definition toString (v : JsVal) : string :=
  match v with
  | Undefined => "undefined"
  | Null => "null"
  | Str s => s
  end.

(** [${v || ''}] *)
Definition hole (v : JsVal) : string := toString (orElse v (Str "")).

(** The double quote character, and a quoted attribute value. *)
Definition dq : string := String "034"%char EmptyString.
Definition q (s : string) : string := dq +:+ s +:+ dq.

(** ** Unsplash URL helper *)

Definition unsplashHost : string := "images.unsplash.com".

(** [function unsplashUrl(url, querystring)] *)
Definition unsplashUrl (url : JsVal) (querystring : string) : JsVal :=
  match url with
  | Str s =>
      if negb (truthy url) || negb (JsString.includes unsplashHost s) then url
      else Str (JsString.beforeFirst "?" s +:+ "?" +:+ querystring)
  | _ => url
  end.

(** The host a URL points at, as a reader of the specification understands
    "a URL pointing at the image-hosting domain": the authority that follows
    the scheme separator, up to the first slash, question mark or hash. *)
Module UrlSpec.

Fixpoint stripPrefix (p s : string) : option string :=
  match p, s with
  | EmptyString, _ => Some s
  | String a p', String b s' => if Ascii.eqb a b then stripPrefix p' s' else None
  | String _ _, EmptyString => None
  end.

Fixpoint afterSeparator (sep s : string) : option string :=
  match stripPrefix sep s with
  | Some rest => Some rest
  | None =>
      match s with
      | EmptyString => None
      | String _ rest => afterSeparator sep rest
      end
  end.

Fixpoint authority (s : string) : string :=
  match s with
  | EmptyString => EmptyString
  | String a rest =>
      if Ascii.eqb a "/" || Ascii.eqb a "?" || Ascii.eqb a "#" then EmptyString
      else String a (authority rest)
  end.

Definition host (url : string) : string :=
  authority (default url (afterSeparator "://" url)).

Definition pointsAt (h url : string) : Prop := host url = h.

End UrlSpec.

(** ** Card records and their templates *)

(** An item of [destinations.json] or [brochures.json]: an object read
    through its properties; a property that is not there reads as
    [undefined]. *)
Abbreviation JsObject := (gmap string JsVal).

Definition prop (o : JsObject) (k : string) : JsVal := default Undefined (o !! k).

(** The arrow function mapped over the destinations in [loadDestinations]. *)
Definition destinationCard (d : JsObject) : string :=
  let image := unsplashUrl (prop d "image") "auto=format&fit=crop&w=1200&q=80" in
  let thumb := unsplashUrl (prop d "image") "auto=format&fit=crop&w=600&q=70" in
  JsString.join
    [ "
                <div class="; 
      q "destination-card group relative aspect-[4/5] rounded-2xl overflow-hidden cursor-pointer fade-in-element visible"; "
                    data-image="; q (hole image); "
                    data-region="; q (hole (prop d "region")); "
                    data-name="; q (hole (prop d "name")); "
                    data-tagline="; q (hole (prop d "tagline")); "
                    data-description="; q (hole (prop d "description")); "
                    data-best-time="; q (hole (prop d "bestTime")); "
                    data-highlights="; q (hole (prop d "highlights")); "
                    data-experiences="; q (hole (prop d "experiences")); ">
                    <img src="; q (hole thumb); " alt="; q (hole (prop d "name")); " loading="; 
      q "lazy"; " decoding="; q "async"; "
                        class="; 
      q "w-full h-full object-cover group-hover:scale-110 transition-transform duration-700"; ">
                    <div class="; 
      q "absolute inset-0 bg-gradient-to-t from-dark/80 via-dark/20 to-transparent"; "></div>
                    <div class="; q "absolute bottom-0 left-0 right-0 p-6"; ">
                        <p class="; q "text-secondary text-sm font-medium mb-2"; ">"; 
      hole (prop d "region"); "</p>
                        <h3 class="; q "font-serif text-2xl text-white mb-2"; ">"; 
      hole (prop d "name"); "</h3>
                        <p class="; 
      q "text-white/70 text-sm opacity-0 group-hover:opacity-100 transition-opacity duration-300"; ">
                            "; hole (prop d "tagline"); "
                        </p>
                    </div>
                    <div class="; 
      q "absolute top-4 right-4 w-10 h-10 bg-white/20 backdrop-blur-sm rounded-full flex items-center justify-center opacity-0 group-hover:opacity-100 transition-all duration-300 group-hover:scale-110"; ">
                        <svg class="; q "w-5 h-5 text-white"; " fill="; q "none"; " stroke="; 
      q "currentColor"; " viewBox="; q "0 0 24 24"; ">
                            <path stroke-linecap="; q "round"; " stroke-linejoin="; q "round"; 
      " stroke-width="; q "2"; " d="; q "M15 12a3 3 0 11-6 0 3 3 0 016 0z"; "/>
                            <path stroke-linecap="; q "round"; " stroke-linejoin="; q "round"; 
      " stroke-width="; q "2"; " d="; 
      q "M2.458 12C3.732 7.943 7.523 5 12 5c4.478 0 8.268 2.943 9.542 7-1.274 4.057-5.064 7-9.542 7-4.477 0-8.268-2.943-9.542-7z"; "/>
                        </svg>
                    </div>
                </div>" ].

(** The arrow function mapped over the brochures in [loadBrochures]. *)
Definition brochureCard (b : JsObject) : string :=
  let image := unsplashUrl (prop b "image") "auto=format&fit=crop&w=800&q=70" in
  let pdf := if truthy (prop b "pdf") then "assets/brochures/" +:+ toString (prop b "pdf") else "#" in
  let dateLine :=
    if truthy (prop b "date")
    then "<p class=" +:+ q "text-secondary text-sm font-medium mb-1" +:+ ">" +:+ toString (prop b "date") +:+ "</p>"
    else "" in
  JsString.join
    [ "
                <a href="; q pdf; " target="; q "_blank"; " rel="; q "noopener"; "
                    class="; 
      q "brochure-card group relative bg-neutral rounded-2xl overflow-hidden shadow-lg hover:shadow-2xl transition-all duration-500 fade-in-element visible"; ">
                    <div class="; q "aspect-[4/3] overflow-hidden"; ">
                        <img src="; q (hole image); " alt="; q (hole (prop b "destination")); "
                            class="; 
      q "w-full h-full object-cover group-hover:scale-110 transition-transform duration-700"; "
                            loading="; q "lazy"; " decoding="; q "async"; ">
                        <div class="; 
      q "absolute inset-0 bg-gradient-to-t from-dark/90 via-dark/50 to-dark/20"; "></div>
                    </div>
                    <div class="; 
      q "absolute top-4 right-4 w-11 h-11 bg-white rounded-xl flex items-center justify-center shadow-lg group-hover:bg-primary transition-all duration-300"; ">
                        <svg class="; 
      q "w-5 h-5 text-primary group-hover:text-white transition-colors"; " fill="; q "none"; 
      " stroke="; q "currentColor"; " stroke-width="; q "1.5"; " viewBox="; q "0 0 24 24"; ">
                            <path stroke-linecap="; q "round"; " stroke-linejoin="; q "round"; 
      " d="; 
      q "M19.5 14.25v-2.625a3.375 3.375 0 00-3.375-3.375h-1.5A1.125 1.125 0 0113.5 7.125v-1.5a3.375 3.375 0 00-3.375-3.375H8.25m2.25 0H5.625c-.621 0-1.125.504-1.125 1.125v17.25c0 .621.504 1.125 1.125 1.125h12.75c.621 0 1.125-.504 1.125-1.125V11.25a9 9 0 00-9-9z"; "/>
                        </svg>
                    </div>
                    <div class="; q "absolute bottom-0 left-0 right-0 p-5"; ">
                        "; dateLine; "
                        <h3 class="; q "font-serif text-2xl text-white mb-2 drop-shadow-lg"; 
      ">"; hole (prop b "destination"); "</h3>
                        <p class="; q "text-white/90 text-sm leading-relaxed drop-shadow"; ">"; 
      hole (prop b "description"); "</p>
                    </div>
                </a>" ].

(** What a grid's data file parses to.  An array holds card records and,
    possibly, [null] items, on which reading a property throws; anything
    that is not an array has no [map] method. *)
Inductive Json :=
| JArray (items : list (option JsObject))
| JNotArray.

(** What the body of a response parses to, and how a request settles. *)
Inductive Body :=
| BadJson
| Parsed (j : Json).

Inductive FetchOutcome :=
| NetworkError
| Response (ok : bool) (body : Body).

(** ** The document

    Elements live in a store indexed by node identity; an element keeps the
    identity of its parent.  Node [0] is the document element, and the order
    of the store is document order for the elements of the page as served. *)

Abbreviation NodeId := nat.

Record Element := mkElement {
  tagName : string;
  attributes : gmap string string;
  classList : list string;
  parentNode : option NodeId;
  (** text held directly by the element *)
  textData : string;
  (** markup last assigned through [innerHTML] *)
  innerHTML : string;
  disabled : bool;
  (** [value] and [validity.valid] of a form field *)
  value : string;
  valid : bool;
  offsetTop : Z;
  offsetHeight : Z;
  scrollTop : Z;
  (** [style.transform], kept as the scroll offset [y] of
      [translateY(${y * 0.3}px) scale(1.1)] *)
  parallax : option Z;
}.

Abbreviation Document := (list Element).

Definition element (tag : string) (attrs : list (string * string)) (classes : list string)
    (parent : option NodeId) : Element :=
  mkElement tag (list_to_map attrs) classes parent "" "" false "" true 0 0 0 None.

Definition withClassList (f : list string -> list string) (e : Element) : Element :=
  mkElement (tagName e) (attributes e) (f (classList e)) (parentNode e) (textData e)
    (innerHTML e) (disabled e) (value e) (valid e) (offsetTop e) (offsetHeight e)
    (scrollTop e) (parallax e).

Definition withAttribute (k v : string) (e : Element) : Element :=
  mkElement (tagName e) (<[k := v]> (attributes e)) (classList e) (parentNode e) (textData e)
    (innerHTML e) (disabled e) (value e) (valid e) (offsetTop e) (offsetHeight e)
    (scrollTop e) (parallax e).

Definition withParent (p : option NodeId) (e : Element) : Element :=
  mkElement (tagName e) (attributes e) (classList e) p (textData e)
    (innerHTML e) (disabled e) (value e) (valid e) (offsetTop e) (offsetHeight e)
    (scrollTop e) (parallax e).

Definition withText (s : string) (e : Element) : Element :=
  mkElement (tagName e) (attributes e) (classList e) (parentNode e) s
    (innerHTML e) (disabled e) (value e) (valid e) (offsetTop e) (offsetHeight e)
    (scrollTop e) (parallax e).

Definition withInnerHTML (s : string) (e : Element) : Element :=
  mkElement (tagName e) (attributes e) (classList e) (parentNode e) ""
    s (disabled e) (value e) (valid e) (offsetTop e) (offsetHeight e)
    (scrollTop e) (parallax e).

Definition withDisabled (b : bool) (e : Element) : Element :=
  mkElement (tagName e) (attributes e) (classList e) (parentNode e) (textData e)
    (innerHTML e) b (value e) (valid e) (offsetTop e) (offsetHeight e)
    (scrollTop e) (parallax e).

Definition withField (v : string) (ok : bool) (e : Element) : Element :=
  mkElement (tagName e) (attributes e) (classList e) (parentNode e) (textData e)
    (innerHTML e) (disabled e) v ok (offsetTop e) (offsetHeight e)
    (scrollTop e) (parallax e).

Definition withScrollTop (z : Z) (e : Element) : Element :=
  mkElement (tagName e) (attributes e) (classList e) (parentNode e) (textData e)
    (innerHTML e) (disabled e) (value e) (valid e) (offsetTop e) (offsetHeight e)
    z (parallax e).

Definition withParallax (y : Z) (e : Element) : Element :=
  mkElement (tagName e) (attributes e) (classList e) (parentNode e) (textData e)
    (innerHTML e) (disabled e) (value e) (valid e) (offsetTop e) (offsetHeight e)
    (scrollTop e) (Some y).

(** [classList.add], [classList.remove], [classList.contains]: a token list
    without repetitions. *)
Definition tokenAdd (c : string) (l : list string) : list string :=
  if bool_decide (c ∈ l) then l else l ++ [c].
Definition tokenRemove (c : string) (l : list string) : list string :=
  filter (λ x, x ≠ c) l.
Definition tokenContains (c : string) (l : list string) : bool :=
  bool_decide (c ∈ l).

(** The document after [n.classList.add(c)], [n.classList.remove(c)],
    [n.setAttribute(k, v)] and [n.disabled = b]. *)
Definition addClass (n : NodeId) (c : string) (d : Document) : Document :=
  alter (withClassList (tokenAdd c)) n d.
Definition removeClass (n : NodeId) (c : string) (d : Document) : Document :=
  alter (withClassList (tokenRemove c)) n d.
Definition putAttribute (n : NodeId) (k v : string) (d : Document) : Document :=
  alter (withAttribute k v) n d.
Definition putDisabled (n : NodeId) (b : bool) (d : Document) : Document :=
  alter (withDisabled b) n d.

Definition hasClass (d : Document) (n : NodeId) (c : string) : bool :=
  match d !! n with
  | Some e => tokenContains c (classList e)
  | None => false
  end.

Definition attr (d : Document) (n : NodeId) (k : string) : option string :=
  e ← d !! n; attributes e !! k.

Definition isDisabled (d : Document) (n : NodeId) : bool :=
  match d !! n with
  | Some e => disabled e
  | None => false
  end.

(** *** The tree *)

(** The proper ancestors of a node, nearest first. *)
Fixpoint ancestors (d : Document) (fuel : nat) (n : NodeId) : list NodeId :=
  match fuel with
  | O => []
  | S fuel =>
      match d !! n ≫= parentNode with
      | Some p => p :: ancestors d fuel p
      | None => []
      end
  end.

Definition ancestorsOf (d : Document) (n : NodeId) : list NodeId :=
  ancestors d (length d) n.

(** [n] is a proper descendant of [root]. *)
Definition below (d : Document) (root n : NodeId) : bool :=
  bool_decide (n ≠ root) && bool_decide (root ∈ ancestorsOf d n).

(** [root.contains(n)] *)
Definition contains (d : Document) (root n : NodeId) : bool :=
  bool_decide (n = root) || bool_decide (root ∈ ancestorsOf d n).

Definition documentElement : NodeId := 0.

(** The node is in the document, not in a detached subtree. *)
Definition isConnected (d : Document) (n : NodeId) : bool :=
  bool_decide (n < length d) && contains d documentElement n.

(** *** Selectors *)

Inductive Simple :=
| STag (t : string)
| SClass (c : string)
| SId (i : string)
| SHasAttr (a : string)
| SAttrEq (a v : string)
| SAttrPrefix (a v : string).

(** A compound selector is a conjunction of simple ones; a complex selector
    is a compound, possibly under an ancestor compound; a selector is a comma
    list of those. *)
Definition Compound := list Simple.
Inductive Complex :=
| Sel (c : Compound)
| Desc (anc c : Compound).
Definition Selector := list Complex.

Definition matchesSimple (e : Element) (s : Simple) : bool :=
  match s with
  | STag t => bool_decide (tagName e = t)
  | SClass c => tokenContains c (classList e)
  | SId i => bool_decide (attributes e !! "id" = Some i)
  | SHasAttr a => bool_decide (is_Some (attributes e !! a))
  | SAttrEq a v => bool_decide (attributes e !! a = Some v)
  | SAttrPrefix a v =>
      match attributes e !! a with
      | Some x => JsString.startsWith v x
      | None => false
      end
  end.

Definition matchesCompound (d : Document) (n : NodeId) (c : Compound) : bool :=
  match d !! n with
  | Some e => forallb (matchesSimple e) c
  | None => false
  end.

Definition matchesComplex (d : Document) (n : NodeId) (s : Complex) : bool :=
  match s with
  | Sel c => matchesCompound d n c
  | Desc anc c =>
      matchesCompound d n c && existsb (λ a, matchesCompound d a anc) (ancestorsOf d n)
  end.

Definition matches (d : Document) (sel : Selector) (n : NodeId) : bool :=
  existsb (matchesComplex d n) sel.

(** [document.querySelectorAll(sel)] *)
Definition querySelectorAll (d : Document) (sel : Selector) : list NodeId :=
  filter (λ n, isConnected d n && matches d sel n) (seq 0 (length d)).

(** [root.querySelectorAll(sel)] *)
Definition querySelectorAllIn (d : Document) (root : NodeId) (sel : Selector) : list NodeId :=
  filter (λ n, below d root n && matches d sel n) (seq 0 (length d)).

(** [document.querySelector(sel)], [root.querySelector(sel)] *)
Definition querySelector (d : Document) (sel : Selector) : option NodeId :=
  head (querySelectorAll d sel).
Definition querySelectorIn (d : Document) (root : NodeId) (sel : Selector) : option NodeId :=
  head (querySelectorAllIn d root sel).

(** [document.getElementById(id)]; the empty string names no element. *)
Definition getElementById (d : Document) (id : string) : option NodeId :=
  if bool_decide (id = "") then None else querySelector d [Sel [SId id]].

(** [n.closest(sel)] *)
Definition closest (d : Document) (n : NodeId) (sel : Selector) : option NodeId :=
  head (filter (λ a, matches d sel a) (n :: ancestorsOf d n)).

(** [document.body] *)
Definition body (d : Document) : option NodeId := querySelector d [Sel [STag "body"]].

(** [n.textContent]: the text of the element and of its descendants. *)
Fixpoint textContentAux (d : Document) (fuel : nat) (n : NodeId) : string :=
  match fuel with
  | O => ""
  | S fuel =>
      match d !! n with
      | Some e =>
          textData e +:+
          JsString.join (textContentAux d fuel <$>
                           filter (λ c, bool_decide (d !! c ≫= parentNode = Some n))
                             (seq 0 (length d)))
      | None => ""
      end
  end.
Definition textContent (d : Document) (n : NodeId) : string :=
  textContentAux d (length d) n.

(** The children of a node leave the tree. *)
Definition detachChildren (n : NodeId) (d : Document) : Document :=
  (λ e, if bool_decide (parentNode e = Some n) then withParent None e else e) <$> d.

(** [n.textContent = s] *)
Definition writeTextContent (n : NodeId) (s : string) (d : Document) : Document :=
  alter (withText s) n (detachChildren n d).

(** [n.innerHTML = html]: the former children leave the tree and the
    elements [cards] that the markup describes become the children. *)
Definition writeInnerHTML (n : NodeId) (html : string) (cards : list Element) (d : Document) : Document :=
  alter (withInnerHTML html) n (detachChildren n d) ++ cards.

(** ** The page: window state, the script's variables and its closures *)

Inductive Error :=
| TypeError (what : string)
| ErrorObject (message : string)
| FetchFailed
| JsonSyntaxError.

Inductive ConsoleEntry :=
| ConsoleLog (message style : string)
| ConsoleError (message : string) (e : Error).

(** The event object handed to a listener. *)
Record Event := mkEvent {
  target : option NodeId;
  key : string;
  defaultPrevented : bool;
  propagationStopped : bool;
}.

(** The constants the script binds when it starts. *)
Record Globals := mkGlobals {
  navbar : option NodeId;
  menuToggle : option NodeId;
  mobileMenu : option NodeId;
  mobileMenuLinks : list NodeId;
  fadeElements : list NodeId;
}.

(** The constants [initDestinationModal] binds for [openModal] and
    [closeModal]. *)
Record ModalEnv := mkModalEnv {
  modal : NodeId;
  modalImage : option NodeId;
  modalRegion : option NodeId;
  modalName : option NodeId;
  modalTagline : option NodeId;
  modalDescription : option NodeId;
  modalBestTime : option NodeId;
  modalHighlights : option NodeId;
  modalExperiences : option NodeId;
  modalCtaName : option NodeId;
}.

(** The closures the script hands to the browser, each with the variables it
    captured.  A cell is a boolean variable shared by closures
    ([inThrottle], [ticking]). *)
Inductive Callback :=
| CbBootstrap
| CbThrottled (cell : nat) (limit : Z) (func : Callback)
| CbThrottleReset (cell : nat)
| CbScrollChrome
| CbToggleMobileMenu
| CbClickOutside
| CbSmoothScroll
| CbCloseMobileMenu
| CbResizeClose
| CbEscapeClose
| CbHideMenu
| CbValidationSubmit (form : NodeId)
| CbResetButton (submitButton : NodeId) (originalText : string)
| CbValidationBlur
| CbValidationInput
| CbParallaxScroll (heroImage : NodeId) (ticking : nat)
| CbUpdateParallax (heroImage : NodeId) (ticking : nat)
| CbContactSubmit (form submitBtn : NodeId) (btnText btnSpinner formSuccess : option NodeId)
| CbOpenModal (m : ModalEnv) (card : NodeId)
| CbCardKeydown (m : ModalEnv) (card : NodeId)
| CbCloseModal (m : ModalEnv)
| CbModalEscape (m : ModalEnv)
| CbHideModal (m : ModalEnv)
| CbStopPropagation.

(** What runs when an awaited request settles. *)
Inductive Continuation :=
| KDestinations (grid : NodeId)
| KBrochures (grid : NodeId)
| KContact (form submitBtn : NodeId) (btnText btnSpinner formSuccess : option NodeId).

Inductive EventTarget :=
| Window
| TheDocument
| Node (n : NodeId).

Record Listener := mkListener {
  onTarget : EventTarget;
  onType : string;
  handler : Callback;
}.

Record Timer := mkTimer {
  due : Z;
  action : Callback;
}.

Record Request := mkRequest {
  url : option string;
  method : string;
  continuation : Continuation;
}.

Record World := mkWorld {
  dom : Document;
  scrollY : Z;
  innerWidth : Z;
  intersectionObserver : bool;
  loading : bool;
  globals : Globals;
  toggleFaqDefined : bool;
  cells : list bool;
  event : Event;
  listeners : list Listener;
  timers : list Timer;
  now : Z;
  requests : list Request;
  frames : list Callback;
  observed : list NodeId;
  console : list ConsoleEntry;
  alerts : list string;
  scrolls : list Z;
  uncaught : list Error;
}.

Definition set_dom (x : Document) (w : World) : World :=
  mkWorld x (scrollY w) (innerWidth w) (intersectionObserver w) (loading w) (globals w) (toggleFaqDefined w) (cells w) (event w) (listeners w) (timers w) (now w) (requests w) (frames w) (observed w) (console w) (alerts w) (scrolls w) (uncaught w).
Definition set_scrollY (x : Z) (w : World) : World :=
  mkWorld (dom w) x (innerWidth w) (intersectionObserver w) (loading w) (globals w) (toggleFaqDefined w) (cells w) (event w) (listeners w) (timers w) (now w) (requests w) (frames w) (observed w) (console w) (alerts w) (scrolls w) (uncaught w).
Definition set_innerWidth (x : Z) (w : World) : World :=
  mkWorld (dom w) (scrollY w) x (intersectionObserver w) (loading w) (globals w) (toggleFaqDefined w) (cells w) (event w) (listeners w) (timers w) (now w) (requests w) (frames w) (observed w) (console w) (alerts w) (scrolls w) (uncaught w).
Definition set_intersectionObserver (x : bool) (w : World) : World :=
  mkWorld (dom w) (scrollY w) (innerWidth w) x (loading w) (globals w) (toggleFaqDefined w) (cells w) (event w) (listeners w) (timers w) (now w) (requests w) (frames w) (observed w) (console w) (alerts w) (scrolls w) (uncaught w).
Definition set_loading (x : bool) (w : World) : World :=
  mkWorld (dom w) (scrollY w) (innerWidth w) (intersectionObserver w) x (globals w) (toggleFaqDefined w) (cells w) (event w) (listeners w) (timers w) (now w) (requests w) (frames w) (observed w) (console w) (alerts w) (scrolls w) (uncaught w).
Definition set_globals (x : Globals) (w : World) : World :=
  mkWorld (dom w) (scrollY w) (innerWidth w) (intersectionObserver w) (loading w) x (toggleFaqDefined w) (cells w) (event w) (listeners w) (timers w) (now w) (requests w) (frames w) (observed w) (console w) (alerts w) (scrolls w) (uncaught w).
Definition set_toggleFaqDefined (x : bool) (w : World) : World :=
  mkWorld (dom w) (scrollY w) (innerWidth w) (intersectionObserver w) (loading w) (globals w) x (cells w) (event w) (listeners w) (timers w) (now w) (requests w) (frames w) (observed w) (console w) (alerts w) (scrolls w) (uncaught w).
Definition set_cells (x : list bool) (w : World) : World :=
  mkWorld (dom w) (scrollY w) (innerWidth w) (intersectionObserver w) (loading w) (globals w) (toggleFaqDefined w) x (event w) (listeners w) (timers w) (now w) (requests w) (frames w) (observed w) (console w) (alerts w) (scrolls w) (uncaught w).
Definition set_event (x : Event) (w : World) : World :=
  mkWorld (dom w) (scrollY w) (innerWidth w) (intersectionObserver w) (loading w) (globals w) (toggleFaqDefined w) (cells w) x (listeners w) (timers w) (now w) (requests w) (frames w) (observed w) (console w) (alerts w) (scrolls w) (uncaught w).
Definition set_listeners (x : list Listener) (w : World) : World :=
  mkWorld (dom w) (scrollY w) (innerWidth w) (intersectionObserver w) (loading w) (globals w) (toggleFaqDefined w) (cells w) (event w) x (timers w) (now w) (requests w) (frames w) (observed w) (console w) (alerts w) (scrolls w) (uncaught w).
Definition set_timers (x : list Timer) (w : World) : World :=
  mkWorld (dom w) (scrollY w) (innerWidth w) (intersectionObserver w) (loading w) (globals w) (toggleFaqDefined w) (cells w) (event w) (listeners w) x (now w) (requests w) (frames w) (observed w) (console w) (alerts w) (scrolls w) (uncaught w).
Definition set_now (x : Z) (w : World) : World :=
  mkWorld (dom w) (scrollY w) (innerWidth w) (intersectionObserver w) (loading w) (globals w) (toggleFaqDefined w) (cells w) (event w) (listeners w) (timers w) x (requests w) (frames w) (observed w) (console w) (alerts w) (scrolls w) (uncaught w).
Definition set_requests (x : list Request) (w : World) : World :=
  mkWorld (dom w) (scrollY w) (innerWidth w) (intersectionObserver w) (loading w) (globals w) (toggleFaqDefined w) (cells w) (event w) (listeners w) (timers w) (now w) x (frames w) (observed w) (console w) (alerts w) (scrolls w) (uncaught w).
Definition set_frames (x : list Callback) (w : World) : World :=
  mkWorld (dom w) (scrollY w) (innerWidth w) (intersectionObserver w) (loading w) (globals w) (toggleFaqDefined w) (cells w) (event w) (listeners w) (timers w) (now w) (requests w) x (observed w) (console w) (alerts w) (scrolls w) (uncaught w).
Definition set_observed (x : list NodeId) (w : World) : World :=
  mkWorld (dom w) (scrollY w) (innerWidth w) (intersectionObserver w) (loading w) (globals w) (toggleFaqDefined w) (cells w) (event w) (listeners w) (timers w) (now w) (requests w) (frames w) x (console w) (alerts w) (scrolls w) (uncaught w).
Definition set_console (x : list ConsoleEntry) (w : World) : World :=
  mkWorld (dom w) (scrollY w) (innerWidth w) (intersectionObserver w) (loading w) (globals w) (toggleFaqDefined w) (cells w) (event w) (listeners w) (timers w) (now w) (requests w) (frames w) (observed w) x (alerts w) (scrolls w) (uncaught w).
Definition set_alerts (x : list string) (w : World) : World :=
  mkWorld (dom w) (scrollY w) (innerWidth w) (intersectionObserver w) (loading w) (globals w) (toggleFaqDefined w) (cells w) (event w) (listeners w) (timers w) (now w) (requests w) (frames w) (observed w) (console w) x (scrolls w) (uncaught w).
Definition set_scrolls (x : list Z) (w : World) : World :=
  mkWorld (dom w) (scrollY w) (innerWidth w) (intersectionObserver w) (loading w) (globals w) (toggleFaqDefined w) (cells w) (event w) (listeners w) (timers w) (now w) (requests w) (frames w) (observed w) (console w) (alerts w) x (uncaught w).
Definition set_uncaught (x : list Error) (w : World) : World :=
  mkWorld (dom w) (scrollY w) (innerWidth w) (intersectionObserver w) (loading w) (globals w) (toggleFaqDefined w) (cells w) (event w) (listeners w) (timers w) (now w) (requests w) (frames w) (observed w) (console w) (alerts w) (scrolls w) x.

(** ** The monad of script code: state, and exceptions that keep the state *)

Definition M (A : Type) : Type := World -> (Error + A) * World.

#[global] Instance M_ret : MRet M := λ A a w, (inr a, w).
#[global] Instance M_bind : MBind M := λ A B f m w,
  match m w with
  | (inl e, w') => (inl e, w')
  | (inr a, w') => f a w'
  end.

Definition throw {A} (e : Error) : M A := λ w, (inl e, w).
Definition gets {A} (f : World -> A) : M A := λ w, (inr (f w), w).
Definition modify (f : World -> World) : M unit := λ w, (inr tt, f w).

(** [try { body } catch (error) { handle }] *)
Definition tryCatch {A} (body : M A) (handle : Error -> M A) : M A := λ w,
  match body w with
  | (inl e, w') => handle e w'
  | r => r
  end.

(** Reading a property of [null] throws. *)
Definition deref (o : option NodeId) (what : string) : M NodeId :=
  match o with
  | Some n => mret n
  | None => throw (TypeError what)
  end.

(** [list.forEach(f)] *)
Fixpoint forEach {A} (f : A -> M unit) (l : list A) : M unit :=
  match l with
  | [] => mret tt
  | x :: rest => f x;; forEach f rest
  end.

Definition when (b : bool) (m : M unit) : M unit := if b then m else mret tt.

(** *** Browser interfaces *)

Definition modifyDom (f : Document -> Document) : M unit :=
  modify (λ w, set_dom (f (dom w)) w).

Definition classListAdd (n : NodeId) (c : string) : M unit := modifyDom (addClass n c).
Definition classListRemove (n : NodeId) (c : string) : M unit := modifyDom (removeClass n c).
Definition classListContains (n : NodeId) (c : string) : M bool :=
  gets (λ w, hasClass (dom w) n c).

Definition setAttribute (n : NodeId) (k v : string) : M unit := modifyDom (putAttribute n k v).
Definition getAttribute (n : NodeId) (k : string) : M (option string) :=
  gets (λ w, attr (dom w) n k).

Definition setDisabled (n : NodeId) (b : bool) : M unit := modifyDom (putDisabled n b).
Definition setTextContent (n : NodeId) (s : string) : M unit :=
  modifyDom (writeTextContent n s).

Definition byId (id : string) : M (option NodeId) :=
  gets (λ w, getElementById (dom w) id).
Definition query (sel : Selector) : M (option NodeId) :=
  gets (λ w, querySelector (dom w) sel).
Definition queryAll (sel : Selector) : M (list NodeId) :=
  gets (λ w, querySelectorAll (dom w) sel).
Definition queryIn (root : NodeId) (sel : Selector) : M (option NodeId) :=
  gets (λ w, querySelectorIn (dom w) root sel).
Definition queryAllIn (root : NodeId) (sel : Selector) : M (list NodeId) :=
  gets (λ w, querySelectorAllIn (dom w) root sel).

Definition metric (f : Element -> Z) (n : NodeId) : M Z :=
  gets (λ w, match dom w !! n with Some e => f e | None => 0%Z end).

Definition addEventListener (t : EventTarget) (type : string) (cb : Callback) : M unit :=
  modify (λ w, set_listeners (listeners w ++ [mkListener t type cb]) w).

Definition setTimeout (cb : Callback) (delay : Z) : M unit :=
  modify (λ w, set_timers (timers w ++ [mkTimer (now w + delay) cb]) w).

Definition requestAnimationFrame (cb : Callback) : M unit :=
  modify (λ w, set_frames (frames w ++ [cb]) w).

(** [await fetch(url, ...)]: the request is issued and the rest of the
    function waits for it as a continuation. *)
Definition fetch (u : option string) (m : string) (k : Continuation) : M unit :=
  modify (λ w, set_requests (requests w ++ [mkRequest u m k]) w).

Definition consoleLog (msg style : string) : M unit :=
  modify (λ w, set_console (console w ++ [ConsoleLog msg style]) w).
Definition consoleError (msg : string) (e : Error) : M unit :=
  modify (λ w, set_console (console w ++ [ConsoleError msg e]) w).
Definition alert (msg : string) : M unit :=
  modify (λ w, set_alerts (alerts w ++ [msg]) w).
Definition scrollTo (top : Z) : M unit :=
  modify (λ w, set_scrolls (scrolls w ++ [top]) w).

Definition preventDefault : M unit :=
  modify (λ w, set_event (mkEvent (target (event w)) (key (event w)) true
                            (propagationStopped (event w))) w).
Definition stopPropagation : M unit :=
  modify (λ w, set_event (mkEvent (target (event w)) (key (event w))
                            (defaultPrevented (event w)) true) w).

(** A fresh closure variable, [false] (or [undefined], equally falsy) at
    first. *)
Definition newCell : M nat :=
  λ w, (inr (length (cells w)), set_cells (cells w ++ [false]) w).
Definition readCell (c : nat) : M bool :=
  gets (λ w, default false (cells w !! c)).
Definition writeCell (c : nat) (b : bool) : M unit :=
  modify (λ w, set_cells (<[c := b]> (cells w)) w).

Definition global (f : Globals -> option NodeId) (what : string) : M NodeId :=
  o ← gets (λ w, f (globals w)); deref o what.

(** ** The script *)

(** *** Navigation: scroll effect *)

(** [function handleNavbarScroll()] *)
Definition handleNavbarScroll : M unit :=
  let scrollThreshold := 100%Z in
  y ← gets scrollY;
  if bool_decide (scrollThreshold < y)%Z
  then n ← global navbar "navbar"; classListAdd n "scrolled"
  else n ← global navbar "navbar"; classListRemove n "scrolled".

(** *** Mobile menu *)

(** [function updateMenuIcon(isOpen)] *)
Definition updateMenuIcon (isOpen : bool) : M unit :=
  icon ← byId "menu-icon";
  menuIcon ← deref icon "menuIcon";
  if isOpen
  then setAttribute menuIcon "d" "M6 18L18 6M6 6l12 12"
  else setAttribute menuIcon "d" "M4 6h16M4 12h16M4 18h16".

(** [function openMobileMenu()] *)
Definition openMobileMenu : M unit :=
  mm ← global mobileMenu "mobileMenu";
  classListRemove mm "hidden";;
  classListAdd mm "open";;
  mt ← global menuToggle "menuToggle";
  classListAdd mt "active";;
  setAttribute mt "aria-expanded" "true";;
  updateMenuIcon true.

(** [function closeMobileMenu()]; the timer it sets runs [CbHideMenu]. *)
Definition closeMobileMenu : M unit :=
  mm ← global mobileMenu "mobileMenu";
  classListRemove mm "open";;
  mt ← global menuToggle "menuToggle";
  classListRemove mt "active";;
  setAttribute mt "aria-expanded" "false";;
  updateMenuIcon false;;
  setTimeout CbHideMenu 300.

(** The arrow function [closeMobileMenu] hands to [setTimeout]. *)
Definition hideMenuIfClosed : M unit :=
  mm ← global mobileMenu "mobileMenu";
  isOpen ← classListContains mm "open";
  when (negb isOpen) (classListAdd mm "hidden").

(** [function toggleMobileMenu()] *)
Definition toggleMobileMenu : M unit :=
  mm ← global mobileMenu "mobileMenu";
  isOpen ← classListContains mm "open";
  if (isOpen : bool) then closeMobileMenu else openMobileMenu.

(** *** Smooth scroll *)

(** [function handleSmoothScroll(e)], with the link as [this] *)
Definition handleSmoothScroll (this : option NodeId) : M unit :=
  link ← deref this "this";
  attribute ← getAttribute link "href";
  match (attribute : option string) with
  | None => throw (TypeError "href")
  | Some href =>
      when (JsString.startsWith "#" href)
        (preventDefault;;
         let targetId := JsString.substring1 href in
         targetElement ← byId targetId;
         match (targetElement : option NodeId) with
         | Some t =>
             nb ← global navbar "navbar";
             navbarHeight ← metric offsetHeight nb;
             top ← metric offsetTop t;
             let targetPosition := (top - navbarHeight)%Z in
             scrollTo targetPosition;;
             mm ← global mobileMenu "mobileMenu";
             isOpen ← classListContains mm "open";
             when isOpen closeMobileMenu
         | None => mret tt
         end)
  end.

(** *** Scroll animations *)

Definition observe (el : NodeId) : M unit :=
  modify (λ w, if bool_decide (el ∈ observed w) then w
               else set_observed (observed w ++ [el]) w).
Definition unobserve (el : NodeId) : M unit :=
  modify (λ w, set_observed (filter (λ x, x ≠ el) (observed w)) w).

(** [function initScrollAnimations()] *)
Definition initScrollAnimations : M unit :=
  supported ← gets intersectionObserver;
  fades ← gets (λ w, fadeElements (globals w));
  if negb supported
  then forEach (λ el, classListAdd el "visible") fades
  else forEach observe fades.

(** The observer's callback, run on the entries the browser reports: an
    observed element and whether it intersects. *)
Definition intersectionCallback (entries : list (NodeId * bool)) : M unit :=
  forEach (λ entry, when (entry.2) (classListAdd entry.1 "visible";; unobserve entry.1)) entries.

(** *** Active navigation link *)

(** The section loop of [updateActiveNavLink]: the last section whose span
    holds the position names the current section. *)
Definition currentSectionOf (d : Document) (scrollPosition : Z) (sections : list NodeId) : JsVal :=
  fold_left
    (λ current section,
       match d !! section with
       | Some e =>
           let sectionTop := offsetTop e in
           let sectionHeight := offsetHeight e in
           if bool_decide (sectionTop ≤ scrollPosition)%Z
              && bool_decide (scrollPosition < sectionTop + sectionHeight)%Z
           then match attributes e !! "id" with Some i => Str i | None => Null end
           else current
       | None => current
       end)
    sections (Str "").

(** [function updateActiveNavLink()] *)
Definition updateActiveNavLink : M unit :=
  sections ← queryAll [Sel [STag "section"; SHasAttr "id"]];
  navLinks ← queryAll [Desc [SId "navbar"] [STag "a"; SAttrPrefix "href" "#"]];
  y ← gets scrollY;
  nb ← global navbar "navbar";
  navbarHeight ← metric offsetHeight nb;
  let scrollPosition := (y + navbarHeight + 100)%Z in
  currentSection ← gets (λ w, currentSectionOf (dom w) scrollPosition sections);
  forEach
    (λ link,
       classListRemove link "text-secondary";;
       href ← getAttribute link "href";
       when (bool_decide (href = Some ("#" +:+ toString currentSection)))
         (classListAdd link "text-secondary"))
    navLinks.

(** *** Form validation enhancement *)

(** [function initFormValidation()] *)
Definition initFormValidation : M unit :=
  found ← query [Sel [STag "form"]];
  match (found : option NodeId) with
  | None => mret tt
  | Some form =>
      addEventListener (Node form) "submit" (CbValidationSubmit form);;
      inputs ← queryAllIn form [Sel [STag "input"]; Sel [STag "textarea"]];
      forEach
        (λ input,
           addEventListener (Node input) "blur" CbValidationBlur;;
           addEventListener (Node input) "input" CbValidationInput)
        inputs
  end.

(** The submit listener of [initFormValidation]. *)
Definition validationSubmit (form : NodeId) : M unit :=
  found ← queryIn form [Sel [STag "button"; SAttrEq "type" "submit"]];
  submitButton ← deref found "submitButton";
  originalText ← gets (λ w, textContent (dom w) submitButton);
  setTextContent submitButton "Invio in corso...";;
  setDisabled submitButton true;;
  setTimeout (CbResetButton submitButton originalText) 5000.

(** The arrow function [validationSubmit] hands to [setTimeout]. *)
Definition resetButton (submitButton : NodeId) (originalText : string) : M unit :=
  setTextContent submitButton originalText;;
  setDisabled submitButton false.

(** The blur and input listeners of a field, with the field as [this]. *)
Definition validationBlur (this : option NodeId) : M unit :=
  field ← deref this "this";
  ok ← gets (λ w, match dom w !! field with Some e => valid e | None => false end);
  v ← gets (λ w, match dom w !! field with Some e => value e | None => "" end);
  if (ok : bool)
  then classListRemove field "border-red-500";; classListAdd field "border-green-500/50"
  else when (negb (JsString.eqb v ""))
         (classListAdd field "border-red-500";; classListRemove field "border-green-500/50").

Definition validationInput (this : option NodeId) : M unit :=
  field ← deref this "this";
  ok ← gets (λ w, match dom w !! field with Some e => valid e | None => false end);
  when ok (classListRemove field "border-red-500").

(** *** Parallax *)

(** [function initParallax()] *)
Definition initParallax : M unit :=
  found ← query [Desc [SId "hero"] [STag "img"]];
  match (found : option NodeId) with
  | None => mret tt
  | Some heroImage =>
      width ← gets innerWidth;
      if bool_decide (width < 768)%Z then mret tt
      else
        ticking ← newCell;
        addEventListener Window "scroll" (CbParallaxScroll heroImage ticking)
  end.

(** [function updateParallax()] *)
Definition updateParallax (heroImage ticking : nat) : M unit :=
  scrolled ← gets scrollY;
  hero ← byId "hero";
  h ← deref hero "hero";
  heroHeight ← metric offsetHeight h;
  when (bool_decide (scrolled < heroHeight)%Z)
    (modifyDom (alter (withParallax scrolled) heroImage));;
  writeCell ticking false.

(** The scroll listener of [initParallax]. *)
Definition parallaxScroll (heroImage ticking : nat) : M unit :=
  busy ← readCell ticking;
  when (negb busy)
    (requestAnimationFrame (CbUpdateParallax heroImage ticking);;
     writeCell ticking true).

(** *** Throttle *)

(** [function throttle(func, limit)] *)
Definition throttle (func : Callback) (limit : Z) : M Callback :=
  inThrottle ← newCell;
  mret (CbThrottled inThrottle limit func).

(** *** Event listeners *)

(** The listeners [initEventListeners] declares in place. *)
Definition scrollChrome : M unit :=
  handleNavbarScroll;;
  updateActiveNavLink.

Definition clickOutside : M unit :=
  mm ← global mobileMenu "mobileMenu";
  isOpen ← classListContains mm "open";
  clicked ← gets (λ w, target (event w));
  inMenu ← gets (λ w, match clicked with Some t => contains (dom w) mm t | None => false end);
  if isOpen && negb inMenu
  then
    mt ← global menuToggle "menuToggle";
    inToggle ← gets (λ w, match clicked with Some t => contains (dom w) mt t | None => false end);
    when (negb inToggle) closeMobileMenu
  else mret tt.

Definition resizeClose : M unit :=
  width ← gets innerWidth;
  if bool_decide (768 ≤ width)%Z
  then
    mm ← global mobileMenu "mobileMenu";
    isOpen ← classListContains mm "open";
    when isOpen closeMobileMenu
  else mret tt.

Definition escapeClose : M unit :=
  pressed ← gets (λ w, key (event w));
  if JsString.eqb pressed "Escape"
  then
    mm ← global mobileMenu "mobileMenu";
    isOpen ← classListContains mm "open";
    when isOpen closeMobileMenu
  else mret tt.

(** [function initEventListeners()] *)
Definition initEventListeners : M unit :=
  throttledScrollHandler ← throttle CbScrollChrome 100;
  addEventListener Window "scroll" throttledScrollHandler;;
  mt ← global menuToggle "menuToggle";
  addEventListener (Node mt) "click" CbToggleMobileMenu;;
  addEventListener TheDocument "click" CbClickOutside;;
  anchors ← queryAll [Sel [STag "a"; SAttrPrefix "href" "#"]];
  forEach (λ link, addEventListener (Node link) "click" CbSmoothScroll) anchors;;
  links ← gets (λ w, mobileMenuLinks (globals w));
  forEach (λ link, addEventListener (Node link) "click" CbCloseMobileMenu) links;;
  throttledResize ← throttle CbResizeClose 200;
  addEventListener Window "resize" throttledResize;;
  addEventListener TheDocument "keydown" CbEscapeClose.

(** *** FAQ accordion *)

(** The arrow function [toggleFaq] runs on every open item. *)
Definition closeOther (faqItem item : NodeId) : M unit :=
  when (negb (bool_decide (item = faqItem)))
    (classListRemove item "open";;
     inner ← queryIn item [Sel [SClass "faq-content"]];
     c ← deref inner "item.querySelector('.faq-content')";
     classListAdd c "hidden").

(** [window.toggleFaq = function (button)] *)
Definition toggleFaq (button : NodeId) : M unit :=
  found ← gets (λ w, closest (dom w) button [Sel [SClass "faq-item"]]);
  faqItem ← deref found "faqItem";
  content ← queryIn faqItem [Sel [SClass "faq-content"]];
  isOpen ← classListContains faqItem "open";
  openItems ← queryAll [Sel [SClass "faq-item"; SClass "open"]];
  forEach (closeOther faqItem) openItems;;
  if (isOpen : bool)
  then
    classListRemove faqItem "open";;
    c ← deref content "content";
    classListAdd c "hidden"
  else
    classListAdd faqItem "open";;
    c ← deref content "content";
    classListRemove c "hidden".

(** *** Contact form *)

Definition fallbackAlert : string :=
  "Ops! Qualcosa è andato storto. Scrivimi a sophie.just4tour@gmail.com".

(** [function initContactForm()] *)
Definition initContactForm : M unit :=
  found ← byId "contact-form";
  match (found : option NodeId) with
  | None => mret tt
  | Some form =>
      button ← byId "submit-btn";
      submitBtn ← deref button "submitBtn";
      btnText ← queryIn submitBtn [Sel [SClass "btn-text"]];
      btnSpinner ← queryIn submitBtn [Sel [SClass "btn-spinner"]];
      formSuccess ← byId "form-success";
      addEventListener (Node form) "submit"
        (CbContactSubmit form submitBtn btnText btnSpinner formSuccess)
  end.

(** The submit listener of [initContactForm], up to its [await].  The
    code sends the request to [form.action], the address the browser
    resolves from the [action] attribute of the form, which is the address
    of the document itself when the attribute is absent.  The model does
    not resolve addresses: the request records the attribute as it is
    written, and [None] when it is absent. *)
Definition contactSubmit (form submitBtn : NodeId) (btnText btnSpinner formSuccess : option NodeId)
    : M unit :=
  preventDefault;;
  setDisabled submitBtn true;;
  t ← deref btnText "btnText";
  classListAdd t "hidden";;
  s ← deref btnSpinner "btnSpinner";
  classListRemove s "hidden";;
  action ← getAttribute form "action";
  fetch action "POST" (KContact form submitBtn btnText btnSpinner formSuccess).

(** The same listener from the point where the request has settled. *)
Definition contactSettled (form submitBtn : NodeId) (btnText btnSpinner formSuccess : option NodeId)
    (outcome : FetchOutcome) : M unit :=
  tryCatch
    (match outcome with
     | NetworkError => throw FetchFailed
     | Response ok _ =>
         if ok
         then
           classListAdd submitBtn "hidden";;
           fs ← deref formSuccess "formSuccess";
           classListRemove fs "hidden";;
           inputs ← queryAllIn form [Sel [STag "input"]; Sel [STag "textarea"]];
           forEach
             (λ input,
                setDisabled input true;;
                classListAdd input "opacity-60";;
                classListAdd input "cursor-not-allowed")
             inputs
         else throw (ErrorObject "Errore di invio")
     end)
    (λ error,
       s ← deref btnSpinner "btnSpinner";
       classListAdd s "hidden";;
       t ← deref btnText "btnText";
       classListRemove t "hidden";;
       setDisabled submitBtn false;;
       alert fallbackAlert).

(** *** Card grids *)

(** The element the browser builds for a rendered card: the root of the
    card with the classes and attributes the template gives it.  The
    decorative markup inside a card is not part of the model.

    The templates interpolate the text of a field without escaping it, and
    the model does not parse markup: it takes the text of a field as the
    value of its attribute and adds one element per record.  That is the
    element the browser builds when the text holds no double quote, no [<]
    and no [&]; for other text the browser may build something else, and
    what is stated of these elements is stated for such text only.  The
    markup itself, [destinationCard] and [brochureCard], is exact for every
    text. *)
Definition destinationCardElement (grid : NodeId) (d : JsObject) : Element :=
  let image := unsplashUrl (prop d "image") "auto=format&fit=crop&w=1200&q=80" in
  element "div"
    [("data-image", hole image); ("data-region", hole (prop d "region"));
     ("data-name", hole (prop d "name")); ("data-tagline", hole (prop d "tagline"));
     ("data-description", hole (prop d "description"));
     ("data-best-time", hole (prop d "bestTime"));
     ("data-highlights", hole (prop d "highlights"));
     ("data-experiences", hole (prop d "experiences"))]
    ["destination-card"; "group"; "relative"; "aspect-[4/5]"; "rounded-2xl"; "overflow-hidden";
     "cursor-pointer"; "fade-in-element"; "visible"]
    (Some grid).

Definition brochureCardElement (grid : NodeId) (b : JsObject) : Element :=
  let pdf := if truthy (prop b "pdf") then "assets/brochures/" +:+ toString (prop b "pdf") else "#" in
  element "a"
    [("href", pdf); ("target", "_blank"); ("rel", "noopener")]
    ["brochure-card"; "group"; "relative"; "bg-neutral"; "rounded-2xl"; "overflow-hidden";
     "shadow-lg"; "hover:shadow-2xl"; "transition-all"; "duration-500"; "fade-in-element";
     "visible"]
    (Some grid).

(** The body of the [try] of a loader once its request has settled:
    [response.json()], then [grid.innerHTML = items.map(card).join('')]. *)
Definition renderGrid (grid : NodeId) (card : JsObject -> string)
    (cardElement : NodeId -> JsObject -> Element) (outcome : FetchOutcome) : M unit :=
  match outcome with
  | NetworkError => throw FetchFailed
  | Response _ BadJson => throw JsonSyntaxError
  | Response _ (Parsed JNotArray) => throw (TypeError "map")
  | Response _ (Parsed (JArray items)) =>
      match mapM id items with
      | None => throw (TypeError "image")
      | Some records =>
          modifyDom (writeInnerHTML grid (JsString.join (card <$> records))
                       (cardElement grid <$> records))
      end
  end.

(** [async function loadDestinations()], from the point where the request
    has settled. *)
Definition destinationsSettled (grid : NodeId) (outcome : FetchOutcome) : M unit :=
  tryCatch (renderGrid grid destinationCard destinationCardElement outcome)
    (λ error, consoleError "Error loading destinations:" error).

(** [async function loadBrochures()], likewise. *)
Definition brochuresSettled (grid : NodeId) (outcome : FetchOutcome) : M unit :=
  tryCatch (renderGrid grid brochureCard brochureCardElement outcome)
    (λ error, consoleError "Error loading brochures:" error).

(** [async function loadBrochures()], up to its [await]. *)
Definition loadBrochures : M unit :=
  found ← byId "brochures-grid";
  match (found : option NodeId) with
  | None => mret tt
  | Some grid => fetch (Some "assets/data/brochures.json") "GET" (KBrochures grid)
  end.

(** *** Destination modal *)

Definition dataset (card : NodeId) (name : string) : M JsVal :=
  found ← getAttribute card name;
  mret (match (found : option string) with Some s => Str s | None => Undefined end).

(** Assigning a value to [textContent]: [null] and [undefined] clear it. *)
Definition assignText (o : option NodeId) (what : string) (v : JsVal) : M unit :=
  n ← deref o what;
  setTextContent n (match v with Str s => s | _ => "" end).

(** [function openModal(card)] *)
Definition openModal (m : ModalEnv) (card : NodeId) : M unit :=
  image ← dataset card "data-image";
  region ← dataset card "data-region";
  name ← dataset card "data-name";
  tagline ← dataset card "data-tagline";
  description ← dataset card "data-description";
  bestTime ← dataset card "data-best-time";
  highlights ← dataset card "data-highlights";
  experiences ← dataset card "data-experiences";
  img ← deref (modalImage m) "modalImage";
  setAttribute img "src" (toString image);;
  setAttribute img "alt" (toString name);;
  assignText (modalRegion m) "modalRegion" region;;
  assignText (modalName m) "modalName" name;;
  assignText (modalTagline m) "modalTagline" tagline;;
  assignText (modalDescription m) "modalDescription" description;;
  assignText (modalBestTime m) "modalBestTime" bestTime;;
  assignText (modalHighlights m) "modalHighlights" highlights;;
  assignText (modalExperiences m) "modalExperiences" experiences;;
  assignText (modalCtaName m) "modalCtaName" name;;
  classListRemove (modal m) "hidden";;
  classListAdd (modal m) "open";;
  found ← gets (λ w, body (dom w));
  b ← deref found "document.body";
  classListAdd b "modal-open";;
  modalScroll ← queryIn (modal m) [Sel [SClass "modal-scroll"]];
  match (modalScroll : option NodeId) with
  | Some s => modifyDom (alter (withScrollTop 0) s)
  | None => mret tt
  end.

(** [function closeModal()]; the timer it sets runs [CbHideModal]. *)
Definition closeModal (m : ModalEnv) : M unit :=
  classListRemove (modal m) "open";;
  found ← gets (λ w, body (dom w));
  b ← deref found "document.body";
  classListRemove b "modal-open";;
  setTimeout (CbHideModal m) 400.

Definition hideModalIfClosed (m : ModalEnv) : M unit :=
  isOpen ← classListContains (modal m) "open";
  when (negb isOpen) (classListAdd (modal m) "hidden").

Definition cardKeydown (m : ModalEnv) (card : NodeId) : M unit :=
  pressed ← gets (λ w, key (event w));
  when (JsString.eqb pressed "Enter" || JsString.eqb pressed " ")
    (preventDefault;; openModal m card).

Definition modalEscape (m : ModalEnv) : M unit :=
  pressed ← gets (λ w, key (event w));
  if JsString.eqb pressed "Escape"
  then isOpen ← classListContains (modal m) "open"; when isOpen (closeModal m)
  else mret tt.

(** [function initDestinationModal()] *)
Definition initDestinationModal : M unit :=
  found ← byId "destination-modal";
  modalClose ← byId "modal-close";
  modalBackdrop ← match (found : option NodeId) with
                  | Some m => queryIn m [Sel [SClass "modal-backdrop"]]
                  | None => mret None
                  end;
  destinationCards ← queryAll [Sel [SClass "destination-card"]];
  modalCtaBtn ← byId "modal-cta-btn";
  match found with
  | None => mret tt
  | Some overlay =>
      if bool_decide (length destinationCards = 0) then mret tt
      else
        image ← byId "modal-image";
        region ← byId "modal-region";
        name ← byId "modal-name";
        tagline ← byId "modal-tagline";
        description ← byId "modal-description";
        bestTime ← byId "modal-best-time";
        highlights ← byId "modal-highlights";
        experiences ← byId "modal-experiences";
        ctaName ← byId "modal-cta-name";
        let m := mkModalEnv overlay image region name tagline description bestTime
                   highlights experiences ctaName in
        forEach
          (λ card,
             addEventListener (Node card) "click" (CbOpenModal m card);;
             setAttribute card "tabindex" "0";;
             setAttribute card "role" "button";;
             addEventListener (Node card) "keydown" (CbCardKeydown m card))
          destinationCards;;
        close ← deref modalClose "modalClose";
        addEventListener (Node close) "click" (CbCloseModal m);;
        backdrop ← deref modalBackdrop "modalBackdrop";
        addEventListener (Node backdrop) "click" (CbCloseModal m);;
        addEventListener TheDocument "keydown" (CbModalEscape m);;
        cta ← deref modalCtaBtn "modalCtaBtn";
        addEventListener (Node cta) "click" (CbCloseModal m);;
        content ← queryIn overlay [Sel [SClass "modal-content"]];
        c ← deref content "modal.querySelector('.modal-content')";
        addEventListener (Node c) "click" CbStopPropagation
  end.

(** *** Initialisation *)

(** [function init()] *)
Definition init : M unit :=
  handleNavbarScroll;;
  initScrollAnimations;;
  initEventListeners;;
  initFormValidation;;
  initContactForm;;
  initParallax;;
  consoleLog "%c✈️ Sophie Travel Designer" "font-size: 24px; color: #b26cba; font-weight: bold;";;
  consoleLog "%cViaggi su misura, pensati per te" "font-size: 14px; color: #cb8dd6;".

(** What [bootstrap] does once [loadDestinations] has returned. *)
Definition afterDestinations : M unit :=
  initDestinationModal;;
  loadBrochures.

(** [async function loadDestinations()], up to its [await]; [andThen] is
    what the caller that awaits it does next.  Without a grid the function
    returns at once and the caller goes on; with one, the caller goes on when
    the request has settled (see [settled]). *)
Definition loadDestinations (andThen : M unit) : M unit :=
  found ← byId "destinations-grid";
  match (found : option NodeId) with
  | None => andThen
  | Some grid => fetch (Some "assets/data/destinations.json") "GET" (KDestinations grid)
  end.

(** [async function bootstrap()] *)
Definition bootstrap : M unit :=
  init;;
  loadDestinations afterDestinations.

(** An exception that leaves an [async] function rejects its promise; with
    nobody awaiting it the rejection is reported and the caller goes on. *)
Definition async (m : M unit) : M unit := λ w,
  match m w with
  | (inl e, w') => (inr tt, set_uncaught (uncaught w' ++ [e]) w')
  | r => r
  end.

(** The body of the script: its constants, [window.toggleFaq], and the call
    of [bootstrap], now or when the document is ready. *)
Definition script : M unit :=
  nb ← byId "navbar";
  modify (λ w, set_globals (mkGlobals nb None None [] []) w);;
  mt ← byId "menu-toggle";
  modify (λ w, set_globals (mkGlobals nb mt None [] []) w);;
  mm ← byId "mobile-menu";
  modify (λ w, set_globals (mkGlobals nb mt mm [] []) w);;
  menu ← deref mm "mobileMenu";
  links ← queryAllIn menu [Sel [STag "a"]];
  modify (λ w, set_globals (mkGlobals nb mt mm links []) w);;
  fades ← queryAll [Sel [SClass "fade-in-element"]];
  modify (λ w, set_globals (mkGlobals nb mt mm links fades) w);;
  modify (set_toggleFaqDefined true);;
  stillLoading ← gets loading;
  if (stillLoading : bool)
  then addEventListener TheDocument "DOMContentLoaded" CbBootstrap
  else async bootstrap.

(** ** Running closures *)

Fixpoint runCallback (cb : Callback) (this : option NodeId) : M unit :=
  match cb with
  | CbBootstrap => async bootstrap
  | CbThrottled inThrottle limit func =>
      busy ← readCell inThrottle;
      when (negb busy)
        (runCallback func this;;
         writeCell inThrottle true;;
         setTimeout (CbThrottleReset inThrottle) limit)
  | CbThrottleReset inThrottle => writeCell inThrottle false
  | CbScrollChrome => scrollChrome
  | CbToggleMobileMenu => toggleMobileMenu
  | CbClickOutside => clickOutside
  | CbSmoothScroll => handleSmoothScroll this
  | CbCloseMobileMenu => closeMobileMenu
  | CbResizeClose => resizeClose
  | CbEscapeClose => escapeClose
  | CbHideMenu => hideMenuIfClosed
  | CbValidationSubmit form => validationSubmit form
  | CbResetButton submitButton originalText => resetButton submitButton originalText
  | CbValidationBlur => validationBlur this
  | CbValidationInput => validationInput this
  | CbParallaxScroll heroImage ticking => parallaxScroll heroImage ticking
  | CbUpdateParallax heroImage ticking => updateParallax heroImage ticking
  | CbContactSubmit form submitBtn btnText btnSpinner formSuccess =>
      async (contactSubmit form submitBtn btnText btnSpinner formSuccess)
  | CbOpenModal m card => openModal m card
  | CbCardKeydown m card => cardKeydown m card
  | CbCloseModal m => closeModal m
  | CbModalEscape m => modalEscape m
  | CbHideModal m => hideModalIfClosed m
  | CbStopPropagation => stopPropagation
  end.

(** The rest of an [async] function, run when its request settles. *)
Definition settled (k : Continuation) (outcome : FetchOutcome) : M unit :=
  match k with
  | KDestinations grid => async (destinationsSettled grid outcome;; afterDestinations)
  | KBrochures grid => async (brochuresSettled grid outcome)
  | KContact form submitBtn btnText btnSpinner formSuccess =>
      async (contactSettled form submitBtn btnText btnSpinner formSuccess outcome)
  end.

(** ** The page session

    The browser runs the script once and then, one at a time, the closures
    the script has registered: a listener when an event is delivered to it, a
    timer when it is due, a continuation when its request settles.  An
    exception that escapes a closure is reported and the session goes on. *)

Definition perform (m : M unit) (w : World) : World :=
  match m w with
  | (inl e, w') => set_uncaught (uncaught w' ++ [e]) w'
  | (inr _, w') => w'
  end.

Inductive Step :=
| DomReady
| Deliver (i : nat) (e : Event)
| Advance (dt : Z)
| Fire (i : nat)
| Settle (i : nat) (outcome : FetchOutcome)
| Frame (i : nat)
| Intersect (entries : list (NodeId * bool))
| CallToggleFaq (button : NodeId)
| Scroll (y : Z)
| Resize (width : Z)
| Edit (field : NodeId) (v : string) (ok : bool).

Definition thisOf (l : Listener) : option NodeId :=
  match onTarget l with
  | Node n => Some n
  | _ => None
  end.

Definition deliver (l : Listener) (e : Event) (w : World) : World :=
  perform (runCallback (handler l) (thisOf l))
    (set_event (mkEvent (target e) (key e) false false) w).

Definition exec (s : Step) (w : World) : World :=
  match s with
  | DomReady =>
      if loading w
      then
        fold_left (λ w l, deliver l (mkEvent None "" false false) w)
          (filter (λ l, onType l = "DOMContentLoaded") (listeners w))
          (set_loading false w)
      else w
  | Deliver i e =>
      match listeners w !! i with
      | Some l => if bool_decide (onType l = "DOMContentLoaded") then w else deliver l e w
      | None => w
      end
  | Advance dt => if bool_decide (0 ≤ dt)%Z then set_now (now w + dt)%Z w else w
  | Fire i =>
      match timers w !! i with
      | Some t =>
          if bool_decide (due t ≤ now w)%Z
          then perform (runCallback (action t) None) (set_timers (delete i (timers w)) w)
          else w
      | None => w
      end
  | Settle i outcome =>
      match requests w !! i with
      | Some r => perform (settled (continuation r) outcome) (set_requests (delete i (requests w)) w)
      | None => w
      end
  | Frame i =>
      match frames w !! i with
      | Some cb => perform (runCallback cb None) (set_frames (delete i (frames w)) w)
      | None => w
      end
  | Intersect entries =>
      perform (intersectionCallback (filter (λ entry, entry.1 ∈ observed w) entries)) w
  | CallToggleFaq button =>
      if toggleFaqDefined w then perform (toggleFaq button) w
      else set_uncaught (uncaught w ++ [TypeError "toggleFaq"]) w
  | Scroll y => set_scrollY y w
  | Resize width => set_innerWidth width w
  | Edit field v ok =>
      if isDisabled (dom w) field then w
      else set_dom (alter (withField v ok) field (dom w)) w
  end.

Definition run (steps : list Step) (w : World) : World :=
  fold_left (λ w s, exec s w) steps w.

(** The page as the browser has it when the script starts: a document, a
    viewport, and nothing registered yet. *)
Definition served (d : Document) (stillLoading observer : bool) (width y : Z) : World :=
  mkWorld d y width observer stillLoading (mkGlobals None None None [] []) false []
    (mkEvent None "" false false) [] [] 0 [] [] [] [] [] [] [].

Definition start (page : World) : World := perform script page.

(** ** A page to run the script on *)

Module Sample.

Definition sized (top height : Z) (e : Element) : Element :=
  mkElement (tagName e) (attributes e) (classList e) (parentNode e) (textData e)
    (innerHTML e) (disabled e) (value e) (valid e) top height (scrollTop e) (parallax e).

Definition labelled (s : string) (e : Element) : Element := withText s e.

(** A page with the navigation bar, the mobile menu, two sections, the
    contact form, two FAQ items and the two grids. *)
Definition page : Document :=
  [ (* 0 *) element "html" [] [] None;
    (* 1 *) element "body" [] [] (Some 0);
    (* 2 *) sized 0 80 (element "nav" [("id", "navbar")] [] (Some 1));
    (* 3 *) element "a" [("href", "#home")] [] (Some 2);
    (* 4 *) element "a" [("href", "#about")] [] (Some 2);
    (* 5 *) element "button" [("id", "menu-toggle"); ("aria-expanded", "false")] [] (Some 2);
    (* 6 *) element "path" [("id", "menu-icon"); ("d", "M4 6h16M4 12h16M4 18h16")] [] (Some 5);
    (* 7 *) element "div" [("id", "mobile-menu")] ["hidden"] (Some 1);
    (* 8 *) element "a" [("href", "#about")] [] (Some 7);
    (* 9 *) sized 0 600 (element "section" [("id", "home")] [] (Some 1));
    (* 10 *) sized 600 900 (element "section" [("id", "about")] [] (Some 1));
    (* 11 *) element "form" [("id", "contact-form"); ("action", "https://formspree.io/f/x")] []
               (Some 10);
    (* 12 *) element "input" [("name", "email")] [] (Some 11);
    (* 13 *) element "textarea" [("name", "message")] [] (Some 11);
    (* 14 *) element "button" [("id", "submit-btn"); ("type", "submit")] [] (Some 11);
    (* 15 *) labelled "Invia richiesta" (element "span" [] ["btn-text"] (Some 14));
    (* 16 *) element "span" [] ["btn-spinner"; "hidden"] (Some 14);
    (* 17 *) element "div" [("id", "form-success")] ["hidden"] (Some 11);
    (* 18 *) element "div" [] ["faq-item"; "open"] (Some 10);
    (* 19 *) element "button" [] [] (Some 18);
    (* 20 *) element "div" [] ["faq-content"] (Some 18);
    (* 21 *) element "div" [] ["faq-item"] (Some 10);
    (* 22 *) element "button" [] [] (Some 21);
    (* 23 *) element "div" [] ["faq-content"; "hidden"] (Some 21);
    (* 24 *) element "div" [("id", "destinations-grid")] [] (Some 9);
    (* 25 *) element "div" [("id", "brochures-grid")] [] (Some 9);
    (* 26 *) element "a" [("href", "#missing")] [] (Some 9) ].

(** The same page without the mobile menu panel and its link. *)
Definition withoutMenu : Document :=
  map (λ e, if bool_decide (attributes e !! "id" = Some "mobile-menu")
            then element "div" [] [] (Some 1) else e) page.

End Sample.

(** * The vocabulary of the statements

    Predicates on documents and sessions, and the sample sessions the
    statements are evaluated on. *)


Definition foreignUrl : string := "https://cdn.example.com/images.unsplash.com/x.jpg?foo=1".

(** A request that fails to fetch or to parse, with the error the loader
    catches. *)
Definition loadFailure (outcome : FetchOutcome) : option Error :=
  match outcome with
  | NetworkError => Some FetchFailed
  | Response _ BadJson => Some JsonSyntaxError
  | Response _ (Parsed _) => None
  end.



(** [d'] has the elements of [d], with the same tags, parents and state,
    except for the classes of [X] and the attributes of [K]. *)
Definition sameBut (X K : list string) (d d' : Document) : Prop :=
  length d' = length d ∧
  ∀ n e, d !! n = Some e →
    ∃ e', d' !! n = Some e' ∧ tagName e' = tagName e ∧ parentNode e' = parentNode e
          ∧ (∀ k, k ∉ K → attributes e' !! k = attributes e !! k)
          ∧ (∀ c, c ∉ X → c ∈ classList e' ↔ c ∈ classList e).

Section Avoids.
Context (X K : list string).

(** A selector that mentions no class of [X] and no attribute of [K]. *)
Definition simpleAvoids (s : Simple) : Prop :=
  match s with
  | STag _ => True
  | SClass c => c ∉ X
  | SId _ => "id" ∉ K
  | SHasAttr a | SAttrEq a _ | SAttrPrefix a _ => a ∉ K
  end.
Definition complexAvoids (s : Complex) : Prop :=
  match s with
  | Sel c => Forall simpleAvoids c
  | Desc anc c => Forall simpleAvoids anc ∧ Forall simpleAvoids c
  end.
Definition avoids (sel : Selector) : Prop := Forall complexAvoids sel.

End Avoids.

Definition faqContent : Selector := [Sel [SClass "faq-content"]].
Definition faqClasses : list string := ["open"; "hidden"].

(** The open FAQ items of a document. *)
Definition openFaqItems (d : Document) : list NodeId :=
  querySelectorAll d [Sel [SClass "faq-item"; SClass "open"]].

Definition menuClasses : list string := ["hidden"; "open"; "active"].
Definition menuAttributes : list string := ["aria-expanded"; "d"].

Definition closedMenu (mm mt icon : NodeId) (d : Document) : Document :=
  putAttribute icon "d" "M4 6h16M4 12h16M4 18h16"
    (putAttribute mt "aria-expanded" "false"
       (removeClass mt "active" (removeClass mm "open" d))).

Definition openedMenu (mm mt icon : NodeId) (d : Document) : Document :=
  putAttribute icon "d" "M6 18L18 6M6 6l12 12"
    (putAttribute mt "aria-expanded" "true"
       (addClass mt "active" (addClass mm "open" (removeClass mm "hidden" d)))).

(** The menu elements the script relies on are in place. *)
Definition menuReady (w : World) (mm mt icon : NodeId) : Prop :=
  mobileMenu (globals w) = Some mm ∧ menuToggle (globals w) = Some mt
  ∧ getElementById (dom w) "menu-icon" = Some icon ∧ mm < length (dom w).

(** The sample page once the script has run, and a click on the menu
    toggle: its own listener, then the document's. *)
Definition loaded : World := start (served Sample.page false true 1200 0).
Definition clickToggle : list Step :=
  [Deliver 1 (mkEvent (Some 5) "" false false); Deliver 2 (mkEvent (Some 5) "" false false)].

Definition closedOnce : World := run (clickToggle ++ clickToggle) loaded.
Definition reopened : World := run (Advance 100 :: clickToggle) closedOnce.
Definition closedTwice : World := run (Advance 100 :: clickToggle ++ [Advance 100]) reopened.

(** The sample page loaded at a scroll offset of 500 px: with the 80 px
    navigation bar the position 680 lies in the section [about]. *)
Definition loadedScrolled : World := start (served Sample.page false true 1200 500).

(** The classes that tell the parts of the FAQ and of the submit button
    apart; the script never adds or removes them. *)
Definition structural : list string := ["faq-content"; "btn-text"; "btn-spinner"].

Definition idOf (e : Element) : option string := attributes e !! "id".
Definition isField (e : Element) : Prop := tagName e = "input" ∨ tagName e = "textarea".

(** What every write of the script keeps of an element: its tag, its
    identifier, the structural classes; its parent, unless it is detached;
    [hidden] on a submit button; the absence of [hidden] on the confirmation;
    [disabled] on a field. *)
Record keeps (e e' : Element) : Prop := mkKeeps {
  keeps_tag : tagName e' = tagName e;
  keeps_id : idOf e' = idOf e;
  keeps_parent : parentNode e' = parentNode e ∨ parentNode e' = None;
  keeps_structural : ∀ c, c ∈ structural → c ∈ classList e' ↔ c ∈ classList e;
  keeps_button : idOf e = Some "submit-btn" → "hidden" ∈ classList e → "hidden" ∈ classList e';
  keeps_success : idOf e = Some "form-success" → "hidden" ∈ classList e' → "hidden" ∈ classList e;
  keeps_field : isField e → disabled e = true → disabled e' = true;
}.

(** An element that a grid render adds at index [n]. *)
Definition cardLike (n : nat) (e : Element) : Prop :=
  idOf e = None ∧ ¬ isField e ∧ tagName e ≠ "button"
  ∧ (∀ c, c ∈ structural → c ∉ classList e)
  ∧ (∀ p, parentNode e = Some p → p < n).

Definition grows (d d' : Document) : Prop :=
  length d ≤ length d'
  ∧ (∀ n e, d !! n = Some e → ∃ e', d' !! n = Some e' ∧ keeps e e')
  ∧ (∀ n e', d' !! n = Some e' → length d ≤ n → cardLike n e').

(** A parent comes before its children in the store. *)
Definition wfTree (d : Document) : Prop :=
  ∀ n e p, d !! n = Some e → parentNode e = Some p → p < n.

(** The page as the script expects it: the store is in document order, the
    submit button is not itself a field, and neither it nor the confirmation
    carries a structural class. *)
Definition Page (d : Document) : Prop :=
  wfTree d
  ∧ (∀ n e, d !! n = Some e → idOf e = Some "submit-btn" →
       ¬ isField e ∧ ∀ c, c ∈ structural → c ∉ classList e)
  ∧ (∀ n e, d !! n = Some e → idOf e = Some "form-success" →
       ∀ c, c ∈ structural → c ∉ classList e).

Class Stable (P : Document → Prop) : Prop :=
  stable : ∀ d d', P d → grows d d' → P d'.

Definition hasId (n : NodeId) (id : string) (d : Document) : Prop := attr d n "id" = Some id.
Definition marked (n : NodeId) (c : string) (d : Document) : Prop :=
  c ∈ structural ∧ hasClass d n c = true.
Definition hasTag (n : NodeId) (t : string) (d : Document) : Prop :=
  ∃ e, d !! n = Some e ∧ tagName e = t.
Definition inStore (n : NodeId) (d : Document) : Prop := n < length d.

(** The nodes a contact-form closure captured are the submit button, parts
    of it, and the confirmation. *)
Definition contactOk (sb : NodeId) (bt bs fs : option NodeId) (d : Document) : Prop :=
  hasId sb "submit-btn" d
  ∧ (∀ n, bt = Some n → marked n "btn-text" d)
  ∧ (∀ n, bs = Some n → marked n "btn-spinner" d)
  ∧ (∀ n, fs = Some n → hasId n "form-success" d).

Fixpoint cbOk (cb : Callback) (d : Document) : Prop :=
  match cb with
  | CbThrottled _ _ func => cbOk func d
  | CbResetButton b _ => hasTag b "button" d
  | CbContactSubmit _ sb bt bs fs => contactOk sb bt bs fs d
  | CbOpenModal m _ | CbCardKeydown m _ | CbCloseModal m | CbModalEscape m | CbHideModal m =>
      hasId (modal m) "destination-modal" d
  | _ => True
  end.

Definition kOk (k : Continuation) (d : Document) : Prop :=
  match k with
  | KDestinations grid | KBrochures grid => inStore grid d
  | KContact _ sb bt bs fs => contactOk sb bt bs fs d
  end.

Definition Inv (w : World) : Prop :=
  Page (dom w)
  ∧ (∀ n, mobileMenu (globals w) = Some n → hasId n "mobile-menu" (dom w))
  ∧ (∀ l, l ∈ listeners w → cbOk (handler l) (dom w))
  ∧ (∀ t, t ∈ timers w → cbOk (action t) (dom w))
  ∧ (∀ cb, cb ∈ frames w → cbOk cb (dom w))
  ∧ (∀ r, r ∈ requests w → kOk (continuation r) (dom w)).

(** A computation keeps the invariant, lets the document evolve, and on
    normal return establishes [Q]. *)
Definition triple {A} (P : Document → Prop) (m : M A) (Q : A → Document → Prop) : Prop :=
  ∀ w, Inv w → P (dom w) →
    Inv (m w).2 ∧ grows (dom w) (dom (m w).2) ∧ ∀ a, (m w).1 = inr a → Q a (dom (m w).2).

Definition top {A} : A → Document → Prop := λ _ _, True.

(** The elements a grid render adds. *)
Definition cardFunction (cardElement : NodeId → JsObject → Element) : Prop :=
  ∀ grid r, idOf (cardElement grid r) = None ∧ ¬ isField (cardElement grid r)
            ∧ tagName (cardElement grid r) ≠ "button"
            ∧ (∀ c, c ∈ structural → c ∉ classList (cardElement grid r))
            ∧ parentNode (cardElement grid r) = Some grid.

Definition fields : Selector := [Sel [STag "input"]; Sel [STag "textarea"]].
Definition freezeClasses : list string := ["opacity-60"; "cursor-not-allowed"].

(** The state the form is left in: the submit control hidden, the
    confirmation shown, every field disabled. *)
Definition frozen (form sb fs : NodeId) (d : Document) : Prop :=
  hasClass d sb "hidden" = true
  ∧ hasClass d fs "hidden" = false
  ∧ ∀ n, n ∈ querySelectorAllIn d form fields → isDisabled d n = true.

#[global] Instance isField_dec (e : Element) : Decision (isField e).
Proof. unfold isField. apply _. Defined.

(** What a user could still operate in the form: a field or a button of the
    form that is enabled and not hidden. *)
Definition operable (d : Document) (form n : NodeId) : bool :=
  below d form n
  && match d !! n with
     | Some e =>
         (bool_decide (isField e) || bool_decide (tagName e = "button"))
         && negb (disabled e) && negb (tokenContains "hidden" (classList e))
     | None => false
     end.

(** The submit control is the only button of the form. *)
Definition onlyButton (form sb : NodeId) (d : Document) : Prop :=
  ∀ n e, d !! n = Some e → below d form n = true → tagName e = "button" → n = sb.

(** The loop of the success branch. *)
Definition freezeField (x : NodeId) (d : Document) : Document :=
  addClass x "cursor-not-allowed" (addClass x "opacity-60" (putDisabled x true d)).
Definition freezeAll (l : list NodeId) (d : Document) : Document :=
  fold_left (λ d x, freezeField x d) l d.

Definition succeededDocument (form sb fs : NodeId) (d : Document) : Document :=
  let shown := removeClass fs "hidden" (addClass sb "hidden" d) in
  freezeAll (querySelectorAllIn shown form fields) shown.

(** A submission on the sample page: the submit event reaches the two
    listeners of the form in the order of their registration. *)
Definition submitEvent : Event := mkEvent (Some 11) "" false false.
Definition submitting : World := run [Deliver 10 submitEvent; Deliver 15 submitEvent] loaded.

Definition failed : World := exec (Settle 1 NetworkError) submitting.
Definition rejected : World := exec (Settle 1 (Response false BadJson)) submitting.

















(** A second page: the landing page with a hero image, fade elements, one
    destination card and the destination modal. *)
Module Landing.

Definition page : Document :=
  [ (* 0 *) element "html" [] [] None;
    (* 1 *) element "body" [] [] (Some 0);
    (* 2 *) Sample.sized 0 80 (element "nav" [("id", "navbar")] [] (Some 1));
    (* 3 *) element "button" [("id", "menu-toggle")] [] (Some 2);
    (* 4 *) element "path" [("id", "menu-icon")] [] (Some 3);
    (* 5 *) element "div" [("id", "mobile-menu")] ["hidden"] (Some 1);
    (* 6 *) element "a" [("href", "#")] [] (Some 2);
    (* 7 *) element "a" [("href", "#destinations")] [] (Some 2);
    (* 8 *) Sample.sized 0 700 (element "section" [("id", "hero")] [] (Some 1));
    (* 9 *) element "img" [("src", "hero.jpg")] [] (Some 8);
    (* 10 *) Sample.sized 700 800
               (element "section" [("id", "destinations")] ["fade-in-element"] (Some 1));
    (* 11 *) element "h2" [] ["fade-in-element"] (Some 10);
    (* 12 *) element "div"
               [("data-image", "https://images.unsplash.com/kyoto?w=1200");
                ("data-region", "Asia"); ("data-name", "Kyoto");
                ("data-tagline", "Temples and gardens"); ("data-description", "Ten days");
                ("data-best-time", "April"); ("data-highlights", "Gion");
                ("data-experiences", "Tea ceremony")]
               ["destination-card"] (Some 10);
    (* 13 *) element "div" [("id", "destination-modal")] ["hidden"] (Some 1);
    (* 14 *) element "div" [] ["modal-backdrop"] (Some 13);
    (* 15 *) element "div" [] ["modal-content"] (Some 13);
    (* 16 *) element "button" [("id", "modal-close")] [] (Some 15);
    (* 17 *) withScrollTop 40 (element "div" [] ["modal-scroll"] (Some 15));
    (* 18 *) element "img" [("id", "modal-image")] [] (Some 17);
    (* 19 *) element "p" [("id", "modal-region")] [] (Some 17);
    (* 20 *) Sample.labelled "Name" (element "h2" [("id", "modal-name")] [] (Some 17));
    (* 21 *) element "p" [("id", "modal-tagline")] [] (Some 17);
    (* 22 *) element "p" [("id", "modal-description")] [] (Some 17);
    (* 23 *) element "p" [("id", "modal-best-time")] [] (Some 17);
    (* 24 *) element "p" [("id", "modal-highlights")] [] (Some 17);
    (* 25 *) element "p" [("id", "modal-experiences")] [] (Some 17);
    (* 26 *) element "a" [("id", "modal-cta-btn"); ("href", "#contact")] [] (Some 17);
    (* 27 *) element "span" [("id", "modal-cta-name")] [] (Some 26) ].

(** The variables [initDestinationModal] binds on this page. *)
Definition env : ModalEnv :=
  mkModalEnv 13 (Some 18) (Some 19) (Some 20) (Some 21) (Some 22) (Some 23) (Some 24)
    (Some 25) (Some 27).

End Landing.

(** The landing page once the script has run, on a wide screen and in a
    browser without [IntersectionObserver]. *)
Definition landed : World := start (served Landing.page false true 1200 0).
Definition landedPlain : World := start (served Landing.page false false 1200 0).

(** The click of the current event landed on [root] or inside it. *)
Definition clickedInside (w : World) (root : NodeId) : bool :=
  match target (event w) with
  | Some t => contains (dom w) root t
  | None => false
  end.

(** A layout metric of a node, [0] for a node that is not there. *)
Definition measure (f : Element → Z) (d : Document) (n : NodeId) : Z :=
  match d !! n with
  | Some e => f e
  | None => 0%Z
  end.

(** The event object a listener receives for an event [e]. *)
Definition dispatched (e : Event) (w : World) : World :=
  set_event (mkEvent (target e) (key e) false false) w.

(** The span of a section holds the position. *)
Definition spans (d : Document) (position : Z) (section : NodeId) : bool :=
  match d !! section with
  | Some e => bool_decide (offsetTop e ≤ position)%Z
              && bool_decide (position < offsetTop e + offsetHeight e)%Z
  | None => false
  end.

(** [section.getAttribute('id')] *)
Definition idValue (d : Document) (section : NodeId) : JsVal :=
  match attr d section "id" with
  | Some i => Str i
  | None => Null
  end.

(** What [updateActiveNavLink] does to one link. *)
Definition markLink (target : string) (link : NodeId) (d : Document) : Document :=
  if bool_decide (attr d link "href" = Some target)
  then addClass link "text-secondary" (removeClass link "text-secondary" d)
  else removeClass link "text-secondary" d.

(** The button after the submit listener of the form enhancement, and after
    the timer that listener sets. *)
Definition sendingButton (b : NodeId) (d : Document) : Document :=
  putDisabled b true (writeTextContent b "Invio in corso..." d).
Definition restoredButton (b : NodeId) (original : string) (d : Document) : Document :=
  putDisabled b false (writeTextContent b original d).

(** [heroImage.style.transform] as the model keeps it. *)
Definition transformOf (d : Document) (n : NodeId) : option Z := d !! n ≫= parallax.

(** [card.dataset.x], and the text an assignment to [textContent] leaves. *)
Definition datum (d : Document) (card : NodeId) (name : string) : JsVal :=
  match attr d card name with
  | Some s => Str s
  | None => Undefined
  end.
Definition textOf (v : JsVal) : string :=
  match v with
  | Str s => s
  | _ => ""
  end.

(** The text parts of the modal, each with the data attribute it shows. *)
Definition modalTexts (m : ModalEnv) : list (option NodeId * string) :=
  [(modalRegion m, "data-region"); (modalName m, "data-name");
   (modalTagline m, "data-tagline"); (modalDescription m, "data-description");
   (modalBestTime m, "data-best-time"); (modalHighlights m, "data-highlights");
   (modalExperiences m, "data-experiences"); (modalCtaName m, "data-name")].

(** The element holds the text [s] and has no child. *)
Definition holdsText (d : Document) (n : NodeId) (s : string) : Prop :=
  (∃ e, d !! n = Some e ∧ textData e = s) ∧ ∀ c, d !! c ≫= parentNode ≠ Some n.

(** A change of single elements that keeps their place in the tree, their
    tag and their text. *)
Definition gentle (f : Element → Element) : Prop :=
  ∀ e, parentNode (f e) = parentNode e ∧ tagName (f e) = tagName e ∧ textData (f e) = textData e.

(** Writing a text into each element of a list, in order. *)
Definition writeTexts (l : list (NodeId * string)) (d : Document) : Document :=
  foldl (λ d p, writeTextContent p.1 p.2 d) d l.

(** [b] is the one [body] element of the document, a child of the document
    element. *)
Definition bodyAt (d : Document) (b : NodeId) : Prop :=
  (∀ n, tagName <$> d !! n = Some "body" → n = b)
  ∧ tagName <$> d !! b = Some "body"
  ∧ d !! b ≫= parentNode = Some documentElement.


(** The document [openModal] leaves, up to the reset of the scroll
    position. *)
Definition shownModal (m : ModalEnv) (img b card : NodeId) (texts : list (NodeId * string))
    (d : Document) : Document :=
  addClass b "modal-open"
    (addClass (modal m) "open"
       (removeClass (modal m) "hidden"
          (writeTexts texts
             (putAttribute img "alt" (toString (datum d card "data-name"))
                (putAttribute img "src" (toString (datum d card "data-image")) d))))).

Definition scrollReset (m : ModalEnv) (d : Document) : Document :=
  match querySelectorIn d (modal m) [Sel [SClass "modal-scroll"]] with
  | Some s => alter (withScrollTop 0) s d
  | None => d
  end.

(** [bodyAt], as a test that can be run. *)
Definition bodyCheck (d : Document) (b : NodeId) : bool :=
  forallb (λ n, bool_decide (tagName <$> d !! n = Some "body" → n = b)) (seq 0 (length d))
  && bool_decide (tagName <$> d !! b = Some "body")
  && bool_decide (d !! b ≫= parentNode = Some documentElement).

(** The variables [initDestinationModal] binds on a document for the
    overlay [overlay]. *)
Definition modalEnvOf (d : Document) (overlay : NodeId) : ModalEnv :=
  mkModalEnv overlay (getElementById d "modal-image") (getElementById d "modal-region")
    (getElementById d "modal-name") (getElementById d "modal-tagline")
    (getElementById d "modal-description") (getElementById d "modal-best-time")
    (getElementById d "modal-highlights") (getElementById d "modal-experiences")
    (getElementById d "modal-cta-name").

(** The two listeners of each card, and the cards made focusable. *)
Definition cardListeners (m : ModalEnv) (cards : list NodeId) : list Listener :=
  cards ≫= λ card, [mkListener (Node card) "click" (CbOpenModal m card);
                    mkListener (Node card) "keydown" (CbCardKeydown m card)].
Definition focusable (cards : list NodeId) (d : Document) : Document :=
  foldl (λ d card, putAttribute card "role" "button" (putAttribute card "tabindex" "0" d)) d cards.

(** The listeners [initEventListeners] registers, in order; [c] is the
    number of closure variables allocated before. *)
Definition navigationListeners (c : nat) (mt : NodeId) (anchors links : list NodeId)
    : list Listener :=
  [mkListener Window "scroll" (CbThrottled c 100 CbScrollChrome);
   mkListener (Node mt) "click" CbToggleMobileMenu;
   mkListener TheDocument "click" CbClickOutside]
  ++ ((λ link, mkListener (Node link) "click" CbSmoothScroll) <$> anchors)
  ++ ((λ link, mkListener (Node link) "click" CbCloseMobileMenu) <$> links)
  ++ [mkListener Window "resize" (CbThrottled (S c) 200 CbResizeClose);
      mkListener TheDocument "keydown" CbEscapeClose].

(** * Properties of the script *)

(** ** Facts about strings *)

Lemma prefix_app_true (p rest : string) : String.prefix p (p +:+ rest) = true.
Proof.
  induction p as [|a p IH]; simpl; [by destruct rest |].
  destruct (ascii_dec a a); [done | congruence].
Qed.

Lemma prefix_split (p s : string) : String.prefix p s = true → ∃ rest, s = p +:+ rest.
Proof.
  revert s; induction p as [|a p IH]; intros s H.
  - by exists s.
  - destruct s as [|b s]; simpl in H; [discriminate |].
    destruct (ascii_dec a b) as [->|]; [| discriminate].
    destruct (IH _ H) as [r ->]. by exists r.
Qed.

Lemma includes_prefix (n s : string) : String.prefix n s = true → JsString.includes n s = true.
Proof. intros H. destruct s; cbn [JsString.includes]; rewrite H; done. Qed.

Lemma includes_cons (n : string) (c : ascii) (s : string) :
  JsString.includes n s = true → JsString.includes n (String c s) = true.
Proof. intros H. cbn [JsString.includes]. rewrite H. apply orb_true_r. Qed.

Lemma includes_app (n pre post : string) : JsString.includes n (pre +:+ n +:+ post) = true.
Proof.
  induction pre as [|c pre IH].
  - change ("" +:+ n +:+ post) with (n +:+ post). apply includes_prefix, prefix_app_true.
  - change (String c pre +:+ n +:+ post) with (String c (pre +:+ n +:+ post)).
    by apply includes_cons.
Qed.

Lemma beforeFirst_stop (c : ascii) (s t : string) :
  JsString.beforeFirst c (JsString.beforeFirst c s +:+ String c t) = JsString.beforeFirst c s.
Proof.
  induction s as [|a s IH]; simpl.
  - by rewrite Ascii.eqb_refl.
  - destruct (Ascii.eqb a c) eqn:E; simpl; [by rewrite Ascii.eqb_refl |].
    by rewrite E, IH.
Qed.

Lemma afterFirst_stop (c : ascii) (s t : string) :
  JsString.afterFirst c (JsString.beforeFirst c s +:+ String c t) = Some t.
Proof.
  induction s as [|a s IH]; simpl.
  - by rewrite Ascii.eqb_refl.
  - destruct (Ascii.eqb a c) eqn:E; simpl; [by rewrite Ascii.eqb_refl |].
    by rewrite E, IH.
Qed.

Lemma stripPrefix_split (p s t : string) : UrlSpec.stripPrefix p s = Some t → s = p +:+ t.
Proof.
  revert s; induction p as [|a p IH]; intros s H.
  - simpl in H. by injection H as <-.
  - destruct s as [|b s]; simpl in H; [discriminate |].
    destruct (Ascii.eqb a b) eqn:E; [| discriminate].
    apply Ascii.eqb_eq in E as ->. by rewrite (IH _ H).
Qed.

Lemma afterSeparator_suffix (sep s t : string) :
  UrlSpec.afterSeparator sep s = Some t → ∃ pre, s = pre +:+ t.
Proof.
  revert t; induction s as [|a s IH]; intros t; simpl.
  - destruct (UrlSpec.stripPrefix sep "") eqn:E; [| done].
    intros [= ->]. exists sep. by apply stripPrefix_split.
  - destruct (UrlSpec.stripPrefix sep (String a s)) eqn:E.
    + intros [= ->]. exists sep. by apply stripPrefix_split.
    + intros H. destruct (IH _ H) as [pre ->]. by exists (String a pre).
Qed.

Lemma authority_prefix (s : string) : String.prefix (UrlSpec.authority s) s = true.
Proof.
  induction s as [|a s IH]; simpl; [done |].
  destruct (Ascii.eqb a "/" || Ascii.eqb a "?" || Ascii.eqb a "#"); simpl; [done |].
  destruct (ascii_dec a a); [done | congruence].
Qed.

Lemma host_occurs (url : string) : JsString.includes (UrlSpec.host url) url = true.
Proof.
  unfold UrlSpec.host.
  destruct (UrlSpec.afterSeparator "://" url) as [t|] eqn:E; simpl.
  - destruct (afterSeparator_suffix _ _ _ E) as [pre ->].
    destruct (prefix_split _ _ (authority_prefix t)) as [rest Hr].
    rewrite Hr at 2. apply includes_app.
  - apply includes_prefix, authority_prefix.
Qed.









(** ** The URL helper *)

(** C6, as stated, fails: a URL that points at another host and only
    mentions the image host in its path is rewritten all the same. *)
Lemma unsplashUrl_rewrites_foreign_host :
  ¬ UrlSpec.pointsAt unsplashHost foreignUrl
  ∧ unsplashUrl (Str foreignUrl) "w=600" ≠ Str foreignUrl.
Proof. split; [by vm_compute | by vm_compute]. Qed.

(** C6, amended: a URL whose text contains [images.unsplash.com], as every
    URL pointing at that host does, comes back as its text before the first
    question mark followed by [?] and the directive, so that the directive is
    the whole query string; a URL whose text does not contain it, an empty
    and an absent URL come back unchanged. *)
Theorem unsplashUrl_normalizes (s qs : string) :
  (JsString.includes unsplashHost s = true →
     unsplashUrl (Str s) qs = Str (JsString.beforeFirst "?" s +:+ "?" +:+ qs)
     ∧ JsString.beforeFirst "?" (JsString.beforeFirst "?" s +:+ "?" +:+ qs)
       = JsString.beforeFirst "?" s
     ∧ JsString.afterFirst "?" (JsString.beforeFirst "?" s +:+ "?" +:+ qs) = Some qs)
  ∧ (UrlSpec.pointsAt unsplashHost s → JsString.includes unsplashHost s = true)
  ∧ (JsString.includes unsplashHost s = false → unsplashUrl (Str s) qs = Str s)
  ∧ unsplashUrl Undefined qs = Undefined
  ∧ unsplashUrl Null qs = Null
  ∧ unsplashUrl (Str "") qs = Str ""
  ∧ unsplashUrl (Str "https://cdn.example.com/x.jpg?foo=1") qs
    = Str "https://cdn.example.com/x.jpg?foo=1".
Proof.
  split; [intros H; split_and! | split_and!]; try done.
  - unfold unsplashUrl. rewrite H.
    destruct s as [|c s]; [by vm_compute in H |]. done.
  - apply (beforeFirst_stop "?" s qs).
  - apply (afterFirst_stop "?" s qs).
  - intros <-. apply host_occurs.
  - intros H. unfold unsplashUrl. rewrite H. by rewrite orb_true_r.
Qed.

(** The theorem at a URL of the image host and at the specification's
    example. *)
Lemma unsplashUrl_normalizes_witness :
  unsplashUrl (Str "https://images.unsplash.com/photo-1?ixid=a&w=3000") "auto=format&fit=crop&w=600&q=70"
  = Str "https://images.unsplash.com/photo-1?auto=format&fit=crop&w=600&q=70".
Proof.
  apply (unsplashUrl_normalizes "https://images.unsplash.com/photo-1?ixid=a&w=3000"
           "auto=format&fit=crop&w=600&q=70").
  by vm_compute.
Defined.

(** ** The card grids *)

(** C8: when the fetch or the parse of a grid's data fails, the loader
    returns normally with one error entry added to the console and nothing
    else changed: the document, and with it the grid, is as it was, and
    nothing is shown to the user. *)
Theorem grid_load_failure_is_logged (grid : NodeId) (outcome : FetchOutcome) (e : Error) (w : World) :
  loadFailure outcome = Some e →
  destinationsSettled grid outcome w
    = (inr tt, set_console (console w ++ [ConsoleError "Error loading destinations:" e]) w)
  ∧ brochuresSettled grid outcome w
    = (inr tt, set_console (console w ++ [ConsoleError "Error loading brochures:" e]) w)
  ∧ dom (destinationsSettled grid outcome w).2 = dom w
  ∧ dom (brochuresSettled grid outcome w).2 = dom w
  ∧ alerts (destinationsSettled grid outcome w).2 = alerts w
  ∧ alerts (brochuresSettled grid outcome w).2 = alerts w.
Proof.
  intros H. destruct outcome as [|ok [|j]]; simplify_eq/=; done.
Qed.

Lemma grid_load_failure_witness :
  dom (brochuresSettled 25 NetworkError (served Sample.page false true 1200 0)).2 = Sample.page.
Proof.
  apply (grid_load_failure_is_logged 25 NetworkError FetchFailed
           (served Sample.page false true 1200 0)).
  reflexivity.
Defined.


(** ** Facts about the monad *)

Lemma run_bind {A B} (m : M A) (f : A → M B) (w : World) :
  (m ≫= f) w = match m w with
               | (inl e, w') => (inl e, w')
               | (inr a, w') => f a w'
               end.
Proof. reflexivity. Qed.

Lemma forEach_cons {A} (f : A → M unit) (x : A) (l : list A) (w : World) :
  forEach f (x :: l) w = match f x w with
                         | (inl e, w') => (inl e, w')
                         | (inr _, w') => forEach f l w'
                         end.
Proof. reflexivity. Qed.

(** ** Facts about the document *)

Lemma elem_of_tokenAdd (c c' : string) (l : list string) :
  c' ∈ tokenAdd c l ↔ c' = c ∨ c' ∈ l.
Proof.
  unfold tokenAdd. case_bool_decide.
  - naive_solver.
  - rewrite elem_of_app, list_elem_of_singleton. naive_solver.
Qed.

Lemma elem_of_tokenRemove (c c' : string) (l : list string) :
  c' ∈ tokenRemove c l ↔ c' ≠ c ∧ c' ∈ l.
Proof. unfold tokenRemove. by rewrite list_elem_of_filter. Qed.

Lemma hasClass_addClass_eq (d : Document) (n : NodeId) (c : string) :
  n < length d → hasClass (addClass n c d) n c = true.
Proof.
  intros H. destruct (lookup_lt_is_Some_2 d n H) as [e He].
  unfold hasClass, addClass. rewrite list_lookup_alter_eq, He. simpl.
  unfold tokenContains. rewrite bool_decide_eq_true, elem_of_tokenAdd. by left.
Qed.

Lemma hasClass_addClass_ne (d : Document) (n m : NodeId) (c c' : string) :
  m ≠ n ∨ c' ≠ c → hasClass (addClass n c d) m c' = hasClass d m c'.
Proof.
  intros H. unfold hasClass, addClass.
  destruct (decide (m = n)) as [->|Hne].
  - rewrite list_lookup_alter_eq. destruct (d !! n) as [e|]; simpl; [| done].
    unfold tokenContains. apply bool_decide_ext. rewrite elem_of_tokenAdd. naive_solver.
  - by rewrite list_lookup_alter_ne.
Qed.

Lemma hasClass_addClass_mono (d : Document) (n m : NodeId) (c c' : string) :
  hasClass d m c' = true → hasClass (addClass n c d) m c' = true.
Proof.
  unfold hasClass, addClass.
  destruct (decide (m = n)) as [->|Hne].
  - rewrite list_lookup_alter_eq. destruct (d !! n) as [e|]; simpl; [| done].
    unfold tokenContains. rewrite !bool_decide_eq_true, elem_of_tokenAdd. naive_solver.
  - by rewrite list_lookup_alter_ne.
Qed.

Lemma hasClass_removeClass_eq (d : Document) (n : NodeId) (c : string) :
  hasClass (removeClass n c d) n c = false.
Proof.
  unfold hasClass, removeClass. rewrite list_lookup_alter_eq.
  destruct (d !! n) as [e|]; simpl; [| done].
  unfold tokenContains. rewrite bool_decide_eq_false, elem_of_tokenRemove. naive_solver.
Qed.

Lemma hasClass_removeClass_ne (d : Document) (n m : NodeId) (c c' : string) :
  m ≠ n ∨ c' ≠ c → hasClass (removeClass n c d) m c' = hasClass d m c'.
Proof.
  intros H. unfold hasClass, removeClass.
  destruct (decide (m = n)) as [->|Hne].
  - rewrite list_lookup_alter_eq. destruct (d !! n) as [e|]; simpl; [| done].
    unfold tokenContains. apply bool_decide_ext. rewrite elem_of_tokenRemove. naive_solver.
  - by rewrite list_lookup_alter_ne.
Qed.

Lemma hasClass_removeClass_anti (d : Document) (n m : NodeId) (c c' : string) :
  hasClass (removeClass n c d) m c' = true → hasClass d m c' = true.
Proof.
  unfold hasClass, removeClass.
  destruct (decide (m = n)) as [->|Hne].
  - rewrite list_lookup_alter_eq. destruct (d !! n) as [e|]; simpl; [| done].
    unfold tokenContains. rewrite !bool_decide_eq_true, elem_of_tokenRemove. naive_solver.
  - by rewrite list_lookup_alter_ne.
Qed.

Lemma hasClass_lt (d : Document) (n : NodeId) (c : string) :
  hasClass d n c = true → n < length d.
Proof.
  unfold hasClass. destruct (d !! n) eqn:E; [| done]. intros _. by eapply lookup_lt_Some.
Qed.

(** *** Documents that differ only in some classes and attributes *)

Section SameBut.
Context (X K : list string).

Lemma sameBut_refl (d : Document) : sameBut X K d d.
Proof. split; [done |]. intros n e He. exists e. naive_solver. Qed.

Lemma sameBut_trans (d1 d2 d3 : Document) :
  sameBut X K d1 d2 → sameBut X K d2 d3 → sameBut X K d1 d3.
Proof.
  intros [L1 H1] [L2 H2]. split; [congruence |].
  intros n e He. destruct (H1 n e He) as (e' & He' & T1 & P1 & A1 & C1).
  destruct (H2 n e' He') as (e'' & He'' & T2 & P2 & A2 & C2).
  exists e''. split_and!; try congruence.
  - intros k Hk. rewrite (A2 k Hk). by apply A1.
  - intros c Hc. rewrite (C2 c Hc). by apply C1.
Qed.

Lemma sameBut_alter_classes (f : list string → list string) (n : NodeId) (d : Document) :
  (∀ l c, c ∉ X → c ∈ f l ↔ c ∈ l) → sameBut X K d (alter (withClassList f) n d).
Proof.
  intros Hf. split; [by rewrite length_alter |].
  intros m e He. destruct (decide (n = m)) as [->|Hne].
  - exists (withClassList f e). rewrite list_lookup_alter_eq, He. split_and!; try done.
    intros c Hc. by apply Hf.
  - exists e. rewrite list_lookup_alter_ne by done. naive_solver.
Qed.

Lemma sameBut_addClass (n : NodeId) (c : string) (d : Document) :
  c ∈ X → sameBut X K d (addClass n c d).
Proof.
  intros Hc. apply sameBut_alter_classes. intros l c' Hc'.
  rewrite elem_of_tokenAdd. naive_solver.
Qed.

Lemma sameBut_removeClass (n : NodeId) (c : string) (d : Document) :
  c ∈ X → sameBut X K d (removeClass n c d).
Proof.
  intros Hc. apply sameBut_alter_classes. intros l c' Hc'.
  rewrite elem_of_tokenRemove. naive_solver.
Qed.

Lemma sameBut_putAttribute (n : NodeId) (k v : string) (d : Document) :
  k ∈ K → sameBut X K d (putAttribute n k v d).
Proof.
  intros Hk. split; [by unfold putAttribute; rewrite length_alter |].
  intros m e He. unfold putAttribute. destruct (decide (n = m)) as [->|Hne].
  - exists (withAttribute k v e). rewrite list_lookup_alter_eq, He. split_and!; try done.
    intros k' Hk'. simpl. apply lookup_insert_ne. congruence.
  - exists e. rewrite list_lookup_alter_ne by done. naive_solver.
Qed.

Lemma sameBut_putDisabled (n : NodeId) (b : bool) (d : Document) :
  sameBut X K d (putDisabled n b d).
Proof.
  split; [by unfold putDisabled; rewrite length_alter |].
  intros m e He. unfold putDisabled. destruct (decide (n = m)) as [->|Hne].
  - exists (withDisabled b e). rewrite list_lookup_alter_eq, He. by split_and!.
  - exists e. rewrite list_lookup_alter_ne by done. naive_solver.
Qed.

Lemma sameBut_lookup_None (d d' : Document) (n : NodeId) :
  sameBut X K d d' → d !! n = None → d' !! n = None.
Proof.
  intros [L _] H. apply lookup_ge_None. apply lookup_ge_None in H. lia.
Qed.

Lemma sameBut_parent (d d' : Document) (n : NodeId) :
  sameBut X K d d' → d' !! n ≫= parentNode = d !! n ≫= parentNode.
Proof.
  intros S. destruct (d !! n) as [e|] eqn:E.
  - destruct S as [_ S]. destruct (S n e E) as (e' & -> & _ & P & _). simpl. congruence.
  - by rewrite (sameBut_lookup_None _ _ _ S E).
Qed.

Lemma sameBut_ancestors (d d' : Document) :
  sameBut X K d d' → ∀ fuel n, ancestors d' fuel n = ancestors d fuel n.
Proof.
  intros S fuel. induction fuel as [|fuel IH]; intros n; simpl; [done |].
  rewrite (sameBut_parent _ _ n S). destruct (d !! n ≫= parentNode); [| done]. by rewrite IH.
Qed.

Lemma sameBut_ancestorsOf (d d' : Document) (n : NodeId) :
  sameBut X K d d' → ancestorsOf d' n = ancestorsOf d n.
Proof.
  intros S. unfold ancestorsOf. rewrite (proj1 S). by apply sameBut_ancestors.
Qed.

Lemma sameBut_below (d d' : Document) (root n : NodeId) :
  sameBut X K d d' → below d' root n = below d root n.
Proof. intros S. unfold below. by rewrite (sameBut_ancestorsOf _ _ _ S). Qed.

Lemma sameBut_contains (d d' : Document) (root n : NodeId) :
  sameBut X K d d' → contains d' root n = contains d root n.
Proof. intros S. unfold contains. by rewrite (sameBut_ancestorsOf _ _ _ S). Qed.

Lemma sameBut_isConnected (d d' : Document) (n : NodeId) :
  sameBut X K d d' → isConnected d' n = isConnected d n.
Proof.
  intros S. unfold isConnected. by rewrite (sameBut_contains _ _ _ _ S), (proj1 S).
Qed.

Lemma sameBut_hasClass (d d' : Document) (n : NodeId) (c : string) :
  sameBut X K d d' → c ∉ X → hasClass d' n c = hasClass d n c.
Proof.
  intros S Hc. unfold hasClass. destruct (d !! n) as [e|] eqn:E.
  - destruct S as [_ S]. destruct (S n e E) as (e' & -> & _ & _ & _ & C).
    unfold tokenContains. apply bool_decide_ext. by apply C.
  - by rewrite (sameBut_lookup_None _ _ _ S E).
Qed.

Lemma sameBut_attr (d d' : Document) (n : NodeId) (k : string) :
  sameBut X K d d' → k ∉ K → attr d' n k = attr d n k.
Proof.
  intros S Hk. unfold attr. destruct (d !! n) as [e|] eqn:E.
  - destruct S as [_ S]. destruct (S n e E) as (e' & -> & _ & _ & A & _).
    simpl. by apply A.
  - by rewrite (sameBut_lookup_None _ _ _ S E).
Qed.

Lemma sameBut_matchesCompound (d d' : Document) (n : NodeId) (c : Compound) :
  sameBut X K d d' → Forall (simpleAvoids X K) c → matchesCompound d' n c = matchesCompound d n c.
Proof.
  intros S Hc. unfold matchesCompound. destruct (d !! n) as [e|] eqn:E.
  - destruct S as [_ S]. destruct (S n e E) as (e' & -> & T & _ & A & C).
    induction Hc as [|s c Hs Hc IH]; simpl; [done |]. rewrite IH. f_equal.
    destruct s; simpl in *; rewrite ?T, ?(A _ Hs); try done.
    unfold tokenContains. apply bool_decide_ext. by apply C.
  - by rewrite (sameBut_lookup_None _ _ _ S E).
Qed.

Lemma existsb_ext_all {A} (f g : A → bool) (l : list A) :
  (∀ x, f x = g x) → existsb f l = existsb g l.
Proof. intros H. induction l as [|x l IH]; simpl; [done |]. by rewrite H, IH. Qed.

Lemma sameBut_matches (d d' : Document) (sel : Selector) (n : NodeId) :
  sameBut X K d d' → avoids X K sel → matches d' sel n = matches d sel n.
Proof.
  intros S Hs. unfold matches. induction Hs as [|s sel H Hs IH]; simpl; [done |].
  rewrite IH. f_equal. destruct s as [c|anc c]; simpl in *.
  - by apply sameBut_matchesCompound.
  - destruct H as [Ha Hc]. rewrite (sameBut_matchesCompound d d' n c S Hc).
    rewrite (sameBut_ancestorsOf _ _ _ S). f_equal.
    apply existsb_ext_all. intros a. by apply sameBut_matchesCompound.
Qed.

Lemma sameBut_querySelectorAllIn (d d' : Document) (root : NodeId) (sel : Selector) :
  sameBut X K d d' → avoids X K sel → querySelectorAllIn d' root sel = querySelectorAllIn d root sel.
Proof.
  intros S Hs. unfold querySelectorAllIn. rewrite (proj1 S).
  apply list_filter_iff. intros n.
  by rewrite (sameBut_below _ _ _ _ S), (sameBut_matches _ _ _ _ S Hs).
Qed.

Lemma sameBut_querySelectorIn (d d' : Document) (root : NodeId) (sel : Selector) :
  sameBut X K d d' → avoids X K sel → querySelectorIn d' root sel = querySelectorIn d root sel.
Proof. intros S Hs. unfold querySelectorIn. by rewrite (sameBut_querySelectorAllIn d d'). Qed.

Lemma sameBut_querySelectorAll (d d' : Document) (sel : Selector) :
  sameBut X K d d' → avoids X K sel → querySelectorAll d' sel = querySelectorAll d sel.
Proof.
  intros S Hs. unfold querySelectorAll. rewrite (proj1 S).
  apply list_filter_iff. intros n.
  by rewrite (sameBut_isConnected _ _ _ S), (sameBut_matches _ _ _ _ S Hs).
Qed.

Lemma sameBut_querySelector (d d' : Document) (sel : Selector) :
  sameBut X K d d' → avoids X K sel → querySelector d' sel = querySelector d sel.
Proof. intros S Hs. unfold querySelector. by rewrite (sameBut_querySelectorAll d d'). Qed.

Lemma sameBut_getElementById (d d' : Document) (id : string) :
  sameBut X K d d' → "id" ∉ K → getElementById d' id = getElementById d id.
Proof.
  intros S Hk. unfold getElementById. case_bool_decide; [done |].
  apply sameBut_querySelector; [done |]. repeat constructor. done.
Qed.

End SameBut.

Lemma matches_two_classes (d : Document) (a b : string) (n : NodeId) :
  matches d [Sel [SClass a; SClass b]] n = hasClass d n a && hasClass d n b.
Proof.
  unfold matches, matchesComplex, matchesCompound, hasClass. simpl.
  destruct (d !! n); simpl; [| done]. by rewrite orb_false_r, andb_true_r.
Qed.

Lemma matches_one_class (d : Document) (a : string) (n : NodeId) :
  matches d [Sel [SClass a]] n = hasClass d n a.
Proof.
  unfold matches, matchesComplex, matchesCompound, hasClass. simpl.
  destruct (d !! n); simpl; [| done]. by rewrite orb_false_r, andb_true_r.
Qed.

Lemma elem_of_querySelectorAll (d : Document) (sel : Selector) (n : NodeId) :
  n ∈ querySelectorAll d sel ↔ isConnected d n = true ∧ matches d sel n = true.
Proof.
  unfold querySelectorAll. rewrite list_elem_of_filter, elem_of_seq.
  unfold isConnected. split.
  - intros [H _]. apply Is_true_true in H. by apply andb_true_iff in H.
  - intros [H1 H2]. split; [apply Is_true_true; by rewrite H1, H2 |].
    apply andb_true_iff in H1 as [H1 _]. apply bool_decide_eq_true in H1. lia.
Qed.

Lemma NoDup_querySelectorAll (d : Document) (sel : Selector) : NoDup (querySelectorAll d sel).
Proof. apply NoDup_filter, NoDup_seq. Qed.

Lemma NoDup_at_most_one {A} (l : list A) (x : A) :
  NoDup l → (∀ a, a ∈ l → a = x) → length l ≤ 1.
Proof.
  intros Hn H. destruct l as [|a [|b l]]; simpl; [lia | lia |].
  assert (a = x) as -> by (apply H; set_solver).
  assert (b = x) as -> by (apply H; set_solver).
  apply NoDup_cons in Hn as [Hn _]. set_solver.
Qed.



(** ** The FAQ accordion *)

Lemma faqContent_avoids : avoids faqClasses [] faqContent.
Proof. repeat constructor. unfold faqClasses. set_solver. Qed.

Lemma set_dom_id (w : World) : set_dom (dom w) w = w.
Proof. by destruct w. Qed.

Lemma closeOther_run (faqItem item : NodeId) (w : World) :
  closeOther faqItem item w =
    if bool_decide (item = faqItem) then (inr tt, w)
    else
      let d1 := removeClass item "open" (dom w) in
      match querySelectorIn d1 item faqContent with
      | Some c => (inr tt, set_dom (addClass c "hidden" d1) w)
      | None => (inl (TypeError "item.querySelector('.faq-content')"), set_dom d1 w)
      end.
Proof.
  unfold closeOther. case_bool_decide; simpl; [done |].
  unfold classListRemove, modifyDom, modify, queryIn, gets, mbind, M_bind. simpl.
  fold faqContent.
  by destruct (querySelectorIn (removeClass item "open" (dom w)) item faqContent).
Qed.

Lemma closeOthers_run (faqItem : NodeId) (items : list NodeId) (w w' : World) :
  forEach (closeOther faqItem) items w = (inr tt, w') →
  w' = set_dom (dom w') w
  ∧ sameBut faqClasses [] (dom w) (dom w')
  ∧ (∀ n, hasClass (dom w') n "open" = true → hasClass (dom w) n "open" = true)
  ∧ (∀ n, n ∈ items → n ≠ faqItem → hasClass (dom w') n "open" = false)
  ∧ hasClass (dom w') faqItem "open" = hasClass (dom w) faqItem "open"
  ∧ (∀ n, hasClass (dom w) n "hidden" = true → hasClass (dom w') n "hidden" = true)
  ∧ (∀ n c, n ∈ items → n ≠ faqItem → querySelectorIn (dom w) n faqContent = Some c →
       hasClass (dom w') c "hidden" = true).
Proof.
  revert w. induction items as [|item items IH]; intros w H.
  - injection H as <-. rewrite set_dom_id. split_and!; try done.
    + apply sameBut_refl.
    + intros n Hn. by apply elem_of_nil in Hn.
    + intros n c Hn. by apply elem_of_nil in Hn.
  - rewrite forEach_cons, closeOther_run in H. case_bool_decide as Hitem.
    + subst item. destruct (IH _ H) as (E & S & O & C & F & Hh & Q).
      split_and!; try done.
      * intros n [->|Hn]%elem_of_cons Hne; [done | by apply C].
      * intros n c [->|Hn]%elem_of_cons Hne; [done | by apply Q].
    + simpl in H.
      set (d1 := removeClass item "open" (dom w)) in *.
      assert (S1 : sameBut faqClasses [] (dom w) d1).
      { apply sameBut_removeClass. unfold faqClasses. set_solver. }
      destruct (querySelectorIn d1 item faqContent) as [c|] eqn:Ec; [| done].
      set (d2 := addClass c "hidden" d1) in *.
      assert (S2 : sameBut faqClasses [] d1 d2).
      { apply sameBut_addClass. unfold faqClasses. set_solver. }
      destruct (IH _ H) as (E & S & O & C & F & Hh & Q). simpl in *.
      split_and!.
      * rewrite E. by destruct w.
      * eapply sameBut_trans; [| exact S]. by eapply sameBut_trans.
      * intros n Hn. apply O in Hn. unfold d2 in Hn.
        rewrite hasClass_addClass_ne in Hn by (by right).
        by apply hasClass_removeClass_anti in Hn.
      * intros n [->|Hn]%elem_of_cons Hne; [| by apply C].
        destruct (hasClass (dom w') item "open") eqn:Ho; [| done].
        apply O in Ho. unfold d2 in Ho. rewrite hasClass_addClass_ne in Ho by (by right).
        unfold d1 in Ho. by rewrite hasClass_removeClass_eq in Ho.
      * rewrite F. unfold d2. rewrite hasClass_addClass_ne by (by right).
        unfold d1. rewrite hasClass_removeClass_ne by (left; congruence). done.
      * intros n Hn. apply Hh. unfold d2. apply hasClass_addClass_mono.
        unfold d1. rewrite hasClass_removeClass_ne by (by right). done.
      * intros n c' [->|Hn]%elem_of_cons Hne Hq.
        -- rewrite <- (sameBut_querySelectorIn faqClasses [] _ _ _ _ S1 faqContent_avoids) in Hq.
           rewrite Ec in Hq. injection Hq as <-. apply Hh.
           unfold d2. apply hasClass_addClass_eq.
           (* the content found is a node of the document *)
           unfold querySelectorIn in Ec. apply head_Some_elem_of in Ec.
           unfold querySelectorAllIn in Ec. apply list_elem_of_filter in Ec as [_ Ec].
           apply elem_of_seq in Ec. lia.
        -- apply (Q n c' Hn Hne).
           rewrite (sameBut_querySelectorIn faqClasses [] (dom w) d2); [done | | apply faqContent_avoids].
           by eapply sameBut_trans.
Qed.

Lemma closeOthers_total (faqItem : NodeId) (items : list NodeId) (w : World) :
  (∀ n, n ∈ items → n ≠ faqItem → is_Some (querySelectorIn (dom w) n faqContent)) →
  ∃ w', forEach (closeOther faqItem) items w = (inr tt, w').
Proof.
  revert w. induction items as [|item items IH]; intros w H; [by eexists |].
  rewrite forEach_cons, closeOther_run. case_bool_decide as Hitem.
  - apply IH. intros n Hn. apply H. by right.
  - simpl. set (d1 := removeClass item "open" (dom w)).
    assert (S1 : sameBut faqClasses [] (dom w) d1).
    { apply sameBut_removeClass. unfold faqClasses. set_solver. }
    rewrite (sameBut_querySelectorIn faqClasses [] _ _ _ _ S1 faqContent_avoids).
    destruct (H item) as [c Hc]; [by left | done |]. rewrite Hc.
    apply IH. intros n Hn Hne. simpl.
    rewrite (sameBut_querySelectorIn faqClasses [] (dom w)); [apply H; [by right | done] | | apply faqContent_avoids].
    eapply sameBut_trans; [exact S1 |]. apply sameBut_addClass. unfold faqClasses. set_solver.
Qed.



Lemma matchesCompound_lt (d : Document) (n : NodeId) (c : Compound) :
  matchesCompound d n c = true → n < length d.
Proof.
  unfold matchesCompound. destruct (d !! n) eqn:E; [| done]. intros _. by eapply lookup_lt_Some.
Qed.

Lemma matches_lt (d : Document) (sel : Selector) (n : NodeId) :
  matches d sel n = true → n < length d.
Proof.
  unfold matches. intros H. apply existsb_exists in H as (s & _ & H).
  destruct s as [c|anc c]; simpl in H.
  - by eapply matchesCompound_lt.
  - apply andb_true_iff in H as [H _]. by eapply matchesCompound_lt.
Qed.

Lemma closest_matches (d : Document) (n a : NodeId) (sel : Selector) :
  closest d n sel = Some a → matches d sel a = true.
Proof.
  unfold closest. intros H. apply head_Some_elem_of in H.
  apply list_elem_of_filter in H as [H _]. by apply Is_true_true in H.
Qed.

Lemma querySelectorIn_lt (d : Document) (root c : NodeId) (sel : Selector) :
  querySelectorIn d root sel = Some c → c < length d.
Proof.
  unfold querySelectorIn. intros H. apply head_Some_elem_of in H.
  unfold querySelectorAllIn in H. apply list_elem_of_filter in H as [_ H].
  apply elem_of_seq in H. lia.
Qed.

Lemma openFaqItems_spec (d : Document) (n : NodeId) :
  n ∈ openFaqItems d ↔
  isConnected d n = true ∧ hasClass d n "faq-item" = true ∧ hasClass d n "open" = true.
Proof.
  unfold openFaqItems. rewrite elem_of_querySelectorAll, matches_two_classes, andb_true_iff.
  done.
Qed.

(** C10: a call of [toggleFaq] on a button of an FAQ item, in a document
    where the items have their content element, returns and leaves at most
    one item open, namely the activated one when it was closed: the item is
    open afterwards exactly when it was not before, its content is hidden
    exactly when it was open before, and every other item that was open is
    closed, with its content hidden. *)
Theorem toggleFaq_keeps_one_open (w : World) (button faqItem content : NodeId) :
  closest (dom w) button [Sel [SClass "faq-item"]] = Some faqItem →
  querySelectorIn (dom w) faqItem faqContent = Some content →
  (∀ item, item ∈ openFaqItems (dom w) → is_Some (querySelectorIn (dom w) item faqContent)) →
  ∃ w', toggleFaq button w = (inr tt, w')
    ∧ length (openFaqItems (dom w')) ≤ 1
    ∧ (∀ item, item ∈ openFaqItems (dom w') → item = faqItem)
    ∧ hasClass (dom w') faqItem "open" = negb (hasClass (dom w) faqItem "open")
    ∧ hasClass (dom w') content "hidden" = hasClass (dom w) faqItem "open"
    ∧ (∀ item c, item ∈ openFaqItems (dom w) → item ≠ faqItem →
         hasClass (dom w') item "open" = false
         ∧ (querySelectorIn (dom w) item faqContent = Some c → c ≠ content →
            hasClass (dom w') c "hidden" = true)).
Proof.
  intros Hclosest Hcontent Hwf.
  assert (Hitem : faqItem < length (dom w)).
  { eapply matches_lt, closest_matches, Hclosest. }
  assert (Hc : content < length (dom w)) by (by eapply querySelectorIn_lt).
  destruct (closeOthers_total faqItem (openFaqItems (dom w)) w) as [w1 Hloop].
  { intros n Hn _. by apply Hwf. }
  destruct (closeOthers_run _ _ _ _ Hloop) as (E & S & O & C & F & Hh & Q).
  assert (Hothers : ∀ a, a ≠ faqItem → isConnected (dom w1) a = true →
            hasClass (dom w1) a "faq-item" = true → hasClass (dom w1) a "open" = true → False).
  { intros a Hne Hconn Hfaq Hopen.
    assert (a ∈ openFaqItems (dom w)) as Hin.
    { apply openFaqItems_spec. split_and!.
      - by rewrite <- (sameBut_isConnected faqClasses [] _ _ _ S).
      - rewrite <- (sameBut_hasClass faqClasses [] _ _ _ _ S); [done |].
        unfold faqClasses. set_solver.
      - by apply O. }
    by rewrite (C a Hin Hne) in Hopen. }
  pose (d' := if hasClass (dom w) faqItem "open"
              then addClass content "hidden" (removeClass faqItem "open" (dom w1))
              else removeClass content "hidden" (addClass faqItem "open" (dom w1))).
  assert (Hrun : toggleFaq button w = (inr tt, set_dom d' w1)).
  { unfold toggleFaq, mbind, M_bind, gets, queryIn, classListContains, queryAll. simpl.
    rewrite Hclosest. simpl. fold faqContent. rewrite Hcontent.
    fold (openFaqItems (dom w)). rewrite Hloop. unfold d'.
    by destruct (hasClass (dom w) faqItem "open"). }
  assert (L1 : length (dom w1) = length (dom w)) by apply S.
  assert (Hopen' : ∀ a, hasClass d' a "open" = true → a ≠ faqItem → hasClass (dom w1) a "open" = true).
  { intros a Ha Hne. unfold d' in Ha. destruct (hasClass (dom w) faqItem "open").
    - rewrite hasClass_addClass_ne in Ha by (by right). by apply hasClass_removeClass_anti in Ha.
    - rewrite hasClass_removeClass_ne in Ha by (by right).
      rewrite hasClass_addClass_ne in Ha by (by left). done. }
  assert (S' : sameBut faqClasses [] (dom w1) d').
  { unfold d'. destruct (hasClass (dom w) faqItem "open").
    - eapply sameBut_trans; [apply (sameBut_removeClass faqClasses [] faqItem "open") |
                             apply (sameBut_addClass faqClasses [] content "hidden")];
        unfold faqClasses; set_solver.
    - eapply sameBut_trans; [apply (sameBut_addClass faqClasses [] faqItem "open") |
                             apply (sameBut_removeClass faqClasses [] content "hidden")];
        unfold faqClasses; set_solver. }
  assert (Honly : ∀ item, item ∈ openFaqItems d' → item = faqItem).
  { intros a (Hconn & Hfaq & Hop)%openFaqItems_spec.
    destruct (decide (a = faqItem)) as [|Hne]; [done |]. exfalso.
    apply (Hothers a Hne).
    - by rewrite <- (sameBut_isConnected faqClasses [] _ _ _ S').
    - rewrite <- (sameBut_hasClass faqClasses [] _ _ _ _ S'); [done |].
      unfold faqClasses. set_solver.
    - by apply Hopen'. }
  exists (set_dom d' w1). simpl. split_and!; try done.
  - eapply NoDup_at_most_one; [apply NoDup_querySelectorAll | exact Honly].
  - unfold d'. destruct (hasClass (dom w) faqItem "open") eqn:Ho; simpl.
    + rewrite hasClass_addClass_ne by (by right). apply hasClass_removeClass_eq.
    + rewrite hasClass_removeClass_ne by (by right). apply hasClass_addClass_eq. lia.
  - unfold d'. destruct (hasClass (dom w) faqItem "open") eqn:Ho.
    + apply hasClass_addClass_eq. unfold removeClass. rewrite length_alter. lia.
    + apply hasClass_removeClass_eq.
  - intros item c Hin Hne. split.
    + destruct (hasClass d' item "open") eqn:Ho; [| done].
      apply Hopen' in Ho; [| done]. by rewrite (C item Hin Hne) in Ho.
    + intros Hq Hcc. specialize (Q item c Hin Hne Hq).
      unfold d'. destruct (hasClass (dom w) faqItem "open").
      * apply hasClass_addClass_mono. by rewrite hasClass_removeClass_ne by (by right).
      * rewrite hasClass_removeClass_ne by (by left). by apply hasClass_addClass_mono.
Qed.

Lemma toggleFaq_keeps_one_open_witness :
  ∃ w', toggleFaq 22 (served Sample.page false true 1200 0) = (inr tt, w')
        ∧ length (openFaqItems (dom w')) ≤ 1.
Proof.
  destruct (toggleFaq_keeps_one_open (served Sample.page false true 1200 0) 22 21 23)
    as (w' & H1 & H2 & _).
  - reflexivity.
  - reflexivity.
  - intros item Hin. vm_compute in Hin.
    apply list_elem_of_singleton in Hin as ->. by eexists.
  - by exists w'.
Defined.



(** ** The mobile menu *)

Ltac same_but :=
  repeat first
    [ apply sameBut_refl
    | (eapply sameBut_trans; [| first
         [ apply sameBut_addClass | apply sameBut_removeClass | apply sameBut_putAttribute ];
         unfold menuClasses, menuAttributes; set_solver ]) ].

Lemma closedMenu_same (mm mt icon : NodeId) (d : Document) :
  sameBut menuClasses menuAttributes d (closedMenu mm mt icon d).
Proof. unfold closedMenu. same_but. Qed.

Lemma openedMenu_same (mm mt icon : NodeId) (d : Document) :
  sameBut menuClasses menuAttributes d (openedMenu mm mt icon d).
Proof. unfold openedMenu. same_but. Qed.

Lemma menu_icon_stable (d d' : Document) :
  sameBut menuClasses menuAttributes d d' →
  getElementById d' "menu-icon" = getElementById d "menu-icon".
Proof.
  intros S. apply (sameBut_getElementById menuClasses menuAttributes); [done |].
  unfold menuAttributes. set_solver.
Qed.

Lemma closeMobileMenu_run (w : World) (mm mt icon : NodeId) :
  menuReady w mm mt icon →
  closeMobileMenu w
  = (inr tt, set_timers (timers w ++ [mkTimer (now w + 300) CbHideMenu])
               (set_dom (closedMenu mm mt icon (dom w)) w)).
Proof.
  intros (Hmm & Hmt & Hicon & _).
  unfold closeMobileMenu, global, updateMenuIcon, byId, mbind, M_bind, gets. simpl.
  rewrite Hmm. simpl. rewrite Hmt. simpl.
  rewrite (menu_icon_stable (dom w)), Hicon by same_but. done.
Qed.

Lemma openMobileMenu_run (w : World) (mm mt icon : NodeId) :
  menuReady w mm mt icon →
  openMobileMenu w = (inr tt, set_dom (openedMenu mm mt icon (dom w)) w).
Proof.
  intros (Hmm & Hmt & Hicon & _).
  unfold openMobileMenu, global, updateMenuIcon, byId, mbind, M_bind, gets. simpl.
  rewrite Hmm. simpl. rewrite Hmt. simpl.
  rewrite (menu_icon_stable (dom w)), Hicon by same_but. done.
Qed.

Lemma hideMenuIfClosed_run (w : World) (mm : NodeId) :
  mobileMenu (globals w) = Some mm →
  hideMenuIfClosed w
  = (inr tt, if hasClass (dom w) mm "open" then w else set_dom (addClass mm "hidden" (dom w)) w).
Proof.
  intros Hmm. unfold hideMenuIfClosed, global, classListContains, mbind, M_bind, gets. simpl.
  rewrite Hmm. simpl. by destruct (hasClass (dom w) mm "open").
Qed.



Lemma hasClass_putAttribute (d : Document) (n m : NodeId) (k v c : string) :
  hasClass (putAttribute n k v d) m c = hasClass d m c.
Proof.
  unfold hasClass, putAttribute. destruct (decide (m = n)) as [->|Hne].
  - rewrite list_lookup_alter_eq. by destruct (d !! n).
  - by rewrite list_lookup_alter_ne.
Qed.

Lemma delete_last {A} (l : list A) (x : A) : delete (length l) (l ++ [x]) = l.
Proof. induction l as [|y l IH]; simpl; [done |]. by rewrite IH. Qed.

Lemma lookup_last {A} (l : list A) (x : A) : (l ++ [x]) !! length l = Some x.
Proof. by rewrite list_lookup_middle. Qed.

Lemma openedMenu_open (mm mt icon : NodeId) (d : Document) :
  mm < length d →
  hasClass (openedMenu mm mt icon d) mm "open" = true
  ∧ hasClass (openedMenu mm mt icon d) mm "hidden" = false.
Proof.
  intros H. unfold openedMenu. rewrite !hasClass_putAttribute. split.
  - apply hasClass_addClass_mono, hasClass_addClass_eq.
    unfold removeClass. by rewrite length_alter.
  - rewrite !hasClass_addClass_ne by (by right). apply hasClass_removeClass_eq.
Qed.

Lemma closedMenu_closed (mm mt icon : NodeId) (d : Document) :
  hasClass (closedMenu mm mt icon d) mm "open" = false.
Proof.
  unfold closedMenu. rewrite !hasClass_putAttribute.
  rewrite hasClass_removeClass_ne by (by right). apply hasClass_removeClass_eq.
Qed.

(** C5, as stated, fails: the menu is closed, re-opened 100 ms later and
    closed again 100 ms after that; when the first timer is due the menu has
    been re-opened in the interim, and the panel is hidden all the same, 100
    ms after the last close and with the second timer still pending. *)
Lemma stale_close_timer_hides_after_reopen :
  timers closedOnce = [mkTimer 300 CbHideMenu]
  ∧ hasClass (dom reopened) 7 "open" = true
  ∧ now closedTwice = 300%Z
  ∧ timers closedTwice = [mkTimer 300 CbHideMenu; mkTimer 500 CbHideMenu]
  ∧ hasClass (dom closedTwice) 7 "hidden" = false
  ∧ hasClass (dom (exec (Fire 0) closedTwice)) 7 "hidden" = true
  ∧ timers (exec (Fire 0) closedTwice) = [mkTimer 500 CbHideMenu].
Proof. by vm_compute. Qed.

(** C5, amended: [closeMobileMenu] takes the menu out of the open state at
    once and sets one timer, 300 ms ahead; the timer cannot run before it is
    due, and when it runs it hides the panel unless the menu is open at that
    moment.  In particular, after a close followed by an open the timer
    leaves the panel visible and open. *)
Theorem close_timer_hides_unless_open (w : World) (mm mt icon : NodeId) :
  menuReady w mm mt icon →
  let closed := perform closeMobileMenu w in
  timers closed = timers w ++ [mkTimer (now w + 300) CbHideMenu]
  ∧ hasClass (dom closed) mm "open" = false
  ∧ uncaught closed = uncaught w
  ∧ (∀ later i due,
       timers later !! i = Some (mkTimer due CbHideMenu) →
       mobileMenu (globals later) = Some mm →
       (now later < due → exec (Fire i) later = later)%Z
       ∧ (due ≤ now later →
          dom (exec (Fire i) later)
          = if hasClass (dom later) mm "open" then dom later
            else addClass mm "hidden" (dom later))%Z)
  ∧ (let reopened := perform openMobileMenu closed in
     let fired := exec (Fire (length (timers w))) (exec (Advance 300) reopened) in
     hasClass (dom fired) mm "hidden" = false
     ∧ hasClass (dom fired) mm "open" = true
     ∧ timers fired = timers w
     ∧ uncaught fired = uncaught w).
Proof.
  intros Hready. pose proof Hready as (Hmm & Hmt & Hicon & Hlt).
  unfold perform. rewrite (closeMobileMenu_run w mm mt icon Hready). simpl.
  set (closed := set_timers _ _).
  assert (Hready' : menuReady closed mm mt icon).
  { unfold menuReady, closed. simpl. split_and!; try done.
    - rewrite (menu_icon_stable (dom w)); [done | apply closedMenu_same].
    - rewrite (proj1 (closedMenu_same mm mt icon (dom w))). done. }
  destruct (openedMenu_open mm mt icon (closedMenu mm mt icon (dom w))) as [Ho Hh].
  { by rewrite (proj1 (closedMenu_same mm mt icon (dom w))). }
  split; [done |]. split; [apply closedMenu_closed |]. split; [done |]. split.
  - intros later i due Hi Hlater. unfold exec. rewrite Hi. simpl. split.
    + intros H. rewrite bool_decide_eq_false_2 by lia. done.
    + intros H. rewrite bool_decide_eq_true_2 by lia.
      unfold perform. rewrite (hideMenuIfClosed_run _ mm) by done. simpl.
      by destruct (hasClass (dom later) mm "open").
  - rewrite (openMobileMenu_run closed mm mt icon Hready'). simpl.
    rewrite lookup_last. simpl. rewrite bool_decide_eq_true_2 by lia.
    unfold perform. rewrite (hideMenuIfClosed_run _ mm) by done. simpl.
    rewrite Ho. simpl. rewrite delete_last. done.
Qed.

Lemma close_timer_hides_unless_open_witness :
  hasClass (dom (perform closeMobileMenu loaded)) 7 "open" = false.
Proof.
  destruct (close_timer_hides_unless_open loaded 7 5 6) as (_ & H & _).
  - unfold menuReady. split_and!; [by vm_compute | by vm_compute | by vm_compute |].
    vm_compute. lia.
  - exact H.
Defined.

(** ** Smooth scroll *)

(** C3, as stated, fails: a click on the link to [#missing], which names no
    element of the page, leaves the event with its default action
    prevented. *)
Lemma smooth_scroll_prevents_default_for_missing_target :
  attr (dom loaded) 26 "href" = Some "#missing"
  ∧ getElementById (dom loaded) "missing" = None
  ∧ defaultPrevented (event loaded) = false
  ∧ defaultPrevented (event (handleSmoothScroll (Some 26) loaded).2) = true
  ∧ defaultPrevented (event (exec (Deliver 6 (mkEvent (Some 26) "" false false)) loaded)) = true.
Proof. by vm_compute. Qed.

(** C3, amended: when the fragment of an in-page link names no element, the
    click listener prevents the default action and does nothing else: it
    returns without an error, scrolls nowhere and leaves the document, the
    menu and the timers as they are. *)
Theorem smooth_scroll_unresolved_target (w : World) (link : NodeId) (href : string) :
  attr (dom w) link "href" = Some href →
  JsString.startsWith "#" href = true →
  getElementById (dom w) (JsString.substring1 href) = None →
  handleSmoothScroll (Some link) w
  = (inr tt, set_event (mkEvent (target (event w)) (key (event w)) true
                          (propagationStopped (event w))) w)
  ∧ defaultPrevented (event (handleSmoothScroll (Some link) w).2) = true
  ∧ dom (handleSmoothScroll (Some link) w).2 = dom w
  ∧ scrolls (handleSmoothScroll (Some link) w).2 = scrolls w
  ∧ timers (handleSmoothScroll (Some link) w).2 = timers w.
Proof.
  intros Hhref Hhash Hnone.
  assert (handleSmoothScroll (Some link) w
          = (inr tt, set_event (mkEvent (target (event w)) (key (event w)) true
                                  (propagationStopped (event w))) w)) as ->.
  { unfold handleSmoothScroll, getAttribute, byId, mbind, M_bind, gets. simpl.
    rewrite Hhref, Hhash. simpl. rewrite Hnone. done. }
  done.
Qed.

Lemma smooth_scroll_unresolved_target_witness :
  dom (handleSmoothScroll (Some 26) loaded).2 = dom loaded.
Proof.
  apply (smooth_scroll_unresolved_target loaded 26 "#missing"); by vm_compute.
Defined.

(** ** Scroll chrome at load *)

(** C9 holds for the navigation bar but not for the active link: after the
    script has run on a page that is already scrolled, the bar is marked and
    no link is; the first scroll tick marks the link of the section. *)
Theorem init_skips_active_link :
  uncaught loadedScrolled = []
  ∧ hasClass (dom loadedScrolled) 2 "scrolled" = true
  ∧ currentSectionOf (dom loadedScrolled) (500 + 80 + 100)
      (querySelectorAll (dom loadedScrolled) [Sel [STag "section"; SHasAttr "id"]]) = Str "about"
  ∧ hasClass (dom loadedScrolled) 4 "text-secondary" = false
  ∧ hasClass (dom (updateActiveNavLink loadedScrolled).2) 4 "text-secondary" = true
  ∧ hasClass (dom (exec (Deliver 0 (mkEvent None "" false false)) loadedScrolled)) 4
      "text-secondary" = true.
Proof. by vm_compute. Qed.

(** ** Initialisation on a page without an optional element *)

(** C1, as stated, fails: on a page without the mobile menu panel the
    script throws while it binds its constants; the error is uncaught and
    nothing is initialised. *)
Lemma script_throws_without_mobile_menu :
  getElementById Sample.withoutMenu "mobile-menu" = None
  ∧ uncaught (start (served Sample.withoutMenu false true 1200 0)) = [TypeError "mobileMenu"]
  ∧ listeners (start (served Sample.withoutMenu false true 1200 0)) = []
  ∧ toggleFaqDefined (start (served Sample.withoutMenu false true 1200 0)) = false.
Proof. by vm_compute. Qed.

(** C1, amended: each component that the script guards returns early,
    without an error and without changing anything, when its element is not
    on the page: the form enhancement without a form, the contact form
    without [#contact-form], the parallax without a hero image, either grid
    without its container, the modal without the overlay or without cards. *)
Theorem guarded_components_return_early (w : World) :
  (querySelector (dom w) [Sel [STag "form"]] = None → initFormValidation w = (inr tt, w))
  ∧ (getElementById (dom w) "contact-form" = None → initContactForm w = (inr tt, w))
  ∧ (querySelector (dom w) [Desc [SId "hero"] [STag "img"]] = None →
     initParallax w = (inr tt, w))
  ∧ (getElementById (dom w) "destinations-grid" = None →
     ∀ andThen, loadDestinations andThen w = andThen w)
  ∧ (getElementById (dom w) "brochures-grid" = None → loadBrochures w = (inr tt, w))
  ∧ (getElementById (dom w) "destination-modal" = None
     ∨ querySelectorAll (dom w) [Sel [SClass "destination-card"]] = [] →
     initDestinationModal w = (inr tt, w)).
Proof.
  split_and!.
  - intros H. unfold initFormValidation, query, mbind, M_bind, gets. simpl. by rewrite H.
  - intros H. unfold initContactForm, byId, mbind, M_bind, gets. simpl. by rewrite H.
  - intros H. unfold initParallax, query, mbind, M_bind, gets. simpl. by rewrite H.
  - intros H k. unfold loadDestinations, byId, mbind, M_bind, gets. simpl. by rewrite H.
  - intros H. unfold loadBrochures, byId, mbind, M_bind, gets. simpl. by rewrite H.
  - intros H. unfold initDestinationModal, byId, queryIn, queryAll, mbind, M_bind, gets. simpl.
    destruct (getElementById (dom w) "destination-modal") as [m|] eqn:E; simpl; [| done].
    destruct H as [H|H]; [done |]. by rewrite H.
Qed.

Lemma guarded_components_return_early_witness :
  let w := served [element "html" [] [] None] false true 1200 0 in
  initFormValidation w = (inr tt, w) ∧ initContactForm w = (inr tt, w)
  ∧ initParallax w = (inr tt, w) ∧ loadBrochures w = (inr tt, w)
  ∧ initDestinationModal w = (inr tt, w).
Proof.
  intros w.
  destruct (guarded_components_return_early w) as (H1 & H2 & H3 & _ & H5 & H6).
  split_and!.
  - apply H1. reflexivity.
  - apply H2. reflexivity.
  - apply H3. reflexivity.
  - apply H5. reflexivity.
  - apply H6. left. reflexivity.
Defined.



(** ** How the document evolves during a session *)

Lemma keeps_refl (e : Element) : keeps e e.
Proof. constructor; auto. Qed.

Lemma keeps_trans (e1 e2 e3 : Element) : keeps e1 e2 → keeps e2 e3 → keeps e1 e3.
Proof.
  intros [T1 I1 P1 S1 Hb1 Hf1 Hd1] [T2 I2 P2 S2 Hb2 Hf2 Hd2]. constructor.
  - congruence.
  - congruence.
  - destruct P2 as [-> | ->]; auto.
  - intros c Hc. rewrite (S2 c Hc). by apply S1.
  - intros Hid Hh. apply Hb2; [congruence | by apply Hb1].
  - intros Hid Hh. apply Hf1; [done |]. apply Hf2; [congruence | done].
  - intros Hf Hd. apply Hd2; [| by apply Hd1]. unfold isField in *. by rewrite T1.
Qed.

Lemma cardLike_keeps (n : nat) (e e' : Element) : cardLike n e → keeps e e' → cardLike n e'.
Proof.
  intros (Hid & Hf & Hbt & Hs & Hp) [T I P S _ _ _]. split_and!.
  - congruence.
  - unfold isField in *. by rewrite T.
  - by rewrite T.
  - intros c Hc. rewrite (S c Hc). by apply Hs.
  - intros p Hp'. destruct P as [P|P]; [| congruence]. apply Hp. congruence.
Qed.

Lemma grows_refl (d : Document) : grows d d.
Proof.
  split_and!; [done | |].
  - intros n e He. exists e. split; [done | apply keeps_refl].
  - intros n e He Hn. apply lookup_lt_Some in He. lia.
Qed.

Lemma grows_trans (d1 d2 d3 : Document) : grows d1 d2 → grows d2 d3 → grows d1 d3.
Proof.
  intros (L1 & K1 & N1) (L2 & K2 & N2). split_and!; [lia | |].
  - intros n e He. destruct (K1 n e He) as (e2 & He2 & Hk1).
    destruct (K2 n e2 He2) as (e3 & He3 & Hk2). exists e3. split; [done |].
    by eapply keeps_trans.
  - intros n e3 He3 Hn. destruct (decide (n < length d2)) as [Hlt|Hge].
    + destruct (lookup_lt_is_Some_2 d2 n Hlt) as [e2 He2].
      destruct (K2 n e2 He2) as (e3' & He3' & Hk). simplify_eq.
      eapply cardLike_keeps; [| exact Hk]. by apply (N1 n).
    + apply (N2 n); [done | lia].
Qed.

Lemma Page_grows (d d' : Document) : Page d → grows d d' → Page d'.
Proof.
  intros (Hwf & Hb & Hs) (L & K & N). split_and!.
  - intros n e' p He' Hp. destruct (decide (n < length d)) as [Hlt|Hge].
    + destruct (lookup_lt_is_Some_2 d n Hlt) as [e He].
      destruct (K n e He) as (e'' & He'' & [_ _ P _ _ _ _]). simplify_eq.
      destruct P as [P|P]; [| congruence]. apply (Hwf n e p He). congruence.
    + destruct (N n e' He') as (_ & _ & _ & _ & Hp'); [lia |]. by apply Hp'.
  - intros n e' He' Hid. destruct (decide (n < length d)) as [Hlt|Hge].
    + destruct (lookup_lt_is_Some_2 d n Hlt) as [e He].
      destruct (K n e He) as (e'' & He'' & [T I _ S _ _ _]). simplify_eq.
      destruct (Hb n e He) as [Hf Hc]; [congruence |]. split.
      * unfold isField in *. by rewrite T.
      * intros c Hin. rewrite (S c Hin). by apply Hc.
    + destruct (N n e' He') as (Hnone & _); [lia |]. congruence.
  - intros n e' He' Hid. destruct (decide (n < length d)) as [Hlt|Hge].
    + destruct (lookup_lt_is_Some_2 d n Hlt) as [e He].
      destruct (K n e He) as (e'' & He'' & [T I _ S _ _ _]). simplify_eq.
      intros c Hin. rewrite (S c Hin). apply (Hs n e He); [congruence | done].
    + destruct (N n e' He') as (Hnone & _); [lia |]. congruence.
Qed.

(** *** Writes that keep what must be kept *)

Lemma grows_alter (d : Document) (n : NodeId) (f : Element → Element) :
  (∀ e, d !! n = Some e → keeps e (f e)) → grows d (alter f n d).
Proof.
  intros H. split_and!.
  - by rewrite length_alter.
  - intros m e He. destruct (decide (n = m)) as [->|Hne].
    + exists (f e). rewrite list_lookup_alter_eq, He. split; [done | by apply H].
    + exists e. rewrite list_lookup_alter_ne by done. split; [done | apply keeps_refl].
  - intros m e' He' Hm. apply lookup_lt_Some in He'. rewrite length_alter in He'. lia.
Qed.

Lemma attr_id (d : Document) (n : NodeId) (e : Element) :
  d !! n = Some e → attr d n "id" = idOf e.
Proof. intros H. unfold attr. by rewrite H. Qed.

Lemma grows_addClass (d : Document) (n : NodeId) (c : string) :
  c ∉ structural →
  (c = "hidden" → attr d n "id" ≠ Some "form-success") →
  grows d (addClass n c d).
Proof.
  intros Hc Hh. apply grows_alter. intros e He. rewrite (attr_id d n e He) in Hh.
  constructor; simpl; auto.
  - intros c' Hc'. rewrite elem_of_tokenAdd. naive_solver.
  - intros _ H. apply elem_of_tokenAdd. by right.
  - intros Hid [E | H]%elem_of_tokenAdd; [| done]. by destruct (Hh (eq_sym E)).
Qed.

Lemma grows_removeClass (d : Document) (n : NodeId) (c : string) :
  c ∉ structural →
  (c = "hidden" → attr d n "id" ≠ Some "submit-btn") →
  grows d (removeClass n c d).
Proof.
  intros Hc Hh. apply grows_alter. intros e He. rewrite (attr_id d n e He) in Hh.
  constructor; simpl; auto.
  - intros c' Hc'. rewrite elem_of_tokenRemove. naive_solver.
  - intros Hid H. apply elem_of_tokenRemove. split; [| done]. intros E. by destruct (Hh (eq_sym E)).
  - intros _ [_ H]%elem_of_tokenRemove. done.
Qed.

Lemma grows_putAttribute (d : Document) (n : NodeId) (k v : string) :
  k ≠ "id" → grows d (putAttribute n k v d).
Proof.
  intros Hk. apply grows_alter. intros e He. constructor; simpl; auto.
  unfold idOf. simpl. by apply lookup_insert_ne.
Qed.

Lemma grows_putDisabled (d : Document) (n : NodeId) (b : bool) :
  (b = false → ∀ e, d !! n = Some e → ¬ isField e) → grows d (putDisabled n b d).
Proof.
  intros Hb. apply grows_alter. intros e He. constructor; simpl; auto.
  intros Hf _. destruct b; [done |]. by destruct (Hb eq_refl e He).
Qed.

Lemma grows_alter_other (d : Document) (n : NodeId) (f : Element → Element) :
  (∀ e, tagName (f e) = tagName e ∧ attributes (f e) = attributes e
        ∧ classList (f e) = classList e ∧ parentNode (f e) = parentNode e
        ∧ disabled (f e) = disabled e) →
  grows d (alter f n d).
Proof.
  intros H. apply grows_alter. intros e _. destruct (H e) as (T & A & C & P & D).
  constructor; unfold idOf; rewrite ?T, ?A, ?C, ?P, ?D; auto.
Qed.

Lemma grows_detachChildren (d : Document) (n : NodeId) : grows d (detachChildren n d).
Proof.
  unfold detachChildren. split_and!.
  - by rewrite length_fmap.
  - intros m e He. rewrite list_lookup_fmap, He. simpl. eexists. split; [done |].
    case_bool_decide; [| apply keeps_refl]. constructor; simpl; auto.
  - intros m e' He' Hm. apply lookup_lt_Some in He'. rewrite length_fmap in He'. lia.
Qed.

Lemma grows_writeTextContent (d : Document) (n : NodeId) (s : string) :
  grows d (writeTextContent n s d).
Proof.
  unfold writeTextContent. eapply grows_trans; [apply grows_detachChildren |].
  apply grows_alter_other. intros e. done.
Qed.

Lemma grows_app (d : Document) (cards : list Element) :
  (∀ i e, cards !! i = Some e → cardLike (length d + i) e) → grows d (d ++ cards).
Proof.
  intros H. split_and!.
  - rewrite length_app. lia.
  - intros n e He. exists e. split; [by apply lookup_app_l_Some | apply keeps_refl].
  - intros n e' He' Hn. rewrite lookup_app_r in He' by done.
    replace n with (length d + (n - length d)) at 1 by lia. by apply H.
Qed.

Lemma grows_writeInnerHTML (d : Document) (n : NodeId) (html : string) (cards : list Element) :
  n < length d →
  (∀ e, e ∈ cards → idOf e = None ∧ ¬ isField e ∧ tagName e ≠ "button"
                    ∧ (∀ c, c ∈ structural → c ∉ classList e) ∧ parentNode e = Some n) →
  grows d (writeInnerHTML n html cards d).
Proof.
  intros Hn Hcards. unfold writeInnerHTML.
  eapply grows_trans; [apply grows_detachChildren |].
  eapply grows_trans; [apply (grows_alter_other _ n (withInnerHTML html)); intros e; done |].
  apply grows_app. intros i e He.
  destruct (Hcards e) as (Hid & Hf & Hbt & Hs & Hp); [by eapply list_elem_of_lookup_2 |].
  split_and!; try done. intros p Hp'. rewrite length_alter.
  unfold detachChildren. rewrite length_fmap. simplify_eq. lia.
Qed.

(** *** Facts that every write preserves *)

#[global] Instance Stable_pure (φ : Prop) : Stable (λ _, φ).
Proof. by intros d d' H _. Qed.

#[global] Instance Stable_and (P Q : Document → Prop) :
  Stable P → Stable Q → Stable (λ d, P d ∧ Q d).
Proof. intros HP HQ d d' [H1 H2] G. split; [by eapply HP | by eapply HQ]. Qed.

#[global] Instance Stable_forall {A} (P : A → Document → Prop) :
  (∀ x, Stable (P x)) → Stable (λ d, ∀ x, P x d).
Proof. intros H d d' HP G x. by eapply H. Qed.

#[global] Instance Stable_impl (φ : Prop) (P : Document → Prop) :
  Stable P → Stable (λ d, φ → P d).
Proof. intros H d d' HP G Hφ. eapply H; [by apply HP | done]. Qed.

#[global] Instance Stable_hasId (n : NodeId) (id : string) : Stable (hasId n id).
Proof.
  intros d d' H (_ & K & _). unfold hasId, attr in *.
  destruct (d !! n) as [e|] eqn:E; [| done].
  destruct (K n e E) as (e' & -> & [_ I _ _ _ _ _]). simpl in *. unfold idOf in I. congruence.
Qed.

#[global] Instance Stable_marked (n : NodeId) (c : string) : Stable (marked n c).
Proof.
  intros d d' [Hc H] (_ & K & _). split; [done |]. unfold hasClass in *.
  destruct (d !! n) as [e|] eqn:E; [| done].
  destruct (K n e E) as (e' & -> & [_ _ _ S _ _ _]).
  unfold tokenContains in *. rewrite bool_decide_eq_true in *. by apply S.
Qed.

#[global] Instance Stable_hasTag (n : NodeId) (t : string) : Stable (hasTag n t).
Proof.
  intros d d' (e & E & T) (_ & K & _).
  destruct (K n e E) as (e' & E' & [T' _ _ _ _ _ _]). exists e'. split; [done | congruence].
Qed.

#[global] Instance Stable_inStore (n : NodeId) : Stable (inStore n).
Proof. intros d d' H (L & _). unfold inStore in *. lia. Qed.

Lemma hasId_inStore (n : NodeId) (id : string) (d : Document) : hasId n id d → inStore n d.
Proof.
  unfold hasId, attr, inStore. destruct (d !! n) eqn:E; [| done]. intros _.
  by eapply lookup_lt_Some.
Qed.

Lemma marked_not_protected (d : Document) (n : NodeId) (c : string) :
  Page d → marked n c d →
  attr d n "id" ≠ Some "submit-btn" ∧ attr d n "id" ≠ Some "form-success".
Proof.
  intros (_ & Hb & Hs) [Hc H]. unfold hasClass in H.
  destruct (d !! n) as [e|] eqn:E; [| done]. rewrite (attr_id d n e E).
  unfold tokenContains in H. apply bool_decide_eq_true in H.
  split; intros Hid.
  - destruct (Hb n e E Hid) as [_ Hn]. by apply (Hn c).
  - by apply (Hs n e E Hid c).
Qed.

Lemma hasTag_not_field (d : Document) (n : NodeId) (t : string) :
  hasTag n t d → t ≠ "input" → t ≠ "textarea" → ∀ e, d !! n = Some e → ¬ isField e.
Proof. intros (e & E & T) H1 H2 e' E'. simplify_eq. unfold isField. naive_solver. Qed.

Lemma submitBtn_not_field (d : Document) (n : NodeId) :
  Page d → hasId n "submit-btn" d → ∀ e, d !! n = Some e → ¬ isField e.
Proof.
  intros (_ & Hb & _) H e E. unfold hasId in H. rewrite (attr_id d n e E) in H.
  by destruct (Hb n e E H).
Qed.



(** ** The invariant of a session *)

#[global] Instance Stable_contactOk sb bt bs fs : Stable (contactOk sb bt bs fs).
Proof. unfold contactOk. apply _. Qed.

#[global] Instance Stable_cbOk (cb : Callback) : Stable (cbOk cb).
Proof. induction cb; simpl; apply _. Qed.

#[global] Instance Stable_kOk (k : Continuation) : Stable (kOk k).
Proof. destruct k; simpl; apply _. Qed.

#[global] Instance Stable_top {A} (a : A) : Stable (top a).
Proof. unfold top. apply _. Qed.

Lemma Inv_grows (w : World) (d' : Document) :
  Inv w → grows (dom w) d' → Inv (set_dom d' w).
Proof.
  intros (HP & Hg & Hl & Ht & Hf & Hr) G. unfold Inv. simpl. split_and!.
  - by eapply Page_grows.
  - intros n Hn. eapply stable; [by apply Hg | done].
  - intros l Hin. eapply stable; [by apply Hl | done].
  - intros t Hin. eapply stable; [by apply Ht | done].
  - intros cb Hin. eapply stable; [by apply Hf | done].
  - intros r Hin. eapply stable; [by apply Hr | done].
Qed.

(** *** Rules *)

Lemma triple_ret {A} (P : Document → Prop) (a : A) (Q : A → Document → Prop) :
  (∀ d, P d → Q a d) → triple P (mret a) Q.
Proof.
  intros H w I HP. simpl. split_and!; [done | apply grows_refl |].
  intros a' [= <-]. by apply H.
Qed.

Lemma triple_throw {A} (P : Document → Prop) (e : Error) (Q : A → Document → Prop) :
  triple P (throw e) Q.
Proof. intros w I HP. simpl. split_and!; [done | apply grows_refl | done]. Qed.

Lemma triple_bind {A B} (P : Document → Prop) (m : M A) (f : A → M B)
    (Q : A → Document → Prop) (R : B → Document → Prop) :
  Stable P → triple P m Q → (∀ a, triple (λ d, P d ∧ Q a d) (f a) R) → triple P (m ≫= f) R.
Proof.
  intros HS Hm Hf w I HP. rewrite run_bind.
  destruct (Hm w I HP) as (I1 & G1 & Q1). destruct (m w) as [[e|a] w1]; simpl in *.
  - split_and!; done.
  - destruct (Hf a w1 I1) as (I2 & G2 & Q2).
    { split; [by eapply HS | by apply Q1]. }
    split_and!; [done | by eapply grows_trans | done].
Qed.

Lemma triple_conseq {A} (P P' : Document → Prop) (m : M A) (Q Q' : A → Document → Prop) :
  (∀ d, P' d → P d) → (∀ a d, Q a d → Q' a d) → triple P m Q → triple P' m Q'.
Proof.
  intros HP HQ H w I HP'. destruct (H w I (HP _ HP')) as (I1 & G1 & Q1).
  split_and!; [done | done |]. intros a Ha. by apply HQ, Q1.
Qed.

Lemma triple_top {A} (P : Document → Prop) (m : M A) (Q : A → Document → Prop) :
  triple P m Q → triple P m top.
Proof. apply triple_conseq; done. Qed.

Lemma triple_pre {A} (P P' : Document → Prop) (m : M A) (Q : A → Document → Prop) :
  (∀ d, P' d → P d) → triple P m Q → triple P' m Q.
Proof. intros H. apply triple_conseq; done. Qed.

Lemma triple_gets {A} (P : Document → Prop) (f : World → A) (Q : A → Document → Prop) :
  (∀ w, Inv w → P (dom w) → Q (f w) (dom w)) → triple P (gets f) Q.
Proof.
  intros H w I HP. simpl. split_and!; [done | apply grows_refl |].
  intros a [= <-]. by apply H.
Qed.

Lemma triple_gets_top {A} (P : Document → Prop) (f : World → A) : triple P (gets f) top.
Proof. by apply triple_gets. Qed.

Lemma triple_modifyDom (P : Document → Prop) (g : Document → Document) :
  (∀ d, Page d → P d → grows d (g d)) → triple P (modifyDom g) top.
Proof.
  intros H w I HP. simpl.
  assert (G : grows (dom w) (g (dom w))) by (apply H; [apply I | done]).
  split_and!; [by apply Inv_grows | done | done].
Qed.

(** A change of the page that touches neither the document nor the
    registered closures. *)
Lemma triple_modify_other (P : Document → Prop) (f : World → World) :
  (∀ w, dom (f w) = dom w ∧ globals (f w) = globals w ∧ listeners (f w) = listeners w
        ∧ timers (f w) = timers w ∧ frames (f w) = frames w ∧ requests (f w) = requests w) →
  triple P (modify f) top.
Proof.
  intros H w I HP. simpl. destruct (H w) as (E1 & E2 & E3 & E4 & E5 & E6).
  unfold Inv. rewrite E1, E2, E3, E4, E5, E6. split_and!; [apply I.. | apply grows_refl | done].
Qed.

Lemma triple_if {A} (P : Document → Prop) (b : bool) (m1 m2 : M A) (Q : A → Document → Prop) :
  triple P m1 Q → triple P m2 Q → triple P (if b then m1 else m2) Q.
Proof. by destruct b. Qed.

Lemma triple_when (P : Document → Prop) (b : bool) (m : M unit) :
  triple P m top → triple P (when b m) top.
Proof. intros H. destruct b; [done |]. by apply triple_ret. Qed.

Lemma triple_forEach {A} (P : Document → Prop) (f : A → M unit) (l : list A) :
  Stable P → (∀ x, x ∈ l → triple P (f x) top) → triple P (forEach f l) top.
Proof.
  intros HS H. induction l as [|x l IH]; simpl.
  - by apply triple_ret.
  - eapply triple_bind; [done | apply H; by left |]. intros u.
    eapply triple_pre; [| apply IH]; [by intros d [? _] |]. intros y Hy. apply H. by right.
Qed.

Lemma triple_tryCatch {A} (P : Document → Prop) (body : M A) (handle : Error → M A)
    (Q : A → Document → Prop) :
  Stable P → triple P body Q → (∀ e, triple P (handle e) Q) → triple P (tryCatch body handle) Q.
Proof.
  intros HS Hb Hh w I HP. unfold tryCatch.
  destruct (Hb w I HP) as (I1 & G1 & Q1). destruct (body w) as [[e|a] w1]; simpl in *.
  - destruct (Hh e w1 I1) as (I2 & G2 & Q2); [by eapply HS |].
    split_and!; [done | by eapply grows_trans | done].
  - split_and!; done.
Qed.

Lemma triple_async (P : Document → Prop) (m : M unit) : triple P m top → triple P (async m) top.
Proof.
  intros H w I HP. unfold async. destruct (H w I HP) as (I1 & G1 & Q1).
  destruct (m w) as [[e|a] w1]; simpl in *; [| done].
  split_and!; [| done | done]. apply I1.
Qed.

Lemma triple_deref (P : Document → Prop) (o : option NodeId) (what : string) :
  triple P (deref o what) (λ n _, o = Some n).
Proof. destruct o; [by apply triple_ret | apply triple_throw]. Qed.

(** *** Browser interfaces *)

Lemma triple_classListAdd (P : Document → Prop) (n : NodeId) (c : string) :
  c ∉ structural →
  (c = "hidden" → ∀ d, Page d → P d → attr d n "id" ≠ Some "form-success") →
  triple P (classListAdd n c) top.
Proof.
  intros Hc Hh. apply triple_modifyDom. intros d HPg HP.
  apply grows_addClass; [done |]. intros ->. by apply Hh.
Qed.

Lemma triple_classListRemove (P : Document → Prop) (n : NodeId) (c : string) :
  c ∉ structural →
  (c = "hidden" → ∀ d, Page d → P d → attr d n "id" ≠ Some "submit-btn") →
  triple P (classListRemove n c) top.
Proof.
  intros Hc Hh. apply triple_modifyDom. intros d HPg HP.
  apply grows_removeClass; [done |]. intros ->. by apply Hh.
Qed.

Lemma triple_classListContains (P : Document → Prop) (n : NodeId) (c : string) :
  triple P (classListContains n c) top.
Proof. apply triple_gets_top. Qed.

Lemma triple_setAttribute (P : Document → Prop) (n : NodeId) (k v : string) :
  k ≠ "id" → triple P (setAttribute n k v) top.
Proof. intros Hk. apply triple_modifyDom. intros d _ _. by apply grows_putAttribute. Qed.

Lemma triple_getAttribute (P : Document → Prop) (n : NodeId) (k : string) :
  triple P (getAttribute n k) top.
Proof. apply triple_gets_top. Qed.

Lemma triple_setDisabled_true (P : Document → Prop) (n : NodeId) :
  triple P (setDisabled n true) top.
Proof. apply triple_modifyDom. intros d _ _. by apply grows_putDisabled. Qed.

Lemma triple_setDisabled_false (P : Document → Prop) (n : NodeId) :
  (∀ d, Page d → P d → ∀ e, d !! n = Some e → ¬ isField e) →
  triple P (setDisabled n false) top.
Proof.
  intros H. apply triple_modifyDom. intros d HPg HP. apply grows_putDisabled.
  intros _. by apply H.
Qed.

Lemma triple_setTextContent (P : Document → Prop) (n : NodeId) (s : string) :
  triple P (setTextContent n s) top.
Proof. apply triple_modifyDom. intros d _ _. apply grows_writeTextContent. Qed.

Lemma querySelector_id (d : Document) (id : string) (n : NodeId) :
  getElementById d id = Some n → hasId n id d.
Proof.
  unfold getElementById. case_bool_decide as Hempty; [done |]. unfold querySelector. intros H.
  apply head_Some_elem_of in H. apply elem_of_querySelectorAll in H as [_ H].
  unfold matches in H. simpl in H. rewrite orb_false_r in H.
  unfold matchesCompound in H. unfold hasId, attr.
  destruct (d !! n) as [e|]; [| done]. simpl in *. rewrite andb_true_r in H.
  by apply bool_decide_eq_true in H.
Qed.

Lemma triple_byId (P : Document → Prop) (id : string) :
  triple P (byId id) (λ o d, ∀ n, o = Some n → hasId n id d).
Proof. apply triple_gets. intros w _ _ n H. by apply querySelector_id. Qed.

Lemma querySelectorIn_matches (d : Document) (root n : NodeId) (sel : Selector) :
  querySelectorIn d root sel = Some n → matches d sel n = true.
Proof.
  unfold querySelectorIn. intros H. apply head_Some_elem_of in H.
  unfold querySelectorAllIn in H. apply list_elem_of_filter in H as [H _].
  apply Is_true_true in H. apply andb_true_iff in H. tauto.
Qed.

Lemma triple_queryIn_class (P : Document → Prop) (root : NodeId) (c : string) :
  c ∈ structural →
  triple P (queryIn root [Sel [SClass c]]) (λ o d, ∀ n, o = Some n → marked n c d).
Proof.
  intros Hc. apply triple_gets. intros w _ _ n H. split; [done |].
  apply querySelectorIn_matches in H. by rewrite matches_one_class in H.
Qed.

Lemma triple_queryIn_top (P : Document → Prop) (root : NodeId) (sel : Selector) :
  triple P (queryIn root sel) top.
Proof. apply triple_gets_top. Qed.


Lemma id_not_other (d : Document) (n : NodeId) (x y : string) :
  hasId n x d → x ≠ y → attr d n "id" ≠ Some y.
Proof. unfold hasId. congruence. Qed.

Lemma mark_not_button (d : Document) (n : NodeId) (c : string) :
  Page d → marked n c d → attr d n "id" ≠ Some "submit-btn".
Proof. intros HP H. by destruct (marked_not_protected d n c HP H). Qed.

Lemma mark_not_success (d : Document) (n : NodeId) (c : string) :
  Page d → marked n c d → attr d n "id" ≠ Some "form-success".
Proof. intros HP H. by destruct (marked_not_protected d n c HP H). Qed.

Lemma triple_global (P : Document → Prop) (f : Globals → option NodeId) (what : string) :
  Stable P → triple P (global f what) top.
Proof.
  intros HS. unfold global. eapply triple_bind; [done | apply triple_gets_top |].
  intros o. eapply triple_top, triple_deref.
Qed.

Lemma triple_global_mobileMenu (P : Document → Prop) (what : string) :
  Stable P → triple P (global mobileMenu what) (λ n d, hasId n "mobile-menu" d).
Proof.
  intros HS. unfold global.
  eapply triple_bind;
    [done | apply (triple_gets _ _ (λ o d, ∀ n, o = Some n → hasId n "mobile-menu" d)) |].
  - intros w I _ n Hn. by apply I.
  - intros o. destruct o as [n|]; simpl; [| apply triple_throw].
    apply triple_ret. intros d [_ H]. by apply H.
Qed.

Lemma triple_addEventListener (P : Document → Prop) (t : EventTarget) (type : string) (cb : Callback) :
  (∀ d, P d → cbOk cb d) → triple P (addEventListener t type cb) top.
Proof.
  intros H w I HP. simpl. destruct I as (I1 & I2 & I3 & I4 & I5 & I6).
  split_and!; [split_and!; try done | apply grows_refl | done]. simpl.
  intros l [Hl | ->%list_elem_of_singleton]%elem_of_app; [by apply I3 | by apply H].
Qed.

Lemma triple_setTimeout (P : Document → Prop) (cb : Callback) (delay : Z) :
  (∀ d, P d → cbOk cb d) → triple P (setTimeout cb delay) top.
Proof.
  intros H w I HP. simpl. destruct I as (I1 & I2 & I3 & I4 & I5 & I6).
  split_and!; [split_and!; try done | apply grows_refl | done]. simpl.
  intros l [Hl | ->%list_elem_of_singleton]%elem_of_app; [by apply I4 | by apply H].
Qed.

Lemma triple_requestAnimationFrame (P : Document → Prop) (cb : Callback) :
  (∀ d, P d → cbOk cb d) → triple P (requestAnimationFrame cb) top.
Proof.
  intros H w I HP. simpl. destruct I as (I1 & I2 & I3 & I4 & I5 & I6).
  split_and!; [split_and!; try done | apply grows_refl | done]. simpl.
  intros l [Hl | ->%list_elem_of_singleton]%elem_of_app; [by apply I5 | by apply H].
Qed.

Lemma triple_fetch (P : Document → Prop) (u : option string) (m : string) (k : Continuation) :
  (∀ d, P d → kOk k d) → triple P (fetch u m k) top.
Proof.
  intros H w I HP. simpl. destruct I as (I1 & I2 & I3 & I4 & I5 & I6).
  split_and!; [split_and!; try done | apply grows_refl | done]. simpl.
  intros l [Hl | ->%list_elem_of_singleton]%elem_of_app; [by apply I6 | by apply H].
Qed.

Lemma triple_newCell (P : Document → Prop) : triple P newCell top.
Proof.
  intros w I HP. simpl. split_and!; [apply I.. | apply grows_refl | done].
Qed.

Lemma triple_queryIn_tag (P : Document → Prop) (root : NodeId) (t : string) (rest : Compound) :
  triple P (queryIn root [Sel (STag t :: rest)]) (λ o d, ∀ n, o = Some n → hasTag n t d).
Proof.
  apply triple_gets. intros w _ _ n H. apply querySelectorIn_matches in H.
  unfold matches, matchesComplex, matchesCompound in H. simpl in H. rewrite orb_false_r in H.
  unfold hasTag. destruct (dom w !! n) as [e|]; [| done]. simpl in H.
  apply andb_true_iff in H as [H _]. apply bool_decide_eq_true in H. by exists e.
Qed.

Lemma triple_setGlobals (P : Document → Prop) (g : Globals) :
  (∀ d, P d → ∀ n, mobileMenu g = Some n → hasId n "mobile-menu" d) →
  triple P (modify (λ w, set_globals g w)) top.
Proof.
  intros H w I HP. simpl. destruct I as (I1 & I2 & I3 & I4 & I5 & I6).
  split_and!; [split_and!; try done | apply grows_refl | done]. simpl.
  intros n Hn. by apply H.
Qed.

Lemma triple_alter_other (P : Document → Prop) (n : NodeId) (f : Element → Element) :
  (∀ e, tagName (f e) = tagName e ∧ attributes (f e) = attributes e
        ∧ classList (f e) = classList e ∧ parentNode (f e) = parentNode e
        ∧ disabled (f e) = disabled e) →
  triple P (modifyDom (alter f n)) top.
Proof. intros H. apply triple_modifyDom. intros d _ _. by apply grows_alter_other. Qed.

Lemma destinationCardElement_card : cardFunction destinationCardElement.
Proof.
  intros grid r. split_and!; [by vm_compute | | done | | done].
  - unfold isField. simpl. naive_solver.
  - intros c Hc. simpl. unfold structural in Hc. set_solver.
Qed.

Lemma brochureCardElement_card : cardFunction brochureCardElement.
Proof.
  intros grid r. split_and!; [| | done | | done].
  - unfold idOf, brochureCardElement, element. simpl.
    destruct (truthy (prop r "pdf")); by vm_compute.
  - unfold isField. simpl. naive_solver.
  - intros c Hc. simpl. unfold structural in Hc. set_solver.
Qed.

Lemma triple_writeInnerHTML (P : Document → Prop) (grid : NodeId) (html : string)
    (cardElement : NodeId → JsObject → Element) (records : list JsObject) :
  cardFunction cardElement → (∀ d, P d → inStore grid d) →
  triple P (modifyDom (writeInnerHTML grid html (cardElement grid <$> records))) top.
Proof.
  intros Hc Hg. apply triple_modifyDom. intros d _ HP.
  apply grows_writeInnerHTML; [by apply Hg |].
  intros e (r & -> & _)%list_elem_of_fmap. apply Hc.
Qed.

(** *** A tactic for straight-line script code *)

Ltac post_top :=
  try lazymatch goal with
      | |- @triple ?A _ _ ?Q => is_evar Q; unify Q (@top A)
      end.

Ltac facts :=
  intros;
  repeat match goal with
         | H : _ ∧ _ |- _ => destruct H
         | H : top _ _ |- _ => clear H
         end.

Ltac side := facts; simpl; unfold contactOk in *; first [ done | naive_solver ].

Ltac not_structural := unfold structural; set_solver.

Ltac protect :=
  let E := fresh in
  intros E; first
    [ discriminate E
    | facts; first
        [ eapply id_not_other; [naive_solver | done]
        | eapply mark_not_button; [done | naive_solver]
        | eapply mark_not_success; [done | naive_solver] ] ].

Ltac unfield :=
  let d := fresh "d" in
  let HPg := fresh "HPg" in
  let HP := fresh "HP" in
  let e := fresh "e" in
  let He := fresh "He" in
  intros d HPg HP e He;
  repeat match goal with
         | H : _ ∧ _ |- _ => destruct H
         end;
  first
    [ eapply (hasTag_not_field d); [naive_solver | done | done | exact He]
    | eapply (submitBtn_not_field d); [done | naive_solver | exact He] ].

Ltac other := apply triple_modify_other; intros; repeat case_bool_decide; done.

Ltac tcall := fail.

Ltac tprim :=
  cbv beta;
  lazymatch goal with
  | |- triple _ (mret _) _ => post_top; apply triple_ret; side
  | |- triple _ (throw _) _ => apply triple_throw
  | |- triple _ (deref _ _) _ => apply triple_deref
  | |- triple _ (byId _) _ => apply triple_byId
  | |- triple _ (queryIn _ [Sel [SClass "faq-content"]]) _ =>
      apply triple_queryIn_class; not_structural
  | |- triple _ (queryIn _ [Sel [SClass "btn-text"]]) _ =>
      apply triple_queryIn_class; not_structural
  | |- triple _ (queryIn _ [Sel [SClass "btn-spinner"]]) _ =>
      apply triple_queryIn_class; not_structural
  | |- triple _ (queryIn _ [Sel (STag _ :: _)]) _ => apply triple_queryIn_tag
  | |- triple _ (queryIn _ _) _ => apply triple_gets_top
  | |- triple _ (query _) _ => apply triple_gets_top
  | |- triple _ (queryAll _) _ => apply triple_gets_top
  | |- triple _ (queryAllIn _ _) _ => apply triple_gets_top
  | |- triple _ (gets _) _ => apply triple_gets_top
  | |- triple _ (classListContains _ _) _ => apply triple_gets_top
  | |- triple _ (getAttribute _ _) _ => apply triple_gets_top
  | |- triple _ (metric _ _) _ => apply triple_gets_top
  | |- triple _ (readCell _) _ => apply triple_gets_top
  | |- triple _ (classListAdd _ _) _ => apply triple_classListAdd; [not_structural | protect]
  | |- triple _ (classListRemove _ _) _ => apply triple_classListRemove; [not_structural | protect]
  | |- triple _ (setAttribute _ _ _) _ => apply triple_setAttribute; done
  | |- triple _ (setDisabled _ true) _ => apply triple_setDisabled_true
  | |- triple _ (setDisabled _ false) _ => apply triple_setDisabled_false; unfield
  | |- triple _ (modify (λ w, set_globals ?g w)) _ => apply (triple_setGlobals _ g); side
  | |- triple _ (modify (set_toggleFaqDefined _)) _ => other
  | |- triple _ (modifyDom (alter (withParallax _) _)) _ => apply triple_alter_other; done
  | |- triple _ (modifyDom (alter (withScrollTop _) _)) _ => apply triple_alter_other; done
  | |- triple _ (setTextContent _ _) _ => apply triple_setTextContent
  | |- triple _ (global mobileMenu _) _ => apply triple_global_mobileMenu; apply _
  | |- triple _ (global _ _) _ => apply triple_global; apply _
  | |- triple _ (addEventListener _ _ _) _ => apply triple_addEventListener; side
  | |- triple _ (setTimeout _ _) _ => apply triple_setTimeout; side
  | |- triple _ (requestAnimationFrame _) _ => apply triple_requestAnimationFrame; side
  | |- triple _ (fetch _ _ _) _ => apply triple_fetch; side
  | |- triple _ newCell _ => apply triple_newCell
  | |- triple _ (writeCell _ _) _ => other
  | |- triple _ (consoleLog _ _) _ => other
  | |- triple _ (consoleError _ _) _ => other
  | |- triple _ (alert _) _ => other
  | |- triple _ (scrollTo _) _ => other
  | |- triple _ preventDefault _ => other
  | |- triple _ stopPropagation _ => other
  | |- triple _ (observe _) _ => other
  | |- triple _ (unobserve _) _ => other
  | |- triple _ (when _ _) _ => apply triple_when
  | |- triple _ (if _ then _ else _) _ => post_top; apply triple_if
  | |- triple _ (match ?o with Some _ => _ | None => _ end) _ => post_top; destruct o
  | |- triple _ (forEach _ _) _ => apply triple_forEach; [apply _ | intros ? ?]
  | |- triple _ (tryCatch _ _) _ => post_top; apply triple_tryCatch; [apply _ | | intros ?]
  | |- triple _ (async _) _ => apply triple_async
  | |- triple _ (mbind _ _) _ => eapply triple_bind; [apply _ | | intros ?]
  | |- triple _ _ _ => tcall
  end.

Ltac tgo := repeat tprim.

(** *** The functions of the script *)

Lemma handleNavbarScroll_ok P `{!Stable P} : triple P handleNavbarScroll top.
Proof. unfold handleNavbarScroll. tgo. Qed.

Lemma updateMenuIcon_ok P `{!Stable P} (isOpen : bool) : triple P (updateMenuIcon isOpen) top.
Proof. unfold updateMenuIcon. tgo. Qed.

Ltac tcall ::= first
  [ apply handleNavbarScroll_ok; apply _
  | apply updateMenuIcon_ok; apply _ ].

Lemma openMobileMenu_ok P `{!Stable P} : triple P openMobileMenu top.
Proof. unfold openMobileMenu. tgo. Qed.

Lemma closeMobileMenu_ok P `{!Stable P} : triple P closeMobileMenu top.
Proof. unfold closeMobileMenu. tgo. Qed.

Lemma hideMenuIfClosed_ok P `{!Stable P} : triple P hideMenuIfClosed top.
Proof. unfold hideMenuIfClosed. tgo. Qed.

Ltac tcall ::= first
  [ apply handleNavbarScroll_ok; apply _
  | apply updateMenuIcon_ok; apply _
  | apply openMobileMenu_ok; apply _
  | apply closeMobileMenu_ok; apply _
  | apply hideMenuIfClosed_ok; apply _ ].

Lemma toggleMobileMenu_ok P `{!Stable P} : triple P toggleMobileMenu top.
Proof. unfold toggleMobileMenu. tgo. Qed.

Lemma handleSmoothScroll_ok P `{!Stable P} (this : option NodeId) :
  triple P (handleSmoothScroll this) top.
Proof. unfold handleSmoothScroll. tgo. Qed.

Lemma initScrollAnimations_ok P `{!Stable P} : triple P initScrollAnimations top.
Proof. unfold initScrollAnimations. tgo. Qed.

Lemma intersectionCallback_ok P `{!Stable P} entries : triple P (intersectionCallback entries) top.
Proof. unfold intersectionCallback. tgo. Qed.

Lemma updateActiveNavLink_ok P `{!Stable P} : triple P updateActiveNavLink top.
Proof. unfold updateActiveNavLink. tgo. Qed.

Lemma initFormValidation_ok P `{!Stable P} : triple P initFormValidation top.
Proof. unfold initFormValidation. tgo. Qed.

Lemma validationSubmit_ok P `{!Stable P} (form : NodeId) : triple P (validationSubmit form) top.
Proof. unfold validationSubmit. tgo. Qed.

Lemma resetButton_ok P `{!Stable P} (b : NodeId) (t : string) :
  (∀ d, P d → hasTag b "button" d) → triple P (resetButton b t) top.
Proof.
  intros H. apply (triple_pre (λ d, P d ∧ hasTag b "button" d)); [auto |].
  unfold resetButton. tgo.
Qed.

Lemma validationBlur_ok P `{!Stable P} this : triple P (validationBlur this) top.
Proof. unfold validationBlur. tgo. Qed.

Lemma validationInput_ok P `{!Stable P} this : triple P (validationInput this) top.
Proof. unfold validationInput. tgo. Qed.

Lemma initParallax_ok P `{!Stable P} : triple P initParallax top.
Proof. unfold initParallax. tgo. Qed.

Lemma updateParallax_ok P `{!Stable P} h t : triple P (updateParallax h t) top.
Proof. unfold updateParallax. tgo. Qed.

Lemma parallaxScroll_ok P `{!Stable P} h t : triple P (parallaxScroll h t) top.
Proof. unfold parallaxScroll. tgo. Qed.

Ltac tcall ::= first
  [ apply handleNavbarScroll_ok; apply _
  | apply updateMenuIcon_ok; apply _
  | apply openMobileMenu_ok; apply _
  | apply closeMobileMenu_ok; apply _
  | apply hideMenuIfClosed_ok; apply _
  | apply updateActiveNavLink_ok; apply _ ].

Lemma scrollChrome_ok P `{!Stable P} : triple P scrollChrome top.
Proof. unfold scrollChrome. tgo. Qed.

Lemma clickOutside_ok P `{!Stable P} : triple P clickOutside top.
Proof. unfold clickOutside. tgo. Qed.

Lemma resizeClose_ok P `{!Stable P} : triple P resizeClose top.
Proof. unfold resizeClose. tgo. Qed.

Lemma escapeClose_ok P `{!Stable P} : triple P escapeClose top.
Proof. unfold escapeClose. tgo. Qed.

Lemma throttle_ok P `{!Stable P} (func : Callback) (limit : Z) :
  (∀ d, P d → cbOk func d) →
  triple P (throttle func limit) (λ cb d, cbOk cb d).
Proof.
  intros H. unfold throttle.
  eapply triple_bind; [apply _ | apply triple_newCell |]. intros c.
  apply triple_ret. intros d [HP _]. simpl. by apply H.
Qed.

Ltac tcall ::= first
  [ apply handleNavbarScroll_ok; apply _
  | apply updateMenuIcon_ok; apply _
  | apply openMobileMenu_ok; apply _
  | apply closeMobileMenu_ok; apply _
  | apply hideMenuIfClosed_ok; apply _
  | apply updateActiveNavLink_ok; apply _
  | apply throttle_ok; [apply _ | side] ].

Lemma initEventListeners_ok P `{!Stable P} : triple P initEventListeners top.
Proof. unfold initEventListeners. tgo. Qed.

Lemma closeOther_ok P `{!Stable P} (faqItem item : NodeId) : triple P (closeOther faqItem item) top.
Proof. unfold closeOther. tgo. Qed.

Ltac tcall ::= first
  [ apply closeOther_ok; apply _ ].

Lemma toggleFaq_ok P `{!Stable P} (button : NodeId) : triple P (toggleFaq button) top.
Proof. unfold toggleFaq. tgo. Qed.

Lemma initContactForm_ok P `{!Stable P} : triple P initContactForm top.
Proof. unfold initContactForm. tgo. Qed.

Lemma contactSubmit_ok P `{!Stable P} form sb bt bs fs :
  (∀ d, P d → contactOk sb bt bs fs d) → triple P (contactSubmit form sb bt bs fs) top.
Proof.
  intros H. apply (triple_pre (λ d, P d ∧ contactOk sb bt bs fs d)); [auto |].
  unfold contactSubmit, contactOk. tgo.
Qed.

Lemma contactSettled_ok P `{!Stable P} form sb bt bs fs outcome :
  (∀ d, P d → contactOk sb bt bs fs d) → triple P (contactSettled form sb bt bs fs outcome) top.
Proof.
  intros H. apply (triple_pre (λ d, P d ∧ contactOk sb bt bs fs d)); [auto |].
  unfold contactSettled, contactOk. destruct outcome as [|[] body]; tgo.
Qed.

Lemma renderGrid_ok P `{!Stable P} grid card cardElement outcome :
  cardFunction cardElement → (∀ d, P d → inStore grid d) →
  triple P (renderGrid grid card cardElement outcome) top.
Proof.
  intros Hc Hg. unfold renderGrid. destruct outcome as [|ok [|[items|]]]; try apply triple_throw.
  destruct (mapM id items) as [records|]; [| apply triple_throw].
  by apply triple_writeInnerHTML.
Qed.

Lemma destinationsSettled_ok P `{!Stable P} grid outcome :
  (∀ d, P d → inStore grid d) → triple P (destinationsSettled grid outcome) top.
Proof.
  intros Hg. unfold destinationsSettled. apply triple_tryCatch; [apply _ | | intros e; tgo].
  apply renderGrid_ok; [apply _ | apply destinationCardElement_card | done].
Qed.

Lemma brochuresSettled_ok P `{!Stable P} grid outcome :
  (∀ d, P d → inStore grid d) → triple P (brochuresSettled grid outcome) top.
Proof.
  intros Hg. unfold brochuresSettled. apply triple_tryCatch; [apply _ | | intros e; tgo].
  apply renderGrid_ok; [apply _ | apply brochureCardElement_card | done].
Qed.

Ltac in_store :=
  facts; simpl; eapply hasId_inStore; naive_solver.

Lemma loadBrochures_ok P `{!Stable P} : triple P loadBrochures top.
Proof.
  unfold loadBrochures. tprim; [tprim |]. tprim; [| tgo].
  apply triple_fetch. in_store.
Qed.

Lemma dataset_ok P `{!Stable P} card name : triple P (dataset card name) top.
Proof. unfold dataset. tgo. Qed.

Lemma assignText_ok P `{!Stable P} o what v : triple P (assignText o what v) top.
Proof. unfold assignText. tgo. Qed.

Ltac tcall ::= first
  [ apply dataset_ok; apply _
  | apply assignText_ok; apply _ ].

Lemma openModal_ok P `{!Stable P} m card :
  (∀ d, P d → hasId (modal m) "destination-modal" d) → triple P (openModal m card) top.
Proof.
  intros H. apply (triple_pre (λ d, P d ∧ hasId (modal m) "destination-modal" d)); [auto |].
  unfold openModal. tgo.
Qed.

Lemma closeModal_ok P `{!Stable P} m :
  (∀ d, P d → hasId (modal m) "destination-modal" d) → triple P (closeModal m) top.
Proof.
  intros H. apply (triple_pre (λ d, P d ∧ hasId (modal m) "destination-modal" d)); [auto |].
  unfold closeModal. tgo.
Qed.

Lemma hideModalIfClosed_ok P `{!Stable P} m :
  (∀ d, P d → hasId (modal m) "destination-modal" d) → triple P (hideModalIfClosed m) top.
Proof.
  intros H. apply (triple_pre (λ d, P d ∧ hasId (modal m) "destination-modal" d)); [auto |].
  unfold hideModalIfClosed. tgo.
Qed.

Ltac tcall ::= first
  [ apply openModal_ok; [apply _ | side]
  | apply closeModal_ok; [apply _ | side] ].

Lemma cardKeydown_ok P `{!Stable P} m card :
  (∀ d, P d → hasId (modal m) "destination-modal" d) → triple P (cardKeydown m card) top.
Proof.
  intros H. apply (triple_pre (λ d, P d ∧ hasId (modal m) "destination-modal" d)); [auto |].
  unfold cardKeydown. tgo.
Qed.

Lemma modalEscape_ok P `{!Stable P} m :
  (∀ d, P d → hasId (modal m) "destination-modal" d) → triple P (modalEscape m) top.
Proof.
  intros H. apply (triple_pre (λ d, P d ∧ hasId (modal m) "destination-modal" d)); [auto |].
  unfold modalEscape. tgo.
Qed.

Lemma initDestinationModal_ok P `{!Stable P} : triple P initDestinationModal top.
Proof. unfold initDestinationModal. tgo. Qed.

Ltac tcall ::= first
  [ apply handleNavbarScroll_ok; apply _
  | apply initScrollAnimations_ok; apply _
  | apply initEventListeners_ok; apply _
  | apply initFormValidation_ok; apply _
  | apply initContactForm_ok; apply _
  | apply initParallax_ok; apply _
  | apply initDestinationModal_ok; apply _
  | apply loadBrochures_ok; apply _ ].

Lemma init_ok P `{!Stable P} : triple P init top.
Proof. unfold init. tgo. Qed.

Lemma afterDestinations_ok P `{!Stable P} : triple P afterDestinations top.
Proof. unfold afterDestinations. tgo. Qed.

Lemma loadDestinations_ok P `{!Stable P} (andThen : M unit) :
  (∀ Q, Stable Q → triple Q andThen top) → triple P (loadDestinations andThen) top.
Proof.
  intros H. unfold loadDestinations. tprim; [tprim |]. tprim; [| apply H; apply _].
  apply triple_fetch. in_store.
Qed.

Lemma bootstrap_ok P `{!Stable P} : triple P bootstrap top.
Proof.
  unfold bootstrap. tprim; [apply init_ok; apply _ |].
  apply loadDestinations_ok; [apply _ |]. intros Q HQ. by apply afterDestinations_ok.
Qed.

Ltac tcall ::= first
  [ apply bootstrap_ok; apply _ ].

Lemma script_ok P `{!Stable P} : triple P script top.
Proof. unfold script. tgo. Qed.

Lemma runCallback_ok (cb : Callback) : ∀ P `{!Stable P} (this : option NodeId),
  (∀ d, P d → cbOk cb d) → triple P (runCallback cb this) top.
Proof.
  induction cb; intros P HS this H; simpl in *.
  - tgo.
  - tprim; [tgo |]. tprim. tprim; [apply IHcb; [apply _ | side] | tgo].
  - tgo.
  - by apply scrollChrome_ok.
  - by apply toggleMobileMenu_ok.
  - by apply clickOutside_ok.
  - by apply handleSmoothScroll_ok.
  - by apply closeMobileMenu_ok.
  - by apply resizeClose_ok.
  - by apply escapeClose_ok.
  - by apply hideMenuIfClosed_ok.
  - by apply validationSubmit_ok.
  - by apply resetButton_ok.
  - by apply validationBlur_ok.
  - by apply validationInput_ok.
  - by apply parallaxScroll_ok.
  - by apply updateParallax_ok.
  - apply triple_async. by apply contactSubmit_ok.
  - by apply openModal_ok.
  - by apply cardKeydown_ok.
  - by apply closeModal_ok.
  - by apply modalEscape_ok.
  - by apply hideModalIfClosed_ok.
  - tgo.
Qed.

Lemma settled_ok P `{!Stable P} (k : Continuation) (outcome : FetchOutcome) :
  (∀ d, P d → kOk k d) → triple P (settled k outcome) top.
Proof.
  intros H. destruct k; simpl in *; apply triple_async.
  - tprim; [apply destinationsSettled_ok; [apply _ | done] |].
    apply afterDestinations_ok; apply _.
  - by apply brochuresSettled_ok.
  - by apply contactSettled_ok.
Qed.



(** ** Every step of a session keeps the invariant *)

Lemma Inv_sub (w w' : World) :
  dom w' = dom w → globals w' = globals w →
  listeners w' ⊆ listeners w → timers w' ⊆ timers w → frames w' ⊆ frames w →
  requests w' ⊆ requests w →
  Inv w → Inv w'.
Proof.
  intros E1 E2 S1 S2 S3 S4 (I1 & I2 & I3 & I4 & I5 & I6). unfold Inv. rewrite E1, E2.
  split_and!; [done | done | | | |]; intros x Hx.
  - apply I3. by apply S1.
  - apply I4. by apply S2.
  - apply I5. by apply S3.
  - apply I6. by apply S4.
Qed.

Lemma delete_subseteq {A} (l : list A) (i : nat) : delete i l ⊆ l.
Proof. intros x Hx. by eapply list_elem_of_delete_inv. Qed.

Lemma perform_ok (P : Document → Prop) (m : M unit) (w : World) :
  triple P m top → Inv w → P (dom w) →
  Inv (perform m w) ∧ grows (dom w) (dom (perform m w)).
Proof.
  intros H I HP. destruct (H w I HP) as (I1 & G1 & _). unfold perform.
  destruct (m w) as [[e|a] w1]; simpl in *; [| done]. split; [| done].
  by apply (Inv_sub w1).
Qed.

Lemma deliver_ok (l : Listener) (e : Event) (w : World) :
  Inv w → cbOk (handler l) (dom w) →
  Inv (deliver l e w) ∧ grows (dom w) (dom (deliver l e w)).
Proof.
  intros I H. unfold deliver.
  set (w0 := set_event _ w).
  destruct (perform_ok (cbOk (handler l)) (runCallback (handler l) (thisOf l)) w0) as [I1 G1];
    [apply runCallback_ok; [apply _ | done] | by apply (Inv_sub w) | done | done].
Qed.

Lemma deliver_all_ok (ls : list Listener) (e : Event) (w : World) :
  Inv w → (∀ l, l ∈ ls → cbOk (handler l) (dom w)) →
  Inv (fold_left (λ w l, deliver l e w) ls w)
  ∧ grows (dom w) (dom (fold_left (λ w l, deliver l e w) ls w)).
Proof.
  revert w. induction ls as [|l ls IH]; intros w I H; simpl.
  - split; [done | apply grows_refl].
  - destruct (deliver_ok l e w I) as [I1 G1]; [apply H; by left |].
    destruct (IH (deliver l e w) I1) as [I2 G2].
    { intros l' Hl'. eapply stable; [apply H; by right | done]. }
    split; [done | by eapply grows_trans].
Qed.

Lemma exec_ok (s : Step) (w : World) :
  Inv w → Inv (exec s w) ∧ grows (dom w) (dom (exec s w)).
Proof.
  intros I. pose proof I as (I1 & I2 & I3 & I4 & I5 & I6).
  destruct s; simpl.
  - destruct (loading w); [| split; [done | apply grows_refl]].
    apply (deliver_all_ok _ _ (set_loading false w)); [by apply (Inv_sub w) |].
    intros l [_ Hl]%list_elem_of_filter. by apply I3.
  - destruct (listeners w !! i) as [l|] eqn:E; [| split; [done | apply grows_refl]].
    case_bool_decide; [split; [done | apply grows_refl] |].
    apply deliver_ok; [done |]. apply I3. by eapply list_elem_of_lookup_2.
  - case_bool_decide; (split; [| apply grows_refl]); [by apply (Inv_sub w) | done].
  - destruct (timers w !! i) as [t|] eqn:E; [| split; [done | apply grows_refl]].
    case_bool_decide; [| split; [done | apply grows_refl]].
    set (w0 := set_timers _ w).
    destruct (perform_ok (cbOk (action t)) (runCallback (action t) None) w0) as [J1 G1];
      [apply runCallback_ok; [apply _ | done] | | | done].
    + apply (Inv_sub w); try done. apply delete_subseteq.
    + apply I4. by eapply list_elem_of_lookup_2.
  - destruct (requests w !! i) as [r|] eqn:E; [| split; [done | apply grows_refl]].
    set (w0 := set_requests _ w).
    destruct (perform_ok (kOk (continuation r)) (settled (continuation r) outcome) w0) as [J1 G1];
      [apply settled_ok; [apply _ | done] | | | done].
    + apply (Inv_sub w); try done. apply delete_subseteq.
    + apply I6. by eapply list_elem_of_lookup_2.
  - destruct (frames w !! i) as [cb|] eqn:E; [| split; [done | apply grows_refl]].
    set (w0 := set_frames _ w).
    destruct (perform_ok (cbOk cb) (runCallback cb None) w0) as [J1 G1];
      [apply runCallback_ok; [apply _ | done] | | | done].
    + apply (Inv_sub w); try done. apply delete_subseteq.
    + apply I5. by eapply list_elem_of_lookup_2.
  - apply (perform_ok (λ _, True)); [| done | done]. apply intersectionCallback_ok. apply _.
  - destruct (toggleFaqDefined w).
    + apply (perform_ok (λ _, True)); [| done | done]. apply toggleFaq_ok. apply _.
    + split; [by apply (Inv_sub w) | apply grows_refl].
  - split; [by apply (Inv_sub w) | apply grows_refl].
  - split; [by apply (Inv_sub w) | apply grows_refl].
  - destruct (isDisabled (dom w) field); [split; [done | apply grows_refl] |].
    assert (G : grows (dom w) (alter (withField v ok) field (dom w))).
    { apply grows_alter_other. done. }
    split; [by apply Inv_grows | done].
Qed.

Lemma run_ok (steps : list Step) (w : World) :
  Inv w → Inv (run steps w) ∧ grows (dom w) (dom (run steps w)).
Proof.
  revert w. induction steps as [|s steps IH]; intros w I; simpl.
  - split; [done | apply grows_refl].
  - destruct (exec_ok s w I) as [I1 G1]. destruct (IH _ I1) as [I2 G2].
    split; [done | by eapply grows_trans].
Qed.

Lemma start_ok (page : Document) (stillLoading observer : bool) (width y : Z) :
  Page page →
  Inv (start (served page stillLoading observer width y))
  ∧ grows page (dom (start (served page stillLoading observer width y))).
Proof.
  intros HP. unfold start.
  apply (perform_ok (λ _, True)); [apply script_ok; apply _ | | done].
  unfold Inv, served. simpl. split_and!; [done | done | | | |]; intros x Hx; by apply elem_of_nil in Hx.
Qed.



(** ** The contact form after a successful submission *)

Lemma ancestors_fuel (d : Document) :
  wfTree d → ∀ f1 f2 n, n < f1 → n < f2 → ancestors d f1 n = ancestors d f2 n.
Proof.
  intros Hwf f1. induction f1 as [|f1 IH]; intros f2 n H1 H2; [lia |].
  destruct f2 as [|f2]; [lia |]. simpl.
  destruct (d !! n) as [e|] eqn:E; simpl; [| done].
  destruct (parentNode e) as [p|] eqn:Ep; [| done].
  pose proof (Hwf n e p E Ep). f_equal. apply IH; lia.
Qed.

Lemma ancestors_grows (d d' : Document) :
  wfTree d → grows d d' →
  ∀ fuel n a, n < length d → a ∈ ancestors d' fuel n → a ∈ ancestors d fuel n.
Proof.
  intros Hwf (L & K & N) fuel. induction fuel as [|fuel IH]; intros n a Hn Ha; simpl in *; [done |].
  destruct (lookup_lt_is_Some_2 d n Hn) as [e E].
  destruct (K n e E) as (e' & E' & [_ _ Hp _ _ _ _]). rewrite E' in Ha. rewrite E. simpl in *.
  destruct Hp as [Hp|Hp]; rewrite Hp in Ha; [| by apply elem_of_nil in Ha].
  destruct (parentNode e) as [p|] eqn:Ep; [| done].
  apply elem_of_cons in Ha as [->|Ha]; [by left |]. right.
  apply IH; [| done]. pose proof (Hwf n e p E Ep). lia.
Qed.

Lemma below_grows (d d' : Document) (root n : NodeId) :
  wfTree d → grows d d' → n < length d → below d' root n = true → below d root n = true.
Proof.
  intros Hwf G Hn. unfold below. rewrite !andb_true_iff, !bool_decide_eq_true.
  intros [H1 H2]. split; [done |]. unfold ancestorsOf in *.
  apply (ancestors_grows d d' Hwf G) in H2; [| done].
  rewrite (ancestors_fuel d Hwf (length d) (length d')); [done | done |].
  destruct G as [L _]. lia.
Qed.

Lemma matches_fields (d : Document) (n : NodeId) :
  matches d fields n = true ↔ ∃ e, d !! n = Some e ∧ isField e.
Proof.
  unfold matches, fields, matchesComplex, matchesCompound, isField. simpl.
  destruct (d !! n) as [e|]; simpl.
  - rewrite !andb_true_r, orb_false_r, orb_true_iff, !bool_decide_eq_true. naive_solver.
  - naive_solver.
Qed.

Lemma elem_of_querySelectorAllIn (d : Document) (root : NodeId) (sel : Selector) (n : NodeId) :
  n ∈ querySelectorAllIn d root sel ↔ n < length d ∧ below d root n = true ∧ matches d sel n = true.
Proof.
  unfold querySelectorAllIn. rewrite list_elem_of_filter, elem_of_seq. split.
  - intros [H Hn]. apply Is_true_true, andb_true_iff in H. split_and!; [lia | tauto | tauto].
  - intros (Hn & H1 & H2). split; [apply Is_true_true; by rewrite H1, H2 | lia].
Qed.

Lemma frozen_grows (form sb fs : NodeId) (d d' : Document) :
  Page d → grows d d' → hasId sb "submit-btn" d → hasId fs "form-success" d →
  frozen form sb fs d → frozen form sb fs d'.
Proof.
  intros (Hwf & _) G Hsb Hfs (F1 & F2 & F3). pose proof G as (L & K & N).
  unfold frozen, hasId, attr, hasClass, tokenContains in *. split_and!.
  - destruct (d !! sb) as [e|] eqn:E; [| done]. destruct (K sb e E) as (e' & -> & Hk).
    simpl in *. rewrite bool_decide_eq_true in *. by apply (keeps_button e e' Hk).
  - destruct (d !! fs) as [e|] eqn:E; [| done]. destruct (K fs e E) as (e' & -> & Hk).
    simpl in *. rewrite bool_decide_eq_false in *. intros H. apply F2.
    by apply (keeps_success e e' Hk).
  - intros n (Hn & Hb & Hm)%elem_of_querySelectorAllIn.
    apply matches_fields in Hm as (e' & E' & Hf).
    destruct (decide (n < length d)) as [Hlt|Hge].
    + destruct (lookup_lt_is_Some_2 d n Hlt) as [e E].
      destruct (K n e E) as (e'' & E'' & Hk). simplify_eq.
      assert (Hfe : isField e) by (unfold isField in *; by rewrite <- (keeps_tag e e' Hk)).
      assert (Hd : isDisabled d n = true).
      { apply F3. apply elem_of_querySelectorAllIn. split_and!; [done | |].
        - by eapply below_grows.
        - apply matches_fields. by exists e. }
      unfold isDisabled in *. rewrite E in Hd. rewrite E'.
      by apply (keeps_field e e' Hk).
    + destruct (N n e' E') as (_ & Hnf & _); [lia |]. done.
Qed.

Lemma onlyButton_grows (form sb : NodeId) (d d' : Document) :
  Page d → grows d d' → onlyButton form sb d → onlyButton form sb d'.
Proof.
  intros (Hwf & _) G H n e' E' Hb Ht. pose proof G as (L & K & N).
  destruct (decide (n < length d)) as [Hlt|Hge].
  - destruct (lookup_lt_is_Some_2 d n Hlt) as [e E].
    destruct (K n e E) as (e'' & E'' & Hk). simplify_eq.
    apply (H n e E); [by eapply below_grows |]. by rewrite <- (keeps_tag e e' Hk).
  - destruct (N n e' E') as (_ & _ & Hnb & _); [lia |]. done.
Qed.

Lemma frozen_not_operable (form sb fs : NodeId) (d : Document) :
  frozen form sb fs d → onlyButton form sb d → ∀ n, operable d form n = false.
Proof.
  intros (F1 & _ & F3) Hob n. unfold operable.
  destruct (below d form n) eqn:Hb; [| done]. destruct (d !! n) as [e|] eqn:E; [| done]. simpl.
  destruct (bool_decide (isField e)) eqn:Hf; simpl.
  - apply bool_decide_eq_true in Hf.
    assert (isDisabled d n = true) as Hd.
    { apply F3, elem_of_querySelectorAllIn. split_and!; [by eapply lookup_lt_Some | done |].
      apply matches_fields. by exists e. }
    unfold isDisabled in Hd. rewrite E in Hd. by rewrite Hd.
  - destruct (bool_decide (tagName e = "button")) eqn:Ht; simpl; [| done].
    apply bool_decide_eq_true in Ht.
    rewrite (Hob n e E Hb Ht) in E. unfold hasClass in F1. rewrite E in F1. rewrite F1.
    by rewrite andb_false_r.
Qed.

(** *** The success branch *)

Lemma freezeField_same (x : NodeId) (d : Document) : sameBut freezeClasses [] d (freezeField x d).
Proof.
  unfold freezeField.
  eapply sameBut_trans; [apply sameBut_putDisabled |].
  eapply sameBut_trans; apply sameBut_addClass; unfold freezeClasses; set_solver.
Qed.

Lemma isDisabled_addClass (d : Document) (x n : NodeId) (c : string) :
  isDisabled (addClass x c d) n = isDisabled d n.
Proof.
  unfold isDisabled, addClass. destruct (decide (x = n)) as [->|Hne].
  - rewrite list_lookup_alter_eq. by destruct (d !! n).
  - by rewrite list_lookup_alter_ne.
Qed.

Lemma isDisabled_freezeField (d : Document) (x n : NodeId) :
  isDisabled (freezeField x d) n = true ↔ (n = x ∧ x < length d) ∨ isDisabled d n = true.
Proof.
  unfold freezeField. rewrite !isDisabled_addClass. unfold isDisabled, putDisabled.
  destruct (decide (x = n)) as [->|Hne].
  - rewrite list_lookup_alter_eq. destruct (d !! n) as [e|] eqn:E; simpl.
    + apply lookup_lt_Some in E. naive_solver.
    + apply lookup_ge_None in E. split; [done |]. intros [[_ H]|H]; [lia | done].
  - rewrite list_lookup_alter_ne by done. naive_solver.
Qed.

Lemma freezeAll_spec (l : list NodeId) (d : Document) :
  sameBut freezeClasses [] d (freezeAll l d)
  ∧ (∀ n, isDisabled d n = true → isDisabled (freezeAll l d) n = true)
  ∧ (∀ x, x ∈ l → x < length d → isDisabled (freezeAll l d) x = true).
Proof.
  revert d. induction l as [|y l IH]; intros d; simpl.
  - split_and!; [apply sameBut_refl | done |]. intros x Hx. by apply elem_of_nil in Hx.
  - destruct (IH (freezeField y d)) as (S & M & A).
    pose proof (freezeField_same y d) as S1. split_and!.
    + by eapply sameBut_trans.
    + intros n Hn. apply M. apply isDisabled_freezeField. by right.
    + intros x [->|Hx]%elem_of_cons Hlt.
      * apply M. apply isDisabled_freezeField. by left.
      * apply A; [done |]. by rewrite (proj1 S1).
Qed.

Lemma freeze_run (l : list NodeId) (w : World) :
  forEach (λ input, setDisabled input true;; classListAdd input "opacity-60";;
                    classListAdd input "cursor-not-allowed") l w
  = (inr tt, set_dom (freezeAll l (dom w)) w).
Proof.
  revert w. induction l as [|x l IH]; intros w.
  - simpl. by destruct w.
  - rewrite forEach_cons. simpl. rewrite IH. simpl. done.
Qed.

Lemma contactSettled_success (form sb fs : NodeId) (bt bs : option NodeId) (body : Body) (w : World) :
  contactSettled form sb bt bs (Some fs) (Response true body) w
  = (inr tt, set_dom (succeededDocument form sb fs (dom w)) w).
Proof.
  unfold contactSettled, tryCatch.
  unfold mbind at 1, M_bind at 1. simpl.
  unfold mbind at 1, M_bind at 1. simpl.
  unfold mbind at 1, M_bind at 1. simpl.
  unfold mbind at 1, M_bind at 1. simpl.
  fold fields. rewrite freeze_run. done.
Qed.

Lemma succeededDocument_frozen (form sb fs : NodeId) (d : Document) :
  hasId sb "submit-btn" d → hasId fs "form-success" d →
  frozen form sb fs (succeededDocument form sb fs d).
Proof.
  intros Hsb Hfs. unfold succeededDocument.
  set (shown := removeClass fs "hidden" (addClass sb "hidden" d)).
  destruct (freezeAll_spec (querySelectorAllIn shown form fields) shown) as (S & M & A).
  assert (Hne : sb ≠ fs) by (intros ->; unfold hasId in *; congruence).
  assert (Hhid : "hidden" ∉ freezeClasses) by (unfold freezeClasses; set_solver).
  split_and!.
  - rewrite (sameBut_hasClass _ _ _ _ _ _ S Hhid). unfold shown.
    rewrite hasClass_removeClass_ne by (by left). apply hasClass_addClass_eq.
    by eapply hasId_inStore.
  - rewrite (sameBut_hasClass _ _ _ _ _ _ S Hhid). apply hasClass_removeClass_eq.
  - intros n Hn. rewrite (sameBut_querySelectorAllIn freezeClasses [] shown) in Hn; [| done |].
    + apply A; [done |]. apply elem_of_querySelectorAllIn in Hn. tauto.
    + repeat constructor.
Qed.



Lemma Inv_session (page : Document) (stillLoading observer : bool) (width y : Z) (steps : list Step) :
  Page page → Inv (run steps (start (served page stillLoading observer width y))).
Proof.
  intros HP. destruct (start_ok page stillLoading observer width y HP) as [I _].
  by destruct (run_ok steps _ I).
Qed.

(** C2: once the request of a submission settles with a success response,
    the submit control is hidden, the confirmation is shown and every input
    and textarea of the form is disabled, and this stays so whatever happens
    later in the session: no listener, timer or continuation of the script
    undoes it.  Where the submit control is the form's only button, nothing
    is left in the form that a user could operate to submit again. *)
Theorem contact_success_is_final
    (page : Document) (stillLoading observer : bool) (width y : Z)
    (before later : list Step) (i : nat) (r : Request)
    (form sb fs : NodeId) (bt bs : option NodeId) (body : Body) :
  Page page →
  let w := run before (start (served page stillLoading observer width y)) in
  requests w !! i = Some r →
  continuation r = KContact form sb bt bs (Some fs) →
  let succeeded := exec (Settle i (Response true body)) w in
  dom succeeded = succeededDocument form sb fs (dom w)
  ∧ uncaught succeeded = uncaught w
  ∧ frozen form sb fs (dom succeeded)
  ∧ frozen form sb fs (dom (run later succeeded))
  ∧ (onlyButton form sb (dom w) → ∀ n, operable (dom (run later succeeded)) form n = false).
Proof.
  intros HP w Hr Hk succeeded.
  assert (I : Inv w) by by apply Inv_session.
  assert (Hok : contactOk sb bt bs (Some fs) (dom w)).
  { destruct I as (_ & _ & _ & _ & _ & I6).
    specialize (I6 r (list_elem_of_lookup_2 _ _ _ Hr)). by rewrite Hk in I6. }
  destruct Hok as (Hsb & _ & _ & Hfs). specialize (Hfs fs eq_refl).
  assert (Hdom : dom succeeded = succeededDocument form sb fs (dom w)
                 ∧ uncaught succeeded = uncaught w).
  { unfold succeeded. simpl. rewrite Hr, Hk. simpl.
    unfold perform, async. rewrite contactSettled_success. done. }
  destruct Hdom as [Hdom Hunc].
  assert (F : frozen form sb fs (dom succeeded)).
  { rewrite Hdom. by apply succeededDocument_frozen. }
  destruct (exec_ok (Settle i (Response true body)) w I) as [I1 G1]. fold succeeded in I1, G1.
  destruct (run_ok later succeeded I1) as [I2 G2].
  assert (Hsb1 : hasId sb "submit-btn" (dom succeeded)) by (by eapply stable).
  assert (Hfs1 : hasId fs "form-success" (dom succeeded)) by (by eapply stable).
  assert (F2 : frozen form sb fs (dom (run later succeeded))).
  { eapply frozen_grows; [apply I1 | done..]. }
  split_and!; try done.
  intros Hob. eapply frozen_not_operable; [done |].
  eapply onlyButton_grows; [apply I | by eapply grows_trans | done].
Qed.

Lemma Page_sample : Page Sample.page.
Proof.
  split_and!.
  - intros n e p He Hp.
    do 27 (destruct n as [|n]; [simpl in He; injection He as <-; simpl in Hp;
                                first [discriminate | injection Hp as <-; lia] |]).
    done.
  - intros n e He Hid.
    repeat (destruct n as [|n]; [simpl in He; injection He as <-;
                                 first [by vm_compute in Hid | idtac] | simpl in He]);
      [| done].
    split; [unfold isField; simpl; naive_solver |].
    intros c Hc. simpl. set_solver.
  - intros n e He Hid.
    repeat (destruct n as [|n]; [simpl in He; injection He as <-;
                                 first [by vm_compute in Hid | idtac] | simpl in He]);
      [| done].
    intros c Hc. simpl. unfold structural in Hc. set_solver.
Qed.

Lemma contact_success_is_final_witness :
  frozen 11 14 17
    (dom (run [Advance 5000; Fire 0; Deliver 15 submitEvent; Settle 1 NetworkError]
            (exec (Settle 1 (Response true BadJson)) submitting))).
Proof.
  refine (proj1 (proj2 (proj2 (proj2
    (contact_success_is_final Sample.page false true 1200 0
       [Deliver 10 submitEvent; Deliver 15 submitEvent]
       [Advance 5000; Fire 0; Deliver 15 submitEvent; Settle 1 NetworkError]
       1 (mkRequest (Some "https://formspree.io/f/x") "POST"
            (KContact 11 14 (Some 15) (Some 16) (Some 17)))
       11 14 17 (Some 15) (Some 16) BadJson Page_sample _ _))))).
  - by vm_compute.
  - reflexivity.
Defined.

(** ** The contact form after a failed submission *)

(** What the failure branch does by itself: the spinner is hidden, the
    label element is shown, the button is enabled and the alert is raised;
    no field is touched. *)
Lemma contactSettled_failure (form sb t s : NodeId) (fs : option NodeId) (outcome : FetchOutcome)
    (w : World) :
  outcome = NetworkError ∨ (∃ body, outcome = Response false body) →
  contactSettled form sb (Some t) (Some s) fs outcome w
  = (inr tt, set_alerts (alerts w ++ [fallbackAlert])
               (set_dom (putDisabled sb false
                           (removeClass t "hidden" (addClass s "hidden" (dom w)))) w)).
Proof. intros [-> | [body ->]]; reflexivity. Qed.

(** C4 on the sample page, where the contact form is the first form of the
    document and its submit control is a submit button: the submit listener
    of the form enhancement runs first and replaces the content of the
    button by its progress caption, which detaches the label element.  When
    the request then fails the button is enabled again, the fields are as
    they were and the alert is raised, but the button still reads the
    progress caption; the original text returns only when the timer of the
    form enhancement fires, five seconds after the submission. *)
Theorem contact_failure_keeps_progress_caption :
  textContent (dom loaded) 14 = "Invia richiesta"
  ∧ isDisabled (dom submitting) 14 = true
  ∧ isDisabled (dom failed) 14 = false
  ∧ isDisabled (dom failed) 12 = false
  ∧ isDisabled (dom failed) 13 = false
  ∧ alerts failed = [fallbackAlert]
  ∧ uncaught failed = []
  ∧ textContent (dom failed) 14 = "Invio in corso..."
  ∧ isConnected (dom failed) 15 = false
  ∧ textContent (dom rejected) 14 = "Invio in corso..."
  ∧ timers failed = [mkTimer 5000 (CbResetButton 14 "Invia richiesta")]
  ∧ textContent (dom (run [Advance 5000; Fire 0] failed)) 14 = "Invia richiesta".
Proof. by vm_compute. Qed.



(** ** Pieces of markup *)














(** ** What a card is *)










(** ** What a grid holds *)

Lemma mapM_id_None {A} (l : list (option A)) : None ∈ l → mapM id l = None.
Proof.
  intros H. destruct (mapM id l) as [k|] eqn:E; [| done].
  apply mapM_Some in E. apply list_elem_of_lookup in H as [i Hi].
  destruct (Forall2_lookup_l _ _ _ _ _ E Hi) as (y & _ & Hy). done.
Qed.

Lemma filter_none {A} (P : A → Prop) `{!∀ x, Decision (P x)} (l : list A) :
  (∀ x, x ∈ l → ¬ P x) → filter P l = [].
Proof.
  intros HP. induction l as [|x l IH]; [done |].
  rewrite filter_cons_False by (apply HP; set_solver). apply IH. set_solver.
Qed.


Lemma lookup_detachChildren (n c : NodeId) (d : Document) :
  detachChildren n d !! c
  = (λ e, if bool_decide (parentNode e = Some n) then withParent None e else e) <$> d !! c.
Proof. unfold detachChildren. apply list_lookup_fmap. Qed.

Lemma parent_detachChildren (n c : NodeId) (d : Document) :
  detachChildren n d !! c ≫= parentNode
  = if bool_decide (d !! c ≫= parentNode = Some n) then None else d !! c ≫= parentNode.
Proof.
  rewrite lookup_detachChildren. destruct (d !! c) as [e|]; simpl.
  - repeat case_bool_decide; simpl in *; congruence.
  - done.
Qed.



















(** ** The navigation bar on scroll *)

(** X1: [handleNavbarScroll] marks the navigation bar [scrolled] exactly
    when the page is scrolled by more than 100 px (at 100 px the mark is
    cleared), touches no other class and nothing but the document; without a
    navigation bar it throws, and changes nothing. *)
Theorem navbar_scrolled_past_threshold (w : World) :
  (∀ nb, navbar (globals w) = Some nb → nb < length (dom w) →
     ∃ d', handleNavbarScroll w = (inr tt, set_dom d' w)
       ∧ hasClass d' nb "scrolled" = bool_decide (100 < scrollY w)%Z
       ∧ ∀ n c, n ≠ nb ∨ c ≠ "scrolled" → hasClass d' n c = hasClass (dom w) n c)
  ∧ (navbar (globals w) = None → handleNavbarScroll w = (inl (TypeError "navbar"), w)).
Proof.
  split.
  - intros nb Hnb Hlt.
    unfold handleNavbarScroll, global, classListAdd, classListRemove, modifyDom, modify,
      mbind, M_bind, gets. simpl.
    case_bool_decide; rewrite Hnb; simpl; eexists; (split; [reflexivity |]); split.
    + by apply hasClass_addClass_eq.
    + intros n c Hne. by apply hasClass_addClass_ne.
    + by apply hasClass_removeClass_eq.
    + intros n c Hne. by apply hasClass_removeClass_ne.
  - intros Hnb.
    unfold handleNavbarScroll, global, mbind, M_bind, gets. simpl.
    case_bool_decide; by rewrite Hnb.
Qed.

Lemma navbar_scrolled_past_threshold_witness :
  ∃ d', handleNavbarScroll loadedScrolled = (inr tt, set_dom d' loadedScrolled)
        ∧ hasClass d' 2 "scrolled" = true.
Proof.
  destruct (proj1 (navbar_scrolled_past_threshold loadedScrolled) 2) as (d' & H1 & H2 & _).
  - reflexivity.
  - vm_compute. lia.
  - exists d'. split; [exact H1 |]. rewrite H2. reflexivity.
Defined.

(** ** The mobile menu: toggling and dismissal *)

Lemma attr_putAttribute_eq (d : Document) (n : NodeId) (k v : string) :
  n < length d → attr (putAttribute n k v d) n k = Some v.
Proof.
  intros H. destruct (lookup_lt_is_Some_2 d n H) as [e He].
  unfold attr, putAttribute. rewrite list_lookup_alter_eq, He. simpl. apply lookup_insert_eq.
Qed.

Lemma attr_putAttribute_ne (d : Document) (n m : NodeId) (k k' v : string) :
  m ≠ n ∨ k' ≠ k → attr (putAttribute n k v d) m k' = attr d m k'.
Proof.
  intros H. unfold attr, putAttribute. destruct (decide (m = n)) as [-> | Hne].
  - rewrite list_lookup_alter_eq. destruct (d !! n) as [e|]; simpl; [| done].
    apply lookup_insert_ne. naive_solver.
  - by rewrite list_lookup_alter_ne.
Qed.

Lemma attr_alter_classes (f : list string → list string) (d : Document) (n m : NodeId) (k : string) :
  attr (alter (withClassList f) n d) m k = attr d m k.
Proof.
  unfold attr. destruct (decide (m = n)) as [-> | Hne].
  - rewrite list_lookup_alter_eq. by destruct (d !! n).
  - by rewrite list_lookup_alter_ne.
Qed.

Lemma length_putAttribute (d : Document) (n : NodeId) (k v : string) :
  length (putAttribute n k v d) = length d.
Proof. apply length_alter. Qed.

Lemma length_addClass (d : Document) (n : NodeId) (c : string) : length (addClass n c d) = length d.
Proof. apply length_alter. Qed.

Lemma length_removeClass (d : Document) (n : NodeId) (c : string) :
  length (removeClass n c d) = length d.
Proof. apply length_alter. Qed.

Lemma openedMenu_facts (mm mt icon : NodeId) (d : Document) :
  mt < length d → icon < length d →
  hasClass (openedMenu mm mt icon d) mt "active" = true
  ∧ attr (openedMenu mm mt icon d) mt "aria-expanded" = Some "true"
  ∧ attr (openedMenu mm mt icon d) icon "d" = Some "M6 18L18 6M6 6l12 12".
Proof.
  intros Hmt Hicon. unfold openedMenu. split_and!.
  - rewrite !hasClass_putAttribute. apply hasClass_addClass_eq.
    by rewrite length_addClass, length_removeClass.
  - rewrite attr_putAttribute_ne by (by right). apply attr_putAttribute_eq.
    by rewrite !length_addClass, length_removeClass.
  - apply attr_putAttribute_eq.
    by rewrite length_putAttribute, !length_addClass, length_removeClass.
Qed.

Lemma closedMenu_facts (mm mt icon : NodeId) (d : Document) :
  mt < length d → icon < length d →
  hasClass (closedMenu mm mt icon d) mt "active" = false
  ∧ attr (closedMenu mm mt icon d) mt "aria-expanded" = Some "false"
  ∧ attr (closedMenu mm mt icon d) icon "d" = Some "M4 6h16M4 12h16M4 18h16"
  ∧ hasClass (closedMenu mm mt icon d) mm "hidden" = hasClass d mm "hidden".
Proof.
  intros Hmt Hicon. unfold closedMenu. split_and!.
  - rewrite !hasClass_putAttribute. apply hasClass_removeClass_eq.
  - rewrite attr_putAttribute_ne by (by right). apply attr_putAttribute_eq.
    by rewrite !length_removeClass.
  - apply attr_putAttribute_eq. by rewrite length_putAttribute, !length_removeClass.
  - rewrite !hasClass_putAttribute. by rewrite !hasClass_removeClass_ne by (by right).
Qed.

Lemma toggleMobileMenu_run (w : World) (mm mt icon : NodeId) :
  menuReady w mm mt icon →
  toggleMobileMenu w
  = if hasClass (dom w) mm "open" then closeMobileMenu w else openMobileMenu w.
Proof.
  intros (Hmm & _). unfold toggleMobileMenu, global, classListContains, mbind, M_bind, gets.
  simpl. rewrite Hmm. simpl. by destruct (hasClass (dom w) mm "open").
Qed.

(** X2: [toggleMobileMenu] switches the menu between its two states and
    keeps the toggle in step with the panel.  Afterwards the panel is open
    exactly when it was not before; the toggle is [active], its
    [aria-expanded] is [true] and the icon is the cross exactly when the
    panel is open.  Opening shows the panel at once and sets no timer;
    closing leaves the panel displayed and sets the 300 ms timer that hides
    it. *)
Theorem toggleMobileMenu_switches (w : World) (mm mt icon : NodeId) :
  menuReady w mm mt icon → mt < length (dom w) → icon < length (dom w) →
  ∃ w', toggleMobileMenu w = (inr tt, w')
    ∧ hasClass (dom w') mm "open" = negb (hasClass (dom w) mm "open")
    ∧ hasClass (dom w') mt "active" = hasClass (dom w') mm "open"
    ∧ attr (dom w') mt "aria-expanded"
      = Some (if hasClass (dom w') mm "open" then "true" else "false")
    ∧ attr (dom w') icon "d"
      = Some (if hasClass (dom w') mm "open"
              then "M6 18L18 6M6 6l12 12" else "M4 6h16M4 12h16M4 18h16")
    ∧ (hasClass (dom w') mm "open" = true →
       hasClass (dom w') mm "hidden" = false ∧ timers w' = timers w)
    ∧ (hasClass (dom w') mm "open" = false →
       hasClass (dom w') mm "hidden" = hasClass (dom w) mm "hidden"
       ∧ timers w' = timers w ++ [mkTimer (now w + 300) CbHideMenu]).
Proof.
  intros R Hmt Hicon. rewrite (toggleMobileMenu_run w mm mt icon R).
  destruct (hasClass (dom w) mm "open") eqn:E.
  - rewrite (closeMobileMenu_run w mm mt icon R). eexists. split; [reflexivity |]. simpl.
    destruct (closedMenu_facts mm mt icon (dom w) Hmt Hicon) as (A & B & C & D).
    rewrite closedMenu_closed. by split_and!.
  - rewrite (openMobileMenu_run w mm mt icon R). eexists. split; [reflexivity |]. simpl.
    destruct R as (_ & _ & _ & Hlt).
    destruct (openedMenu_facts mm mt icon (dom w) Hmt Hicon) as (A & B & C).
    destruct (openedMenu_open mm mt icon (dom w) Hlt) as [O Hd].
    rewrite O. by split_and!.
Qed.

Lemma toggleMobileMenu_switches_witness :
  ∃ w', toggleMobileMenu loaded = (inr tt, w') ∧ hasClass (dom w') 7 "open" = true.
Proof.
  destruct (toggleMobileMenu_switches loaded 7 5 6) as (w' & H1 & H2 & _).
  - vm_compute. split_and!; try reflexivity. lia.
  - vm_compute. lia.
  - vm_compute. lia.
  - exists w'. split; [exact H1 |]. rewrite H2. reflexivity.
Defined.

Lemma clickOutside_run (w : World) (mm mt : NodeId) :
  mobileMenu (globals w) = Some mm → menuToggle (globals w) = Some mt →
  clickOutside w
  = if hasClass (dom w) mm "open" && negb (clickedInside w mm) && negb (clickedInside w mt)
    then closeMobileMenu w else (inr tt, w).
Proof.
  intros Hmm Hmt. unfold clickOutside, clickedInside, global, classListContains, when,
    mbind, M_bind, gets. simpl. rewrite Hmm. simpl.
  destruct (hasClass (dom w) mm "open"); simpl; [| done].
  destruct (target (event w)) as [t|]; simpl.
  - destruct (contains (dom w) mm t); simpl; [done |]. rewrite Hmt. simpl.
    by destruct (contains (dom w) mt t).
  - by rewrite Hmt.
Qed.

(** X3: the click listener of the document closes the menu only when the
    menu is open and the click landed outside both the panel and the toggle;
    in every other case it changes nothing.  In particular it never undoes
    the toggle's own listener: after [toggleMobileMenu] has handled a click
    on the toggle, the document's listener leaves the world as it is. *)
Theorem menu_dismissed_by_outside_click (w : World) (mm mt icon : NodeId) :
  menuReady w mm mt icon →
  (hasClass (dom w) mm "open" = false ∨ clickedInside w mm = true ∨ clickedInside w mt = true →
   clickOutside w = (inr tt, w))
  ∧ (hasClass (dom w) mm "open" = true → clickedInside w mm = false →
     clickedInside w mt = false →
     ∃ w', clickOutside w = (inr tt, w')
       ∧ hasClass (dom w') mm "open" = false
       ∧ timers w' = timers w ++ [mkTimer (now w + 300) CbHideMenu])
  ∧ (clickedInside w mt = true →
     ∀ w', toggleMobileMenu w = (inr tt, w') → clickOutside w' = (inr tt, w')).
Proof.
  intros R. pose proof R as (Hmm & Hmt & Hicon & Hlt). split_and!.
  - intros H. rewrite (clickOutside_run w mm mt Hmm Hmt).
    destruct H as [-> | [-> | ->]]; simpl; [done | |].
    + by rewrite andb_false_r.
    + by rewrite andb_false_r.
  - intros Ho Hi Ht. rewrite (clickOutside_run w mm mt Hmm Hmt), Ho, Hi, Ht. simpl.
    rewrite (closeMobileMenu_run w mm mt icon R). eexists. split; [reflexivity |]. simpl.
    by rewrite closedMenu_closed.
  - intros Ht w' Hw'. rewrite (toggleMobileMenu_run w mm mt icon R) in Hw'.
    destruct (hasClass (dom w) mm "open") eqn:E.
    + rewrite (closeMobileMenu_run w mm mt icon R) in Hw'. injection Hw' as <-.
      rewrite (clickOutside_run _ mm mt) by done. simpl. by rewrite closedMenu_closed.
    + rewrite (openMobileMenu_run w mm mt icon R) in Hw'. injection Hw' as <-.
      rewrite (clickOutside_run _ mm mt) by done.
      assert (clickedInside (set_dom (openedMenu mm mt icon (dom w)) w) mt = true) as ->.
      { unfold clickedInside in *. simpl. destruct (target (event w)) as [t|]; [| done].
        by rewrite (sameBut_contains _ _ _ _ _ _ (openedMenu_same mm mt icon (dom w))). }
      by rewrite andb_false_r.
Qed.

Lemma menu_dismissed_by_outside_click_witness :
  let opened := set_event (mkEvent (Some 9) "" false false) (perform toggleMobileMenu loaded) in
  ∃ w', clickOutside opened = (inr tt, w') ∧ hasClass (dom w') 7 "open" = false.
Proof.
  intros opened.
  destruct (proj1 (proj2 (menu_dismissed_by_outside_click opened 7 5 6
              ltac:(vm_compute; split_and!; try reflexivity; lia))))
    as (w' & H1 & H2 & _); [reflexivity.. |].
  exists w'. split; [exact H1 | exact H2].
Defined.






(** ** Smooth scroll to a target that exists *)

(** X5: a click on a link whose [href] does not start with [#] is left to
    the browser: nothing changes and the default action is not prevented.
    A click on an in-page link whose target exists prevents the default
    action, asks for one scroll, to the target's top less the height of the
    navigation bar, and leaves the menu closed: an open menu is closed (with
    its 300 ms timer), a closed one is not touched. *)
Theorem smooth_scroll_to_target (w : World) (link : NodeId) (href : string) :
  attr (dom w) link "href" = Some href →
  (JsString.startsWith "#" href = false → handleSmoothScroll (Some link) w = (inr tt, w))
  ∧ (∀ t nb mm mt icon,
       JsString.startsWith "#" href = true →
       getElementById (dom w) (JsString.substring1 href) = Some t →
       navbar (globals w) = Some nb →
       menuReady w mm mt icon →
       ∃ w', handleSmoothScroll (Some link) w = (inr tt, w')
         ∧ defaultPrevented (event w') = true
         ∧ scrolls w' = scrolls w ++ [(measure offsetTop (dom w) t
                                       - measure offsetHeight (dom w) nb)%Z]
         ∧ hasClass (dom w') mm "open" = false
         ∧ (hasClass (dom w) mm "open" = false → dom w' = dom w ∧ timers w' = timers w)
         ∧ (hasClass (dom w) mm "open" = true →
            timers w' = timers w ++ [mkTimer (now w + 300) CbHideMenu])).
Proof.
  intros Hhref. split.
  - intros Hs. unfold handleSmoothScroll, getAttribute, when, mbind, M_bind, gets. simpl.
    by rewrite Hhref, Hs.
  - intros t nb mm mt icon Hs Ht Hnb R. pose proof R as (Hmm & _).
    unfold handleSmoothScroll, getAttribute, byId, metric, global, classListContains,
      scrollTo, preventDefault, modify, when, mbind, M_bind, gets. simpl.
    rewrite Hhref, Hs. simpl. rewrite Ht. simpl. rewrite Hnb. simpl. rewrite Hmm. simpl.
    destruct (hasClass (dom w) mm "open") eqn:E.
    + match goal with |- context [closeMobileMenu ?x] =>
        rewrite (closeMobileMenu_run x mm mt icon R) end.
      eexists. split; [reflexivity |]. simpl. rewrite closedMenu_closed. by split_and!.
    + eexists. split; [reflexivity |]. simpl. by split_and!.
Qed.

Lemma smooth_scroll_to_target_witness :
  ∃ w', handleSmoothScroll (Some 4) loaded = (inr tt, w') ∧ scrolls w' = [520%Z].
Proof.
  destruct (proj2 (smooth_scroll_to_target loaded 4 "#about" eq_refl) 10 2 7 5 6)
    as (w' & H1 & _ & H2 & _).
  - reflexivity.
  - reflexivity.
  - reflexivity.
  - vm_compute. split_and!; try reflexivity. lia.
  - exists w'. split; [exact H1 | exact H2].
Defined.

(** ** Throttled listeners *)

Lemma throttled_run (c : nat) (limit : Z) (func : Callback) (this : option NodeId) (w : World) :
  runCallback (CbThrottled c limit func) this w
  = if default false (cells w !! c) then (inr tt, w)
    else match runCallback func this w with
         | (inl e, w') => (inl e, w')
         | (inr _, w') =>
             (inr tt, set_timers (timers w' ++ [mkTimer (now w' + limit) (CbThrottleReset c)])
                        (set_cells (<[c := true]> (cells w')) w'))
         end.
Proof.
  simpl. unfold readCell, writeCell, setTimeout, modify, when, mbind, M_bind, gets. simpl.
  destruct (default false (cells w !! c)); simpl; [done |].
  by destruct (runCallback func this w) as [[e|[]] w'].
Qed.

(** X6: a throttled listener runs its function on the first event and
    then drops every event until its timer has reset it.  With the function
    returning normally on the first event: the call sets the flag and one
    timer, [limit] ms ahead; a further event changes nothing but the event
    object; the timer cannot fire before [limit] ms have passed; once it
    has fired the flag is clear again.  When the function throws, the flag
    is not set and no timer is started, so the next event runs it again. *)
Theorem throttled_listener_window (w : World) (i c : nat) (limit : Z) (func : Callback)
    (l : Listener) (e : Event) :
  listeners w !! i = Some l →
  handler l = CbThrottled c limit func →
  onType l ≠ "DOMContentLoaded" →
  cells w !! c = Some false →
  (0 ≤ limit)%Z →
  (∀ w1, runCallback func (thisOf l) (dispatched e w) = (inr tt, w1) →
     listeners w1 !! i = Some l → c < length (cells w1) →
     let after := exec (Deliver i e) w in
     after = set_timers (timers w1 ++ [mkTimer (now w1 + limit) (CbThrottleReset c)])
               (set_cells (<[c := true]> (cells w1)) w1)
     ∧ (∀ e', exec (Deliver i e') after = dispatched e' after)
     ∧ (∀ dt, (0 ≤ dt < limit)%Z →
          exec (Fire (length (timers w1))) (exec (Advance dt) after) = exec (Advance dt) after)
     ∧ cells (exec (Fire (length (timers w1))) (exec (Advance limit) after)) !! c = Some false
     ∧ timers (exec (Fire (length (timers w1))) (exec (Advance limit) after)) = timers w1)
  ∧ (∀ err w1, runCallback func (thisOf l) (dispatched e w) = (inl err, w1) →
       exec (Deliver i e) w = set_uncaught (uncaught w1 ++ [err]) w1).
Proof.
  intros Hl Hh Hty Hc Hlimit.
  assert (Hexec : exec (Deliver i e) w
                  = perform (runCallback (CbThrottled c limit func) (thisOf l)) (dispatched e w)).
  { simpl. rewrite Hl. rewrite bool_decide_eq_false_2 by done. unfold deliver. by rewrite Hh. }
  split.
  - intros w1 Hrun Hl1 Hc1 after.
    assert (Hafter : after = set_timers (timers w1 ++ [mkTimer (now w1 + limit) (CbThrottleReset c)])
                               (set_cells (<[c := true]> (cells w1)) w1)).
    { unfold after. rewrite Hexec. unfold perform. rewrite throttled_run.
      change (cells (dispatched e w)) with (cells w). rewrite Hc. cbn [default].
      by rewrite Hrun. }
    split; [exact Hafter |]. rewrite Hafter. split_and!.
    + intros e'. simpl. rewrite Hl1. rewrite bool_decide_eq_false_2 by done.
      unfold deliver. rewrite Hh. unfold perform. rewrite throttled_run. simpl.
      by rewrite list_lookup_insert_eq.
    + intros dt Hdt. simpl. rewrite bool_decide_eq_true_2 by lia. simpl.
      rewrite lookup_last. simpl. by rewrite bool_decide_eq_false_2 by lia.
    + simpl. rewrite bool_decide_eq_true_2 by lia. simpl.
      rewrite lookup_last. simpl. rewrite bool_decide_eq_true_2 by lia.
      unfold perform, writeCell, modify. simpl.
      apply list_lookup_insert_eq. by rewrite length_insert.
    + simpl. rewrite bool_decide_eq_true_2 by lia. simpl.
      rewrite lookup_last. simpl. rewrite bool_decide_eq_true_2 by lia.
      unfold perform, writeCell, modify. simpl. apply delete_last.
  - intros err w1 Hrun. rewrite Hexec. unfold perform. rewrite throttled_run.
    change (cells (dispatched e w)) with (cells w). rewrite Hc. cbn [default].
    by rewrite Hrun.
Qed.

Lemma throttled_listener_window_witness :
  exec (Deliver 0 (mkEvent (Some 3) "" false false))
    (exec (Deliver 0 (mkEvent None "" false false)) loadedScrolled)
  = dispatched (mkEvent (Some 3) "" false false)
      (exec (Deliver 0 (mkEvent None "" false false)) loadedScrolled).
Proof.
  destruct (throttled_listener_window loadedScrolled 0 0 100 CbScrollChrome
              (mkListener Window "scroll" (CbThrottled 0 100 CbScrollChrome))
              (mkEvent None "" false false)) as [H _].
  - reflexivity.
  - reflexivity.
  - discriminate.
  - reflexivity.
  - lia.
  - destruct (H (runCallback CbScrollChrome None
                   (dispatched (mkEvent None "" false false) loadedScrolled)).2)
      as (_ & H2 & _).
    + by vm_compute.
    + reflexivity.
    + vm_compute. lia.
    + exact (H2 (mkEvent (Some 3) "" false false)).
Defined.



(** ** Loops that only write the document *)

Lemma forEach_dom {A} (f : A → M unit) (g : A → Document → Document) (l : list A) :
  (∀ x w, f x w = (inr tt, set_dom (g x (dom w)) w)) →
  ∀ w, forEach f l w = (inr tt, set_dom (foldl (λ d x, g x d) (dom w) l) w).
Proof.
  intros Hf. induction l as [|x l IH]; intros w; simpl.
  - by rewrite set_dom_id.
  - unfold mbind, M_bind. rewrite Hf, IH. done.
Qed.

Lemma length_foldl_dom {A} (g : A → Document → Document) (l : list A) (d : Document) :
  (∀ x d, length (g x d) = length d) → length (foldl (λ d x, g x d) d l) = length d.
Proof.
  intros Hg. revert d. induction l as [|x l IH]; intros d; simpl; [done |].
  by rewrite IH, Hg.
Qed.

(** Adding one class to each node of a list. *)
Lemma hasClass_foldl_addClass_other (c : string) (l : list NodeId) (d : Document) (n : NodeId)
    (c' : string) :
  n ∉ l ∨ c' ≠ c → hasClass (foldl (λ d x, addClass x c d) d l) n c' = hasClass d n c'.
Proof.
  revert d. induction l as [|x l IH]; intros d H; simpl; [done |].
  rewrite IH by set_solver. apply hasClass_addClass_ne. set_solver.
Qed.

Lemma hasClass_foldl_addClass_keeps (c : string) (l : list NodeId) (d : Document) (n : NodeId)
    (c' : string) :
  hasClass d n c' = true → hasClass (foldl (λ d x, addClass x c d) d l) n c' = true.
Proof.
  revert d. induction l as [|x l IH]; intros d H; simpl; [done |].
  apply IH. by apply hasClass_addClass_mono.
Qed.

Lemma hasClass_foldl_addClass_in (c : string) (l : list NodeId) (d : Document) (n : NodeId) :
  n ∈ l → n < length d → hasClass (foldl (λ d x, addClass x c d) d l) n c = true.
Proof.
  revert d. induction l as [|x l IH]; intros d Hin Hlt; simpl; [set_solver |].
  destruct (decide (n = x)) as [-> | Hne].
  - apply hasClass_foldl_addClass_keeps. by apply hasClass_addClass_eq.
  - apply IH; [set_solver | by rewrite length_addClass].
Qed.

(** ** Scroll animations *)

Lemma set_observed_id (w : World) : set_observed (observed w) w = w.
Proof. by destruct w. Qed.

Lemma observe_all (l : list NodeId) (w : World) :
  ∃ seen, forEach observe l w = (inr tt, set_observed seen w)
    ∧ ∀ el, el ∈ seen ↔ el ∈ observed w ∨ el ∈ l.
Proof.
  revert w. induction l as [|x l IH]; intros w; simpl.
  - exists (observed w). rewrite set_observed_id. split; [done |]. set_solver.
  - unfold mbind, M_bind, observe at 1, modify. case_bool_decide as Hx.
    + destruct (IH w) as (seen & -> & Hseen). exists seen. split; [done |].
      intros el. rewrite Hseen. set_solver.
    + destruct (IH (set_observed (observed w ++ [x]) w)) as (seen & -> & Hseen).
      exists seen. split; [done |]. intros el. rewrite Hseen. simpl. set_solver.
Qed.

(** X7: [initScrollAnimations].  In a browser without
    [IntersectionObserver] every fade element is made visible at once, no
    other class changes and nothing is observed; with it no class changes
    and exactly the fade elements are added to the observed ones. *)
Theorem fade_elements_shown_or_observed (w : World) :
  (intersectionObserver w = false →
   ∃ d', initScrollAnimations w = (inr tt, set_dom d' w)
     ∧ (∀ el, el ∈ fadeElements (globals w) → el < length (dom w) →
          hasClass d' el "visible" = true)
     ∧ (∀ n c, n ∉ fadeElements (globals w) ∨ c ≠ "visible" →
          hasClass d' n c = hasClass (dom w) n c))
  ∧ (intersectionObserver w = true →
     ∃ seen, initScrollAnimations w = (inr tt, set_observed seen w)
       ∧ ∀ el, el ∈ seen ↔ el ∈ observed w ∨ el ∈ fadeElements (globals w)).
Proof.
  split; intros Hs; unfold initScrollAnimations, mbind, M_bind, gets; simpl; rewrite Hs; simpl.
  - rewrite (forEach_dom _ (λ el, addClass el "visible")) by done.
    eexists. split; [reflexivity |]. split.
    + intros el Hel Hlt. by apply hasClass_foldl_addClass_in.
    + intros n c Hne. by apply hasClass_foldl_addClass_other.
  - apply observe_all.
Qed.

Lemma fade_elements_shown_or_observed_witness :
  ∃ d', initScrollAnimations landedPlain = (inr tt, set_dom d' landedPlain)
        ∧ hasClass d' 11 "visible" = true.
Proof.
  assert (Hplain : intersectionObserver landedPlain = false) by (vm_compute; reflexivity).
  destruct (proj1 (fade_elements_shown_or_observed landedPlain) Hplain) as (d' & H1 & H2 & _).
  exists d'. split; [exact H1 |]. apply H2.
  - apply (bool_decide_unpack _). by vm_compute.
  - apply (bool_decide_unpack _). by vm_compute.
Defined.

Lemma filter_all {A} (P : A → Prop) `{!∀ x, Decision (P x)} (l : list A) :
  (∀ x, P x) → filter P l = l.
Proof.
  intros HP. induction l as [|x l IH]; [done |]. by rewrite filter_cons_True, IH.
Qed.

Lemma intersectionCallback_run (entries : list (NodeId * bool)) (w : World) :
  intersectionCallback entries w
  = (inr tt,
     set_observed (filter (λ x, (x, true) ∉ entries) (observed w))
       (set_dom (foldl (λ d x, addClass x "visible" d) (dom w)
                   ((filter (λ entry, entry.2 = true) entries).*1)) w)).
Proof.
  unfold intersectionCallback. revert w. induction entries as [|[el b] entries IH]; intros w.
  - simpl. rewrite filter_all by set_solver. by destruct w.
  - rewrite forEach_cons. unfold mbind, M_bind. destruct b; simpl.
    + unfold classListAdd, modifyDom, unobserve, modify, mbind, M_bind. simpl.
      rewrite IH. simpl. f_equal. unfold set_observed, set_dom. simpl. f_equal.
      rewrite list_filter_filter. apply list_filter_iff. intros x. set_solver.
    + rewrite IH. f_equal. unfold set_observed, set_dom. simpl. f_equal.
      apply list_filter_iff. intros x. set_solver.
Qed.

(** X8: the observer's callback makes every reported element that
    intersects visible and stops observing it; an element that is not
    reported as intersecting keeps its classes and stays observed if it was;
    no class other than [visible] changes. *)
Theorem intersecting_elements_are_revealed (entries : list (NodeId * bool)) (w : World) :
  ∃ d' seen, intersectionCallback entries w = (inr tt, set_observed seen (set_dom d' w))
    ∧ (∀ el, (el, true) ∈ entries →
         (el ∉ seen) ∧ (el < length (dom w) → hasClass d' el "visible" = true))
    ∧ (∀ el, (el, true) ∉ entries →
         (el ∈ seen ↔ el ∈ observed w)
         ∧ hasClass d' el "visible" = hasClass (dom w) el "visible")
    ∧ (∀ n c, c ≠ "visible" → hasClass d' n c = hasClass (dom w) n c).
Proof.
  eexists _, _. split; [apply intersectionCallback_run |]. split_and!.
  - intros el Hel. split.
    + rewrite list_elem_of_filter. naive_solver.
    + intros Hlt. apply hasClass_foldl_addClass_in; [| done].
      apply list_elem_of_fmap. exists (el, true). split; [done |].
      by apply list_elem_of_filter.
  - intros el Hel. split.
    + rewrite list_elem_of_filter. naive_solver.
    + apply hasClass_foldl_addClass_other. left.
      rewrite list_elem_of_fmap. intros ([x b] & -> & Hx).
      apply list_elem_of_filter in Hx as [Hb Hx]. simpl in *. by subst.
  - intros n c Hc. apply hasClass_foldl_addClass_other. by right.
Qed.



(** ** The active navigation link *)

Lemma currentSectionOf_snoc (d : Document) (p : Z) (l : list NodeId) (s : NodeId) :
  currentSectionOf d p (l ++ [s])
  = if spans d p s then idValue d s else currentSectionOf d p l.
Proof.
  unfold currentSectionOf. rewrite fold_left_app. simpl.
  unfold spans, idValue, attr. destruct (d !! s) as [e|]; simpl; [| done].
  by destruct (_ && _).
Qed.

Lemma currentSectionOf_none (d : Document) (p : Z) (l : list NodeId) :
  (∀ s, s ∈ l → spans d p s = false) → currentSectionOf d p l = Str "".
Proof.
  induction l as [|s l IH] using rev_ind; intros H; [done |].
  rewrite currentSectionOf_snoc, H by set_solver. apply IH. set_solver.
Qed.

Lemma currentSectionOf_last (d : Document) (p : Z) (before after : list NodeId) (s : NodeId) :
  spans d p s = true → (∀ s', s' ∈ after → spans d p s' = false) →
  currentSectionOf d p (before ++ s :: after) = idValue d s.
Proof.
  induction after as [|s' after IH] using rev_ind; intros Hs Hafter.
  - by rewrite currentSectionOf_snoc, Hs.
  - rewrite app_comm_cons, app_assoc, currentSectionOf_snoc.
    rewrite Hafter by set_solver. apply IH; [done |]. set_solver.
Qed.

(** X9: the section loop of [updateActiveNavLink].  When no section spans
    the position the current section is the empty string; otherwise it is
    the [id] of the last section, in the order of the list, whose span holds
    the position, so that of two overlapping sections the later one wins. *)
Theorem current_section_is_last_match (d : Document) (position : Z) (sections : list NodeId) :
  ((∀ s, s ∈ sections → spans d position s = false) →
   currentSectionOf d position sections = Str "")
  ∧ (∀ before s after,
       sections = before ++ s :: after →
       spans d position s = true →
       (∀ s', s' ∈ after → spans d position s' = false) →
       currentSectionOf d position sections = idValue d s).
Proof.
  split.
  - apply currentSectionOf_none.
  - intros before s after -> Hs Hafter. by apply currentSectionOf_last.
Qed.

Lemma current_section_is_last_match_witness :
  currentSectionOf Sample.page 680 [9; 10] = Str "about".
Proof.
  apply (proj2 (current_section_is_last_match Sample.page 680 [9; 10]) [9] 10 []).
  - reflexivity.
  - reflexivity.
  - intros s' Hs'. by apply elem_of_nil in Hs'.
Defined.

Lemma attr_addClass (d : Document) (n m : NodeId) (c k : string) :
  attr (addClass n c d) m k = attr d m k.
Proof. apply attr_alter_classes. Qed.

Lemma attr_removeClass (d : Document) (n m : NodeId) (c k : string) :
  attr (removeClass n c d) m k = attr d m k.
Proof. apply attr_alter_classes. Qed.

Lemma attr_markLink (target : string) (link : NodeId) (d : Document) (m : NodeId) (k : string) :
  attr (markLink target link d) m k = attr d m k.
Proof.
  unfold markLink. case_bool_decide; by rewrite ?attr_addClass, ?attr_removeClass.
Qed.

Lemma length_markLink (target : string) (link : NodeId) (d : Document) :
  length (markLink target link d) = length d.
Proof.
  unfold markLink. case_bool_decide; by rewrite ?length_addClass, ?length_removeClass.
Qed.

Lemma hasClass_markLink_other (target : string) (link : NodeId) (d : Document) (n : NodeId)
    (c : string) :
  n ≠ link ∨ c ≠ "text-secondary" → hasClass (markLink target link d) n c = hasClass d n c.
Proof.
  intros H. unfold markLink.
  case_bool_decide; by rewrite ?hasClass_addClass_ne, ?hasClass_removeClass_ne by done.
Qed.

Lemma hasClass_markLink_eq (target : string) (link : NodeId) (d : Document) :
  link < length d →
  hasClass (markLink target link d) link "text-secondary"
  = bool_decide (attr d link "href" = Some target).
Proof.
  intros Hlt. unfold markLink. case_bool_decide.
  - apply hasClass_addClass_eq. by rewrite length_removeClass.
  - apply hasClass_removeClass_eq.
Qed.

Lemma markLinks_spec (target : string) (links : list NodeId) (d : Document) :
  NoDup links →
  let d' := foldl (λ d link, markLink target link d) d links in
  (∀ link, link ∈ links → link < length d →
     hasClass d' link "text-secondary" = bool_decide (attr d link "href" = Some target))
  ∧ (∀ n c, n ∉ links ∨ c ≠ "text-secondary" → hasClass d' n c = hasClass d n c)
  ∧ (∀ n k, attr d' n k = attr d n k).
Proof.
  intros Hnd. revert d. induction Hnd as [|x links Hx Hnd IH]; intros d; simpl.
  - split_and!; [set_solver | done | done].
  - destruct (IH (markLink target x d)) as (H1 & H2 & H3). split_and!.
    + intros link Hin Hlt. apply elem_of_cons in Hin as [-> | Hin].
      * rewrite H2 by (by left). by apply hasClass_markLink_eq.
      * rewrite H1 by (by rewrite ?length_markLink). by rewrite attr_markLink.
    + intros n c Hn. rewrite H2 by set_solver. apply hasClass_markLink_other. set_solver.
    + intros n k. by rewrite H3, attr_markLink.
Qed.

Lemma updateActiveNavLink_run (w : World) (nb : NodeId) :
  navbar (globals w) = Some nb →
  updateActiveNavLink w
  = (inr tt,
     set_dom
       (foldl (λ d link,
                 markLink ("#" +:+ toString
                             (currentSectionOf (dom w)
                                (scrollY w + measure offsetHeight (dom w) nb + 100)
                                (querySelectorAll (dom w) [Sel [STag "section"; SHasAttr "id"]])))
                   link d)
          (dom w)
          (querySelectorAll (dom w) [Desc [SId "navbar"] [STag "a"; SAttrPrefix "href" "#"]]))
       w).
Proof.
  intros Hnb. unfold updateActiveNavLink, queryAll, global, metric, mbind, M_bind, gets. simpl.
  rewrite Hnb. simpl. apply forEach_dom. intros link w'.
  unfold classListRemove, classListAdd, getAttribute, modifyDom, modify, when, markLink,
    mbind, M_bind, gets. simpl. rewrite attr_removeClass. unfold measure.
  by case_bool_decide.
Qed.

(** X10: [updateActiveNavLink] leaves a link of the navigation bar marked
    [text-secondary] exactly when its [href] is [#] followed by the current
    section, changes no other class and nothing but the document.  When no
    section spans the position the current section is empty, and the links
    it marks are those whose [href] is the bare [#].  Without a navigation
    bar it throws. *)
Theorem active_link_names_current_section (w : World) :
  let sections := querySelectorAll (dom w) [Sel [STag "section"; SHasAttr "id"]] in
  let links := querySelectorAll (dom w) [Desc [SId "navbar"] [STag "a"; SAttrPrefix "href" "#"]] in
  (∀ nb, navbar (globals w) = Some nb →
     let position := (scrollY w + measure offsetHeight (dom w) nb + 100)%Z in
     let current := currentSectionOf (dom w) position sections in
     ∃ d', updateActiveNavLink w = (inr tt, set_dom d' w)
       ∧ (∀ link, link ∈ links →
            hasClass d' link "text-secondary"
            = bool_decide (attr (dom w) link "href" = Some ("#" +:+ toString current)))
       ∧ (∀ n c, n ∉ links ∨ c ≠ "text-secondary" → hasClass d' n c = hasClass (dom w) n c)
       ∧ ((∀ s, s ∈ sections → spans (dom w) position s = false) →
          ∀ link, link ∈ links →
            hasClass d' link "text-secondary" = bool_decide (attr (dom w) link "href" = Some "#")))
  ∧ (navbar (globals w) = None →
     updateActiveNavLink w = (inl (TypeError "navbar"), w)).
Proof.
  intros sections links. split.
  - intros nb Hnb position current.
    rewrite (updateActiveNavLink_run w nb Hnb). eexists. split; [reflexivity |].
    destruct (markLinks_spec ("#" +:+ toString current) links (dom w)
                (NoDup_querySelectorAll _ _)) as (H1 & H2 & _).
    assert (Hlt : ∀ link, link ∈ links → link < length (dom w)).
    { intros link Hin. apply elem_of_querySelectorAll in Hin as [_ Hm].
      by apply matches_lt in Hm. }
    split_and!.
    + intros link Hin. apply H1; [done | by apply Hlt].
    + exact H2.
    + intros Hnone link Hin. rewrite H1 by (try done; by apply Hlt).
      unfold current. by rewrite (currentSectionOf_none _ _ _ Hnone).
  - intros Hnb. unfold updateActiveNavLink, queryAll, global, mbind, M_bind, gets. simpl.
    by rewrite Hnb.
Qed.

Lemma active_link_names_current_section_witness :
  ∃ d', updateActiveNavLink loadedScrolled = (inr tt, set_dom d' loadedScrolled)
        ∧ hasClass d' 4 "text-secondary" = true ∧ hasClass d' 3 "text-secondary" = false.
Proof.
  destruct (proj1 (active_link_names_current_section loadedScrolled) 2
              ltac:(vm_compute; reflexivity))
    as (d' & H1 & H2 & _).
  exists d'. split; [exact H1 |]. split.
  - rewrite H2; [by vm_compute |]. apply (bool_decide_unpack _). by vm_compute.
  - rewrite H2; [by vm_compute |]. apply (bool_decide_unpack _). by vm_compute.
Defined.



(** ** Validation feedback on the fields *)

(** X11: the blur listener of a field marks a valid field green and not
    red, an invalid field that holds text red and not green, and leaves an
    invalid empty field as it is; the input listener only ever removes the
    red mark, and only from a valid field.  Neither touches another class
    or another element. *)
Theorem field_feedback_follows_validity (w : World) (field : NodeId) (e : Element) :
  dom w !! field = Some e →
  (∃ d', validationBlur (Some field) w = (inr tt, set_dom d' w)
     ∧ (valid e = true →
        hasClass d' field "border-red-500" = false
        ∧ hasClass d' field "border-green-500/50" = true)
     ∧ (valid e = false → value e ≠ "" →
        hasClass d' field "border-red-500" = true
        ∧ hasClass d' field "border-green-500/50" = false)
     ∧ (valid e = false → value e = "" → d' = dom w)
     ∧ (∀ n c, n ≠ field ∨ (c ≠ "border-red-500" ∧ c ≠ "border-green-500/50") →
          hasClass d' n c = hasClass (dom w) n c))
  ∧ (∃ d', validationInput (Some field) w = (inr tt, set_dom d' w)
       ∧ (valid e = true → hasClass d' field "border-red-500" = false)
       ∧ (valid e = false → d' = dom w)
       ∧ (∀ n c, n ≠ field ∨ c ≠ "border-red-500" →
            hasClass d' n c = hasClass (dom w) n c)).
Proof.
  intros He. assert (Hlt : field < length (dom w)) by (by eapply lookup_lt_Some).
  split.
  - unfold validationBlur, classListAdd, classListRemove, modifyDom, modify, when,
      mbind, M_bind, gets. simpl. rewrite He.
    destruct (valid e) eqn:Hv; simpl.
    + eexists. split; [reflexivity |]. split_and!; try done.
      * intros _. split.
        -- rewrite hasClass_addClass_ne by (by right). apply hasClass_removeClass_eq.
        -- apply hasClass_addClass_eq. by rewrite length_removeClass.
      * intros n c Hn.
        rewrite hasClass_addClass_ne, hasClass_removeClass_ne by naive_solver. done.
    + unfold JsString.eqb. case_bool_decide as Hval; simpl.
      * exists (dom w). rewrite set_dom_id. by split_and!.
      * eexists. split; [reflexivity |]. split_and!; try done.
        -- intros _ _. split.
           ++ rewrite hasClass_removeClass_ne by (by right).
              by apply hasClass_addClass_eq.
           ++ apply hasClass_removeClass_eq.
        -- intros n c Hn.
           rewrite hasClass_removeClass_ne, hasClass_addClass_ne by naive_solver. done.
  - unfold validationInput, classListRemove, modifyDom, modify, when, mbind, M_bind, gets.
    simpl. rewrite He. destruct (valid e) eqn:Hv; simpl.
    + eexists. split; [reflexivity |]. split_and!; try done.
      * intros _. apply hasClass_removeClass_eq.
      * intros n c Hn. by apply hasClass_removeClass_ne.
    + exists (dom w). rewrite set_dom_id. by split_and!.
Qed.

Lemma field_feedback_follows_validity_witness :
  ∃ d', validationBlur (Some 12) (exec (Edit 12 "not an address" false) loaded)
        = (inr tt, set_dom d' (exec (Edit 12 "not an address" false) loaded))
        ∧ hasClass d' 12 "border-red-500" = true.
Proof.
  destruct (proj1 (field_feedback_follows_validity
                     (exec (Edit 12 "not an address" false) loaded) 12 _ eq_refl))
    as (d' & H1 & _ & H2 & _).
  exists d'. split; [exact H1 |]. apply H2; [reflexivity | discriminate].
Defined.

(** ** The submit button of the enhanced form *)

Lemma append_empty_r (s : string) : s +:+ "" = s.
Proof.
  induction s as [|a s IH]; [done |].
  change (String a s +:+ "") with (String a (s +:+ "")). by rewrite IH.
Qed.

Lemma parent_alter_text (s : string) (n c : NodeId) (d : Document) :
  alter (withText s) n d !! c ≫= parentNode = d !! c ≫= parentNode.
Proof.
  destruct (decide (c = n)) as [-> | Hne].
  - rewrite list_lookup_alter_eq. by destruct (d !! n).
  - by rewrite list_lookup_alter_ne.
Qed.

Lemma parent_writeTextContent (n c : NodeId) (s : string) (d : Document) :
  writeTextContent n s d !! c ≫= parentNode
  = if bool_decide (d !! c ≫= parentNode = Some n) then None else d !! c ≫= parentNode.
Proof. unfold writeTextContent. by rewrite parent_alter_text, parent_detachChildren. Qed.

(** The text of an element without children is the text it holds. *)
Lemma textContent_leaf (d : Document) (n : NodeId) (e : Element) :
  d !! n = Some e → (∀ c, d !! c ≫= parentNode ≠ Some n) → textContent d n = textData e.
Proof.
  intros He Hleaf. unfold textContent.
  destruct (length d) as [|fuel] eqn:Hlen.
  - apply lookup_lt_Some in He. lia.
  - simpl. rewrite He. rewrite filter_none; [apply append_empty_r |].
    intros c _ Hc. apply bool_decide_unpack in Hc. by apply (Hleaf c).
Qed.

Lemma textContent_writeTextContent (d : Document) (n : NodeId) (s : string) :
  n < length d → textContent (writeTextContent n s d) n = s.
Proof.
  intros Hlt. destruct (lookup_lt_is_Some_2 d n Hlt) as [e He].
  rewrite (textContent_leaf _ n (withText s (if bool_decide (parentNode e = Some n)
                                             then withParent None e else e))).
  - by case_bool_decide.
  - unfold writeTextContent. rewrite list_lookup_alter_eq, lookup_detachChildren, He. done.
  - intros c. rewrite parent_writeTextContent. case_bool_decide; [done |]. done.
Qed.

Lemma length_writeTextContent (d : Document) (n : NodeId) (s : string) :
  length (writeTextContent n s d) = length d.
Proof. unfold writeTextContent, detachChildren. by rewrite length_alter, length_fmap. Qed.

Lemma isDisabled_putDisabled_eq (d : Document) (n : NodeId) (b : bool) :
  n < length d → isDisabled (putDisabled n b d) n = b.
Proof.
  intros Hlt. destruct (lookup_lt_is_Some_2 d n Hlt) as [e He].
  unfold isDisabled, putDisabled. by rewrite list_lookup_alter_eq, He.
Qed.

Lemma textContentAux_putDisabled (d : Document) (n : NodeId) (b : bool) (fuel : nat) (m : NodeId) :
  textContentAux (putDisabled n b d) fuel m = textContentAux d fuel m.
Proof.
  revert m. induction fuel as [|fuel IH]; intros m; simpl; [done |].
  assert (Hlen : length (putDisabled n b d) = length d) by apply length_alter.
  assert (Hp : ∀ c, putDisabled n b d !! c ≫= parentNode = d !! c ≫= parentNode).
  { intros c. unfold putDisabled. destruct (decide (c = n)) as [-> | Hne].
    - rewrite list_lookup_alter_eq. by destruct (d !! n).
    - by rewrite list_lookup_alter_ne. }
  assert (Hf : filter (λ c, bool_decide (putDisabled n b d !! c ≫= parentNode = Some m))
                 (seq 0 (length d))
               = filter (λ c, bool_decide (d !! c ≫= parentNode = Some m)) (seq 0 (length d))).
  { apply list_filter_iff. intros c. by rewrite Hp. }
  rewrite Hlen, Hf. rewrite (list_fmap_ext _ _ _ (λ _ x _, IH x)).
  unfold putDisabled. destruct (decide (m = n)) as [-> | Hne].
  - rewrite list_lookup_alter_eq. by destruct (d !! n).
  - by rewrite list_lookup_alter_ne.
Qed.

Lemma textContent_putDisabled (d : Document) (n m : NodeId) (b : bool) :
  textContent (putDisabled n b d) m = textContent d m.
Proof.
  unfold textContent. rewrite textContentAux_putDisabled.
  unfold putDisabled. by rewrite length_alter.
Qed.

Lemma parent_putDisabled (d : Document) (n c : NodeId) (b : bool) :
  putDisabled n b d !! c ≫= parentNode = d !! c ≫= parentNode.
Proof.
  unfold putDisabled. destruct (decide (c = n)) as [-> | Hne].
  - rewrite list_lookup_alter_eq. by destruct (d !! n).
  - by rewrite list_lookup_alter_ne.
Qed.

Lemma length_putDisabled (d : Document) (n : NodeId) (b : bool) :
  length (putDisabled n b d) = length d.
Proof. apply length_alter. Qed.

(** X12: the submit listener of the form enhancement and its timer.  The
    listener disables the form's submit button, replaces its text by the
    progress caption and sets one timer, 5 s ahead, that carries the text
    the button had; when that timer runs, the button is enabled and its
    text is the original text again.  The elements that were inside the
    button are not put back: they stay detached.  A form without a submit
    button makes the listener throw, with nothing changed. *)
Theorem enhanced_submit_restores_text (w : World) (form : NodeId) :
  (∀ b, querySelectorIn (dom w) form [Sel [STag "button"; SAttrEq "type" "submit"]] = Some b →
     let original := textContent (dom w) b in
     let w1 := set_timers (timers w ++ [mkTimer (now w + 5000) (CbResetButton b original)])
                 (set_dom (sendingButton b (dom w)) w) in
     let w2 := set_dom (restoredButton b original (dom w1)) w1 in
     validationSubmit form w = (inr tt, w1)
     ∧ textContent (dom w1) b = "Invio in corso..."
     ∧ isDisabled (dom w1) b = true
     ∧ runCallback (CbResetButton b original) None w1 = (inr tt, w2)
     ∧ textContent (dom w2) b = original
     ∧ isDisabled (dom w2) b = false
     ∧ ∀ c, dom w !! c ≫= parentNode = Some b → dom w2 !! c ≫= parentNode = None)
  ∧ (querySelectorIn (dom w) form [Sel [STag "button"; SAttrEq "type" "submit"]] = None →
     validationSubmit form w = (inl (TypeError "submitButton"), w)).
Proof.
  split.
  - intros b Hb original w1 w2. pose proof (querySelectorIn_lt _ _ _ _ Hb) as Hlt.
    split_and!.
    + unfold validationSubmit, queryIn, setTextContent, setDisabled, setTimeout, modifyDom,
        modify, mbind, M_bind, gets. simpl. by rewrite Hb.
    + simpl. unfold sendingButton. rewrite textContent_putDisabled.
      by apply textContent_writeTextContent.
    + simpl. unfold sendingButton. apply isDisabled_putDisabled_eq.
      by rewrite length_writeTextContent.
    + reflexivity.
    + simpl. unfold restoredButton. rewrite textContent_putDisabled.
      apply textContent_writeTextContent.
      unfold sendingButton. by rewrite length_putDisabled, length_writeTextContent.
    + simpl. unfold restoredButton. apply isDisabled_putDisabled_eq.
      unfold sendingButton.
      by rewrite length_writeTextContent, length_putDisabled, length_writeTextContent.
    + intros c Hc. simpl. unfold restoredButton, sendingButton.
      rewrite parent_putDisabled, parent_writeTextContent, parent_putDisabled,
        parent_writeTextContent.
      rewrite (bool_decide_eq_true_2 _ Hc). by case_bool_decide.
  - intros Hb. unfold validationSubmit, queryIn, mbind, M_bind, gets. simpl. by rewrite Hb.
Qed.

Lemma enhanced_submit_restores_text_witness :
  textContent (restoredButton 14 "Invia richiesta" (sendingButton 14 (dom loaded))) 14
  = "Invia richiesta".
Proof.
  assert (H : querySelectorIn (dom loaded) 11 [Sel [STag "button"; SAttrEq "type" "submit"]]
              = Some 14) by (vm_compute; reflexivity).
  destruct (proj1 (enhanced_submit_restores_text loaded 11) 14 H) as (_ & _ & _ & _ & H5 & _).
  simpl in H5.
  replace (textContent (dom loaded) 14) with "Invia richiesta" in H5 by (vm_compute; reflexivity).
  exact H5.
Defined.



(** ** Parallax *)

Lemma parallaxScroll_run (h t : nat) (w : World) :
  parallaxScroll h t w
  = if default false (cells w !! t) then (inr tt, w)
    else (inr tt, set_cells (<[t := true]> (cells w))
                    (set_frames (frames w ++ [CbUpdateParallax h t]) w)).
Proof.
  unfold parallaxScroll, readCell, writeCell, requestAnimationFrame, modify, when,
    mbind, M_bind, gets. simpl. by destruct (default false (cells w !! t)).
Qed.

(** X13: the parallax listener asks for at most one animation frame at a
    time.  The first scroll event queues [updateParallax] and raises the
    flag; further scroll events change nothing until the frame has run; the
    frame lowers the flag and moves the hero image by the current scroll
    offset when that is less than the height of [#hero], and otherwise
    leaves the image where it is.  On a screen narrower than 768 px
    [initParallax] registers nothing. *)
Theorem parallax_one_frame_at_a_time (w : World) (h t hero : nat) :
  cells w !! t = Some false →
  getElementById (dom w) "hero" = Some hero →
  h < length (dom w) →
  let queued := perform (parallaxScroll h t) w in
  let drawn := exec (Frame (length (frames w))) queued in
  frames queued = frames w ++ [CbUpdateParallax h t]
  ∧ cells queued !! t = Some true
  ∧ perform (parallaxScroll h t) queued = queued
  ∧ frames drawn = frames w
  ∧ cells drawn !! t = Some false
  ∧ uncaught drawn = uncaught w
  ∧ transformOf (dom drawn) h
    = (if bool_decide (scrollY w < measure offsetHeight (dom w) hero)%Z
       then Some (scrollY w) else transformOf (dom w) h)
  ∧ ((innerWidth w < 768)%Z → initParallax w = (inr tt, w)).
Proof.
  intros Hc Hhero Hh queued drawn.
  assert (Ht : t < length (cells w)) by (by eapply lookup_lt_Some).
  assert (Hq : queued = set_cells (<[t := true]> (cells w))
                          (set_frames (frames w ++ [CbUpdateParallax h t]) w)).
  { unfold queued, perform. rewrite parallaxScroll_run, Hc. done. }
  assert (Hd : drawn
               = set_cells (<[t := false]> (<[t := true]> (cells w)))
                   (set_dom (if bool_decide (scrollY w < measure offsetHeight (dom w) hero)%Z
                             then alter (withParallax (scrollY w)) h (dom w) else dom w)
                      (set_frames (frames w) w))).
  { unfold drawn. rewrite Hq. simpl. rewrite lookup_last, delete_last. simpl.
    unfold perform, updateParallax, byId, metric, modifyDom, writeCell, modify, when,
      mbind, M_bind, gets. simpl. rewrite Hhero. simpl. unfold measure.
    case_bool_decide; simpl; [done |]. by destruct w. }
  split_and!.
  - by rewrite Hq.
  - rewrite Hq. simpl. by apply list_lookup_insert_eq.
  - unfold perform. rewrite parallaxScroll_run. rewrite Hq at 1. simpl.
    by rewrite list_lookup_insert_eq.
  - by rewrite Hd.
  - rewrite Hd. simpl. apply list_lookup_insert_eq. by rewrite length_insert.
  - by rewrite Hd.
  - rewrite Hd. simpl. case_bool_decide; [| done].
    unfold transformOf. rewrite list_lookup_alter_eq.
    destruct (lookup_lt_is_Some_2 _ _ Hh) as [e ->]. done.
  - intros Hw. unfold initParallax, query, mbind, M_bind, gets. simpl.
    destruct (querySelector (dom w) _); [| done]. by rewrite bool_decide_eq_true_2.
Qed.

Lemma parallax_one_frame_at_a_time_witness :
  let scrolled := exec (Scroll 300) landed in
  transformOf (dom (exec (Frame 0) (perform (parallaxScroll 9 2) scrolled))) 9 = Some 300%Z.
Proof.
  intros scrolled.
  assert (H1 : cells scrolled !! 2 = Some false) by (vm_compute; reflexivity).
  assert (H2 : getElementById (dom scrolled) "hero" = Some 8) by (vm_compute; reflexivity).
  assert (H3 : 9 < length (dom scrolled)) by (apply (bool_decide_unpack _); by vm_compute).
  destruct (parallax_one_frame_at_a_time scrolled 9 2 8 H1 H2 H3) as (_ & _ & _ & _ & _ & _ & H & _).
  replace (length (frames scrolled)) with 0 in H by (vm_compute; reflexivity).
  rewrite H. by vm_compute.
Defined.



(** ** The destination modal *)

Lemma gentle_classes (f : list string → list string) : gentle (withClassList f).
Proof. by intros e. Qed.
Lemma gentle_attribute (k v : string) : gentle (withAttribute k v).
Proof. by intros e. Qed.
Lemma gentle_scrollTop (z : Z) : gentle (withScrollTop z).
Proof. by intros e. Qed.

Lemma lookup_alter_cases {A} (f : A → A) (l : list A) (k n : nat) :
  alter f k l !! n = (if bool_decide (n = k) then f else id) <$> l !! n.
Proof.
  case_bool_decide as H.
  - subst. by rewrite list_lookup_alter_eq.
  - rewrite list_lookup_alter_ne by done. by destruct (l !! n).
Qed.

Lemma parent_alter_gentle (f : Element → Element) (k n : NodeId) (d : Document) :
  gentle f → alter f k d !! n ≫= parentNode = d !! n ≫= parentNode.
Proof.
  intros G. rewrite lookup_alter_cases. destruct (d !! n) as [e|]; simpl; [| done].
  case_bool_decide; [apply G | done].
Qed.

Lemma tag_alter_gentle (f : Element → Element) (k n : NodeId) (d : Document) :
  gentle f → tagName <$> alter f k d !! n = tagName <$> d !! n.
Proof.
  intros G. rewrite lookup_alter_cases. destruct (d !! n) as [e|]; simpl; [| done].
  case_bool_decide; [f_equal; apply G | done].
Qed.

Lemma holdsText_alter_gentle (f : Element → Element) (k n : NodeId) (s : string) (d : Document) :
  gentle f → holdsText d n s → holdsText (alter f k d) n s.
Proof.
  intros G [(e & He & Hs) Hleaf]. split.
  - rewrite lookup_alter_cases, He. simpl. case_bool_decide; eexists; split; try done.
    by rewrite (proj2 (proj2 (G e))).
  - intros c. by rewrite parent_alter_gentle.
Qed.

Lemma holdsText_write_eq (n : NodeId) (s : string) (d : Document) :
  n < length d → holdsText (writeTextContent n s d) n s.
Proof.
  intros Hlt. destruct (lookup_lt_is_Some_2 d n Hlt) as [e He]. split.
  - unfold writeTextContent. rewrite list_lookup_alter_eq, lookup_detachChildren, He.
    simpl. by eexists.
  - intros c. rewrite parent_writeTextContent. by case_bool_decide.
Qed.

Lemma holdsText_write_ne (n m : NodeId) (s s' : string) (d : Document) :
  m ≠ n → holdsText d n s → holdsText (writeTextContent m s' d) n s.
Proof.
  intros Hne [(e & He & Hs) Hleaf]. split.
  - unfold writeTextContent. rewrite list_lookup_alter_ne by done.
    rewrite lookup_detachChildren, He. simpl. case_bool_decide; by eexists.
  - intros c. rewrite parent_writeTextContent. case_bool_decide; [done | apply Hleaf].
Qed.

Lemma holdsText_textContent (d : Document) (n : NodeId) (s : string) :
  holdsText d n s → textContent d n = s.
Proof. intros [(e & He & <-) Hleaf]. by apply textContent_leaf. Qed.

Lemma length_writeTexts (l : list (NodeId * string)) (d : Document) :
  length (writeTexts l d) = length d.
Proof.
  revert d. induction l as [|p l IH]; intros d; simpl; [done |].
  unfold writeTexts in *. simpl. by rewrite IH, length_writeTextContent.
Qed.

Lemma holdsText_writeTexts_keep (l : list (NodeId * string)) (d : Document) (n : NodeId) (s : string) :
  n ∉ l.*1 → holdsText d n s → holdsText (writeTexts l d) n s.
Proof.
  revert d. induction l as [|[m s'] l IH]; intros d Hn H; [done |].
  unfold writeTexts in *. simpl. apply IH; [set_solver |].
  apply holdsText_write_ne; [set_solver | done].
Qed.

Lemma holdsText_writeTexts (l : list (NodeId * string)) (d : Document) (n : NodeId) (s : string) :
  NoDup l.*1 → (n, s) ∈ l → n < length d → holdsText (writeTexts l d) n s.
Proof.
  revert d. induction l as [|[m s'] l IH]; intros d Hnd Hin Hlt; [set_solver |].
  apply NoDup_cons in Hnd as [Hm Hnd]. unfold writeTexts in *. simpl.
  apply elem_of_cons in Hin as [[= -> ->] | Hin].
  - apply (holdsText_writeTexts_keep l); [done |]. by apply holdsText_write_eq.
  - apply IH; [done | done | by rewrite length_writeTextContent].
Qed.

Lemma attr_writeTextContent (d : Document) (m n : NodeId) (s k : string) :
  attr (writeTextContent m s d) n k = attr d n k.
Proof.
  unfold attr, writeTextContent. rewrite lookup_alter_cases, lookup_detachChildren.
  destruct (d !! n) as [e|]; simpl; [| done].
  repeat case_bool_decide; done.
Qed.

Lemma hasClass_writeTextContent (d : Document) (m n : NodeId) (s c : string) :
  hasClass (writeTextContent m s d) n c = hasClass d n c.
Proof.
  unfold hasClass, writeTextContent. rewrite lookup_alter_cases, lookup_detachChildren.
  destruct (d !! n) as [e|]; simpl; [| done].
  repeat case_bool_decide; done.
Qed.

Lemma attr_writeTexts (l : list (NodeId * string)) (d : Document) (n : NodeId) (k : string) :
  attr (writeTexts l d) n k = attr d n k.
Proof.
  revert d. induction l as [|p l IH]; intros d; [done |].
  unfold writeTexts in *. simpl. by rewrite IH, attr_writeTextContent.
Qed.

Lemma hasClass_writeTexts (l : list (NodeId * string)) (d : Document) (n : NodeId) (c : string) :
  hasClass (writeTexts l d) n c = hasClass d n c.
Proof.
  revert d. induction l as [|p l IH]; intros d; [done |].
  unfold writeTexts in *. simpl. by rewrite IH, hasClass_writeTextContent.
Qed.

Lemma bodyAt_body (d : Document) (b : NodeId) : bodyAt d b → body d = Some b.
Proof.
  intros (Huniq & Htag & Hparent). unfold body, querySelector.
  destruct (d !! b) as [e|] eqn:He; [| done]. simpl in Htag, Hparent.
  assert (Hlt : b < length d) by (by eapply lookup_lt_Some).
  assert (Hin : b ∈ querySelectorAll d [Sel [STag "body"]]).
  { apply elem_of_querySelectorAll. split.
    - unfold isConnected, contains, ancestorsOf. rewrite bool_decide_eq_true_2 by done. simpl.
      destruct (length d) as [|k]; [lia |]. simpl. rewrite He. simpl. rewrite Hparent.
      rewrite (bool_decide_eq_true_2 (documentElement ∈ _)) by set_solver.
      apply orb_true_r.
    - unfold matches, matchesComplex, matchesCompound. simpl. rewrite He. simpl.
      injection Htag as ->. rewrite bool_decide_eq_true_2 by done. done. }
  assert (Hall : ∀ n, n ∈ querySelectorAll d [Sel [STag "body"]] → n = b).
  { intros n Hn. apply elem_of_querySelectorAll in Hn as [_ Hm]. apply Huniq.
    unfold matches, matchesComplex, matchesCompound in Hm. simpl in Hm.
    destruct (d !! n) as [e'|]; [| done]. simpl in *.
    rewrite orb_false_r, andb_true_r in Hm. apply bool_decide_eq_true in Hm. by rewrite Hm. }
  destruct (querySelectorAll d [Sel [STag "body"]]) as [|x l]; [set_solver |].
  simpl. f_equal. apply Hall. set_solver.
Qed.

Lemma bodyAt_alter_gentle (f : Element → Element) (k b : NodeId) (d : Document) :
  gentle f → bodyAt d b → bodyAt (alter f k d) b.
Proof.
  intros G (Huniq & Htag & Hparent). split_and!.
  - intros n. rewrite tag_alter_gentle by done. apply Huniq.
  - by rewrite tag_alter_gentle.
  - by rewrite parent_alter_gentle.
Qed.

Lemma tag_writeTextContent (d : Document) (m n : NodeId) (s : string) :
  tagName <$> writeTextContent m s d !! n = tagName <$> d !! n.
Proof.
  unfold writeTextContent. rewrite lookup_alter_cases, lookup_detachChildren.
  destruct (d !! n) as [e|]; simpl; [| done].
  repeat case_bool_decide; done.
Qed.

Lemma bodyAt_writeTextContent (m b : NodeId) (s : string) (d : Document) :
  m ≠ documentElement → bodyAt d b → bodyAt (writeTextContent m s d) b.
Proof.
  intros Hm (Huniq & Htag & Hparent). split_and!.
  - intros n. rewrite tag_writeTextContent. apply Huniq.
  - by rewrite tag_writeTextContent.
  - rewrite parent_writeTextContent, Hparent. rewrite bool_decide_eq_false_2; [done |].
    congruence.
Qed.

Lemma bodyAt_writeTexts (l : list (NodeId * string)) (b : NodeId) (d : Document) :
  documentElement ∉ l.*1 → bodyAt d b → bodyAt (writeTexts l d) b.
Proof.
  revert d. induction l as [|[m s] l IH]; intros d Hl H; [done |].
  unfold writeTexts in *. simpl. apply IH; [set_solver |].
  apply bodyAt_writeTextContent; [set_solver | done].
Qed.


Lemma openModal_run (w : World)
    (overlay img region name tagline description bestTime highlights experiences ctaName
       card b : NodeId) :
  let m := mkModalEnv overlay (Some img) (Some region) (Some name) (Some tagline)
             (Some description) (Some bestTime) (Some highlights) (Some experiences)
             (Some ctaName) in
  let texts := [(region, textOf (datum (dom w) card "data-region"));
                (name, textOf (datum (dom w) card "data-name"));
                (tagline, textOf (datum (dom w) card "data-tagline"));
                (description, textOf (datum (dom w) card "data-description"));
                (bestTime, textOf (datum (dom w) card "data-best-time"));
                (highlights, textOf (datum (dom w) card "data-highlights"));
                (experiences, textOf (datum (dom w) card "data-experiences"));
                (ctaName, textOf (datum (dom w) card "data-name"))] in
  documentElement ∉ texts.*1 →
  bodyAt (dom w) b →
  openModal m card w
  = (inr tt, set_dom (scrollReset m (shownModal m img b card texts (dom w))) w).
Proof.
  intros m texts Hroot Hbody.
  assert (HX : bodyAt (addClass overlay "open"
                         (removeClass overlay "hidden"
                            (writeTexts texts
                               (putAttribute img "alt" (toString (datum (dom w) card "data-name"))
                                  (putAttribute img "src"
                                     (toString (datum (dom w) card "data-image")) (dom w))))))
                 b).
  { apply bodyAt_alter_gentle; [apply gentle_classes |].
    apply bodyAt_alter_gentle; [apply gentle_classes |].
    apply bodyAt_writeTexts; [done |].
    apply bodyAt_alter_gentle; [apply gentle_attribute |].
    apply bodyAt_alter_gentle; [apply gentle_attribute |]. done. }
  apply bodyAt_body in HX.
  unfold openModal, dataset, assignText, getAttribute, setAttribute, setTextContent,
    classListAdd, classListRemove, queryIn, modifyDom, modify, mbind, M_bind, gets, deref,
    mret, M_ret.
  cbn [modalImage modalRegion modalName modalTagline modalDescription modalBestTime
       modalHighlights modalExperiences modalCtaName modal m dom set_dom].
  unfold scrollReset, shownModal, writeTexts, texts, datum, textOf in *.
  cbn [foldl fst snd modal m] in *.
  rewrite HX.
  cbn [dom set_dom].
  destruct (querySelectorIn _ overlay _); reflexivity.
Qed.

Ltac in_list := repeat first [apply list_elem_of_here | apply list_elem_of_further].

Lemma sameBut_scrollTop (z : Z) (n : NodeId) (d : Document) :
  sameBut [] [] d (alter (withScrollTop z) n d).
Proof.
  split; [apply length_alter |]. intros k e He. rewrite lookup_alter_cases, He. simpl.
  case_bool_decide; eexists; (split; [reflexivity |]); naive_solver.
Qed.

Lemma attr_scrollTop (z : Z) (n m : NodeId) (k : string) (d : Document) :
  attr (alter (withScrollTop z) n d) m k = attr d m k.
Proof.
  apply (sameBut_attr [] [] _ _ _ _ (sameBut_scrollTop z n d)). set_solver.
Qed.

Lemma hasClass_scrollTop (z : Z) (n m : NodeId) (c : string) (d : Document) :
  hasClass (alter (withScrollTop z) n d) m c = hasClass d m c.
Proof.
  apply (sameBut_hasClass [] [] _ _ _ _ (sameBut_scrollTop z n d)). set_solver.
Qed.

Lemma scrollReset_facts (m : ModalEnv) (d : Document) :
  (∀ n k, attr (scrollReset m d) n k = attr d n k)
  ∧ (∀ n c, hasClass (scrollReset m d) n c = hasClass d n c)
  ∧ (∀ n s, holdsText d n s → holdsText (scrollReset m d) n s)
  ∧ (∀ s, querySelectorIn (scrollReset m d) (modal m) [Sel [SClass "modal-scroll"]] = Some s →
       measure scrollTop (scrollReset m d) s = 0%Z).
Proof.
  unfold scrollReset.
  destruct (querySelectorIn d (modal m) [Sel [SClass "modal-scroll"]]) as [s0|] eqn:Hq.
  - split_and!.
    + intros n k. apply attr_scrollTop.
    + intros n c. apply hasClass_scrollTop.
    + intros n s. apply holdsText_alter_gentle, gentle_scrollTop.
    + intros s. rewrite (sameBut_querySelectorIn [] [] _ _ _ _ (sameBut_scrollTop 0 s0 d)).
      * rewrite Hq. intros [= <-]. unfold measure. rewrite list_lookup_alter_eq.
        destruct (lookup_lt_is_Some_2 d s0 (querySelectorIn_lt _ _ _ _ Hq)) as [e ->]. done.
      * repeat constructor. set_solver.
  - split_and!; try done. intros s. by rewrite Hq.
Qed.

Lemma bodyCheck_sound (d : Document) (b : NodeId) : bodyCheck d b = true → bodyAt d b.
Proof.
  unfold bodyCheck. rewrite !andb_true_iff, !bool_decide_eq_true, forallb_forall.
  intros [[Hall Htag] Hparent]. split_and!; [| done | done].
  intros n Hn. destruct (decide (n < length d)) as [Hlt | Hge].
  - specialize (Hall n). rewrite bool_decide_eq_true in Hall. apply Hall; [| done].
    apply list_elem_of_In, elem_of_seq. lia.
  - by rewrite lookup_ge_None_2 in Hn by lia.
Qed.

(** X14: [openModal] fills the modal from the data attributes of the card.
    With the parts of the modal in place and distinct, each text part shows
    the attribute it stands for, an absent attribute giving the empty text;
    the image takes [data-image] and [data-name] as [src] and [alt] (the
    text [undefined] when the attribute is absent); the overlay is shown and
    open, the body is marked [modal-open], and the scroll position of the
    [.modal-scroll] element, if there is one, is back at 0.  Nothing but the
    document changes. *)
Theorem modal_shows_the_card (w : World)
    (overlay img region name tagline description bestTime highlights experiences ctaName
       card b : NodeId) :
  let m := mkModalEnv overlay (Some img) (Some region) (Some name) (Some tagline)
             (Some description) (Some bestTime) (Some highlights) (Some experiences)
             (Some ctaName) in
  let parts := [region; name; tagline; description; bestTime; highlights; experiences;
                ctaName] in
  NoDup parts →
  documentElement ∉ parts →
  (∀ p, p ∈ img :: overlay :: b :: parts → p < length (dom w)) →
  bodyAt (dom w) b →
  ∃ d', openModal m card w = (inr tt, set_dom d' w)
    ∧ (∀ p key, (Some p, key) ∈ modalTexts m →
         textContent d' p = textOf (datum (dom w) card key))
    ∧ attr d' img "src" = Some (toString (datum (dom w) card "data-image"))
    ∧ attr d' img "alt" = Some (toString (datum (dom w) card "data-name"))
    ∧ hasClass d' overlay "open" = true
    ∧ hasClass d' overlay "hidden" = false
    ∧ hasClass d' b "modal-open" = true
    ∧ (∀ s, querySelectorIn d' overlay [Sel [SClass "modal-scroll"]] = Some s →
         measure scrollTop d' s = 0%Z).
Proof.
  intros m parts Hnd Hroot Hlt Hbody.
  pose proof (openModal_run w overlay img region name tagline description bestTime highlights
                experiences ctaName card b Hroot Hbody) as Hrun.
  cbv zeta in Hrun. fold m in Hrun. rewrite Hrun.
  eexists. split; [reflexivity |].
  match goal with |- context [scrollReset m (shownModal m img b card ?l (dom w))] =>
    set (texts := l) end.
  destruct (scrollReset_facts m (shownModal m img b card texts (dom w))) as (A & C & T & S).
  set (d1 := putAttribute img "alt" (toString (datum (dom w) card "data-name"))
               (putAttribute img "src" (toString (datum (dom w) card "data-image")) (dom w))).
  assert (Hd1 : length d1 = length (dom w)) by (unfold d1; by rewrite !length_putAttribute).
  assert (Hlen : length (writeTexts texts d1) = length (dom w))
    by (by rewrite length_writeTexts).
  split_and!.
  - intros p key Hin.
    assert (Hp : p ∈ parts ∧ (p, textOf (datum (dom w) card key)) ∈ texts).
    { unfold modalTexts, m in Hin. cbn in Hin.
      repeat (apply elem_of_cons in Hin as [[= -> ->] | Hin];
              [split; unfold parts, texts; in_list |]).
      by apply elem_of_nil in Hin. }
    destruct Hp as [Hp Htext].
    apply holdsText_textContent, T. unfold shownModal. fold d1.
    do 3 (apply holdsText_alter_gentle; [apply gentle_classes |]).
    apply holdsText_writeTexts; [exact Hnd | exact Htext |].
    rewrite Hd1. apply Hlt. by do 3 apply list_elem_of_further.
  - rewrite A. unfold shownModal. fold d1.
    rewrite !attr_addClass, attr_removeClass, attr_writeTexts. unfold d1.
    rewrite attr_putAttribute_ne by (by right). apply attr_putAttribute_eq. apply Hlt. in_list.
  - rewrite A. unfold shownModal. fold d1.
    rewrite !attr_addClass, attr_removeClass, attr_writeTexts. unfold d1.
    apply attr_putAttribute_eq. rewrite length_putAttribute. apply Hlt. in_list.
  - rewrite C. unfold shownModal. fold d1. apply hasClass_addClass_mono.
    apply hasClass_addClass_eq. rewrite length_removeClass, Hlen. apply Hlt. in_list.
  - rewrite C. unfold shownModal. fold d1.
    rewrite !hasClass_addClass_ne by (by right). apply hasClass_removeClass_eq.
  - rewrite C. unfold shownModal. fold d1. apply hasClass_addClass_eq.
    rewrite length_addClass, length_removeClass, Hlen. apply Hlt. in_list.
  - exact S.
Qed.

Lemma modal_shows_the_card_witness :
  ∃ d', openModal Landing.env 12 landed = (inr tt, set_dom d' landed)
        ∧ textContent d' 20 = "Kyoto" ∧ textContent d' 27 = "Kyoto".
Proof.
  assert (Hnd : NoDup [19; 20; 21; 22; 23; 24; 25; 27]).
  { apply (bool_decide_unpack _). by vm_compute. }
  assert (Hroot : documentElement ∉ [19; 20; 21; 22; 23; 24; 25; 27]).
  { apply (bool_decide_unpack _). by vm_compute. }
  assert (Hlt : ∀ p, p ∈ [18; 13; 1; 19; 20; 21; 22; 23; 24; 25; 27] → p < length (dom landed)).
  { intros p Hp. replace (length (dom landed)) with 28 by (vm_compute; reflexivity).
    repeat (apply elem_of_cons in Hp as [-> | Hp]; [lia |]). by apply elem_of_nil in Hp. }
  assert (Hbody : bodyAt (dom landed) 1) by (apply bodyCheck_sound; by vm_compute).
  destruct (modal_shows_the_card landed 13 18 19 20 21 22 23 24 25 27 12 1 Hnd Hroot Hlt Hbody)
    as (d' & H1 & H2 & _).
  exists d'. split; [exact H1 |]. split.
  - rewrite (H2 20 "data-name"); [by vm_compute |]. apply (bool_decide_unpack _). by vm_compute.
  - rewrite (H2 27 "data-name"); [by vm_compute |]. apply (bool_decide_unpack _). by vm_compute.
Defined.



(** ** Closing the modal, and its keys *)

Lemma closeModal_run (m : ModalEnv) (b : NodeId) (w : World) :
  bodyAt (dom w) b →
  closeModal m w
  = (inr tt, set_timers (timers w ++ [mkTimer (now w + 400) (CbHideModal m)])
               (set_dom (removeClass b "modal-open" (removeClass (modal m) "open" (dom w))) w)).
Proof.
  intros Hb. unfold closeModal, classListRemove, setTimeout, modifyDom, modify, mbind, M_bind,
    gets. simpl.
  rewrite (bodyAt_body _ b) by (by apply bodyAt_alter_gentle; [apply gentle_classes |]).
  done.
Qed.

Lemma hideModalIfClosed_run (m : ModalEnv) (w : World) :
  hideModalIfClosed m w
  = (inr tt, if hasClass (dom w) (modal m) "open" then w
             else set_dom (addClass (modal m) "hidden" (dom w)) w).
Proof.
  unfold hideModalIfClosed, classListContains, classListAdd, modifyDom, modify, when,
    mbind, M_bind, gets. simpl. by destruct (hasClass (dom w) (modal m) "open").
Qed.

(** X15: closing the modal.  [closeModal] takes the overlay out of the
    open state and the [modal-open] mark off the body at once, leaves the
    overlay displayed, and sets one timer 400 ms ahead; that timer hides the
    overlay unless the modal is open when it runs.  The [Escape] key closes
    the modal only when it is open; on a card only [Enter] and the space key
    do anything. *)
Theorem modal_closes_in_two_steps (w : World) (m : ModalEnv) (card b : NodeId) :
  bodyAt (dom w) b →
  (∃ d', closeModal m w
         = (inr tt, set_timers (timers w ++ [mkTimer (now w + 400) (CbHideModal m)])
                      (set_dom d' w))
     ∧ hasClass d' (modal m) "open" = false
     ∧ hasClass d' b "modal-open" = false
     ∧ ∀ n c, c ≠ "open" ∧ c ≠ "modal-open" → hasClass d' n c = hasClass (dom w) n c)
  ∧ (hasClass (dom w) (modal m) "open" = true →
     runCallback (CbHideModal m) None w = (inr tt, w))
  ∧ (hasClass (dom w) (modal m) "open" = false → modal m < length (dom w) →
     ∃ d', runCallback (CbHideModal m) None w = (inr tt, set_dom d' w)
       ∧ hasClass d' (modal m) "hidden" = true)
  ∧ (key (event w) ≠ "Escape" ∨ hasClass (dom w) (modal m) "open" = false →
     modalEscape m w = (inr tt, w))
  ∧ (key (event w) = "Escape" → hasClass (dom w) (modal m) "open" = true →
     modalEscape m w = closeModal m w)
  ∧ (key (event w) ≠ "Enter" → key (event w) ≠ " " → cardKeydown m card w = (inr tt, w)).
Proof.
  intros Hb. split_and!.
  - rewrite (closeModal_run m b w Hb). eexists. split; [reflexivity |]. split_and!.
    + rewrite hasClass_removeClass_ne by (by right). apply hasClass_removeClass_eq.
    + apply hasClass_removeClass_eq.
    + intros n c [H1 H2]. by rewrite !hasClass_removeClass_ne by (by right).
  - intros Ho. simpl. by rewrite hideModalIfClosed_run, Ho.
  - intros Ho Hlt. simpl. rewrite hideModalIfClosed_run, Ho. eexists. split; [reflexivity |].
    by apply hasClass_addClass_eq.
  - intros H. unfold modalEscape, classListContains, when, mbind, M_bind, gets. simpl.
    unfold JsString.eqb. case_bool_decide as Hk; [| done].
    destruct H as [H | ->]; done.
  - intros Hk Ho. unfold modalEscape, classListContains, when, mbind, M_bind, gets. simpl.
    unfold JsString.eqb. rewrite bool_decide_eq_true_2 by done. by rewrite Ho.
  - intros H1 H2. unfold cardKeydown, when, mbind, M_bind, gets. simpl.
    unfold JsString.eqb. by rewrite !bool_decide_eq_false_2 by done.
Qed.

Lemma modal_closes_in_two_steps_witness :
  ∃ d', closeModal Landing.env landed
        = (inr tt, set_timers (timers landed ++ [mkTimer (now landed + 400)
                                                   (CbHideModal Landing.env)])
                     (set_dom d' landed))
        ∧ hasClass d' 13 "open" = false.
Proof.
  assert (Hbody : bodyAt (dom landed) 1) by (apply bodyCheck_sound; by vm_compute).
  destruct (proj1 (modal_closes_in_two_steps landed Landing.env 12 1 Hbody)) as (d' & H1 & H2 & _).
  exists d'. split; [exact H1 | exact H2].
Defined.

(** ** Data the card grids cannot render *)

(** X16: when the data of a grid is parsed but is not an array, or is an
    array that holds a [null] item, the loader renders nothing at all, also
    not the items before the [null], and logs the type error: the document
    is as it was and only the console has a new entry. *)
Theorem grid_rejects_malformed_data (grid : NodeId) (ok : bool) (w : World) :
  (∀ items, None ∈ items →
     destinationsSettled grid (Response ok (Parsed (JArray items))) w
     = (inr tt, set_console (console w ++ [ConsoleError "Error loading destinations:"
                                             (TypeError "image")]) w)
     ∧ brochuresSettled grid (Response ok (Parsed (JArray items))) w
       = (inr tt, set_console (console w ++ [ConsoleError "Error loading brochures:"
                                               (TypeError "image")]) w))
  ∧ destinationsSettled grid (Response ok (Parsed JNotArray)) w
    = (inr tt, set_console (console w ++ [ConsoleError "Error loading destinations:"
                                            (TypeError "map")]) w)
  ∧ brochuresSettled grid (Response ok (Parsed JNotArray)) w
    = (inr tt, set_console (console w ++ [ConsoleError "Error loading brochures:"
                                            (TypeError "map")]) w).
Proof.
  split_and!; [| done | done].
  intros items Hnull. unfold destinationsSettled, brochuresSettled, tryCatch, renderGrid.
  by rewrite (mapM_id_None items Hnull).
Qed.

Lemma grid_rejects_malformed_data_witness :
  destinationsSettled 24 (Response true (Parsed (JArray [Some ∅; None]))) loaded
  = (inr tt, set_console (console loaded ++ [ConsoleError "Error loading destinations:"
                                               (TypeError "image")]) loaded).
Proof.
  apply (proj1 (grid_rejects_malformed_data 24 true loaded) [Some ∅; None]).
  apply list_elem_of_further, list_elem_of_here.
Defined.

(** ** The URL helper, applied twice *)

Lemma beforeFirst_rebuilt (s qs : string) :
  JsString.beforeFirst "?" (JsString.beforeFirst "?" s +:+ "?" +:+ qs)
  = JsString.beforeFirst "?" s.
Proof. apply (beforeFirst_stop "?" s qs). Qed.

Lemma unsplashUrl_Str (s qs : string) :
  unsplashUrl (Str s) qs
  = if negb (truthy (Str s)) || negb (JsString.includes unsplashHost s) then Str s
    else Str (JsString.beforeFirst "?" s +:+ "?" +:+ qs).
Proof. reflexivity. Qed.

(** X17: normalising an image URL is idempotent: applying [unsplashUrl]
    with the same directive to its own result changes nothing, whatever the
    URL and the directive are. *)
Theorem unsplashUrl_idempotent (url : JsVal) (qs : string) :
  unsplashUrl (unsplashUrl url qs) qs = unsplashUrl url qs.
Proof.
  destruct url as [| |s]; [done | done |].
  rewrite (unsplashUrl_Str s qs).
  destruct (negb (truthy (Str s)) || negb (JsString.includes unsplashHost s)) eqn:E.
  - by rewrite unsplashUrl_Str, E.
  - rewrite unsplashUrl_Str.
    destruct (negb (truthy (Str (JsString.beforeFirst "?" s +:+ "?" +:+ qs)))
              || negb (JsString.includes unsplashHost
                         (JsString.beforeFirst "?" s +:+ "?" +:+ qs))); [done |].
    by rewrite beforeFirst_rebuilt.
Qed.



(** ** The contact form while its request is pending *)

Lemma isDisabled_alter_classes (f : list string → list string) (d : Document) (n m : NodeId) :
  isDisabled (alter (withClassList f) n d) m = isDisabled d m.
Proof.
  unfold isDisabled. rewrite lookup_alter_cases. destruct (d !! m) as [e|]; simpl; [| done].
  by case_bool_decide.
Qed.

(** X18: the submit listener of the contact form up to its request.  It
    prevents the default submission, disables the submit button, hides the
    label, shows the spinner and sends one [POST], recorded with the
    [action] attribute of the form as it is written, whose continuation
    carries the same elements.  When the button has no
    [.btn-text] element the listener throws after it has disabled the
    button: the button stays disabled and no request is sent. *)
Theorem contact_submit_goes_pending (w : World) (form sb : NodeId)
    (bt bs fs : option NodeId) :
  sb < length (dom w) →
  (∀ t s, bt = Some t → bs = Some s → t ≠ s → t < length (dom w) →
     ∃ d', contactSubmit form sb bt bs fs w
           = (inr tt,
              set_requests (requests w ++ [mkRequest (attr (dom w) form "action") "POST"
                                             (KContact form sb bt bs fs)])
                (set_dom d' (set_event (mkEvent (target (event w)) (key (event w)) true
                                          (propagationStopped (event w))) w)))
       ∧ isDisabled d' sb = true
       ∧ hasClass d' t "hidden" = true
       ∧ hasClass d' s "hidden" = false)
  ∧ (bt = None →
     ∃ w', contactSubmit form sb bt bs fs w = (inl (TypeError "btnText"), w')
       ∧ isDisabled (dom w') sb = true
       ∧ requests w' = requests w
       ∧ alerts w' = alerts w).
Proof.
  intros Hsb. split.
  - intros t s -> -> Hts Ht.
    assert (Ha : attr (removeClass s "hidden" (addClass t "hidden" (putDisabled sb true (dom w))))
                   form "action" = attr (dom w) form "action").
    { rewrite attr_removeClass, attr_addClass.
      apply (sameBut_attr [] [] _ _ _ _ (sameBut_putDisabled [] [] sb true (dom w))).
      set_solver. }
    exists (removeClass s "hidden" (addClass t "hidden" (putDisabled sb true (dom w)))).
    split.
    { unfold contactSubmit, preventDefault, setDisabled, classListAdd, classListRemove,
        getAttribute, fetch, modifyDom, modify, mbind, M_bind, gets.
      cbn [deref mret M_ret dom set_dom set_event]. by rewrite Ha. }
    split_and!.
    + unfold removeClass, addClass. rewrite !isDisabled_alter_classes.
      by apply isDisabled_putDisabled_eq.
    + rewrite hasClass_removeClass_ne by (by left). apply hasClass_addClass_eq.
      by rewrite length_putDisabled.
    + apply hasClass_removeClass_eq.
  - intros ->.
    exists (set_dom (putDisabled sb true (dom w))
              (set_event (mkEvent (target (event w)) (key (event w)) true
                            (propagationStopped (event w))) w)).
    split; [reflexivity |]. split_and!; try done.
    by apply isDisabled_putDisabled_eq.
Qed.

Lemma contact_submit_goes_pending_witness :
  ∃ d', contactSubmit 11 14 (Some 15) (Some 16) (Some 17) loaded
        = (inr tt,
           set_requests (requests loaded ++ [mkRequest (attr (dom loaded) 11 "action") "POST"
                                               (KContact 11 14 (Some 15) (Some 16) (Some 17))])
             (set_dom d' (set_event (mkEvent (target (event loaded)) (key (event loaded)) true
                                       (propagationStopped (event loaded))) loaded)))
        ∧ isDisabled d' 14 = true.
Proof.
  assert (H14 : 14 < length (dom loaded)) by (apply (bool_decide_unpack _); by vm_compute).
  assert (H15 : 15 < length (dom loaded)) by (apply (bool_decide_unpack _); by vm_compute).
  destruct (proj1 (contact_submit_goes_pending loaded 11 14 (Some 15) (Some 16) (Some 17) H14)
              15 16 eq_refl eq_refl ltac:(lia) H15) as (d' & H1 & H2 & _).
  exists d'. split; [exact H1 | exact H2].
Defined.



(** ** Wiring the destination modal *)

Lemma wireCard_run (m : ModalEnv) (card : NodeId) (w : World) :
  (addEventListener (Node card) "click" (CbOpenModal m card);;
   setAttribute card "tabindex" "0";;
   setAttribute card "role" "button";;
   addEventListener (Node card) "keydown" (CbCardKeydown m card)) w
  = (inr tt, set_listeners (listeners w ++ [mkListener (Node card) "click" (CbOpenModal m card);
                                            mkListener (Node card) "keydown"
                                              (CbCardKeydown m card)])
               (set_dom (putAttribute card "role" "button"
                           (putAttribute card "tabindex" "0" (dom w))) w)).
Proof.
  destruct w. unfold addEventListener, setAttribute, modifyDom, modify, set_listeners, set_dom.
  unfold mbind, M_bind. simpl.
  by rewrite <- app_assoc.
Qed.

Lemma wireCards_run (m : ModalEnv) (cards : list NodeId) (w : World) :
  forEach
    (λ card,
       addEventListener (Node card) "click" (CbOpenModal m card);;
       setAttribute card "tabindex" "0";;
       setAttribute card "role" "button";;
       addEventListener (Node card) "keydown" (CbCardKeydown m card))
    cards w
  = (inr tt, set_listeners (listeners w ++ cardListeners m cards)
               (set_dom (focusable cards (dom w)) w)).
Proof.
  revert w. induction cards as [|card cards IH]; intros w.
  - destruct w. unfold cardListeners, focusable, set_listeners, set_dom. cbn [foldl].
    simpl.
    by rewrite app_nil_r.
  - rewrite forEach_cons, wireCard_run, IH. destruct w.
    unfold cardListeners, focusable, set_listeners, set_dom. cbn [foldl].
    simpl.
    change ((card :: cards) ≫= ?f) with (f card ++ (cards ≫= f)).
    by rewrite <- app_assoc.
Qed.

Lemma focusable_same (cards : list NodeId) (d : Document) :
  sameBut [] ["tabindex"; "role"] d (focusable cards d).
Proof.
  revert d. induction cards as [|card cards IH]; intros d; [apply sameBut_refl |].
  unfold focusable in *. simpl. eapply sameBut_trans; [| apply IH].
  eapply sameBut_trans; apply sameBut_putAttribute; set_solver.
Qed.

Lemma focusable_keeps (cards : list NodeId) (d : Document) (n : NodeId) (k v : string) :
  (k, v) = ("tabindex", "0") ∨ (k, v) = ("role", "button") →
  attr d n k = Some v → attr (focusable cards d) n k = Some v.
Proof.
  revert d. induction cards as [|card cards IH]; intros d Hk H; [done |].
  unfold focusable in *. simpl. apply IH; [done |].
  assert (Hstep : ∀ d k' v', attr d n k = Some v →
                    (k = k' → v = v') → attr (putAttribute card k' v' d) n k = Some v).
  { intros d0 k' v' H0 Hsame. destruct (decide (n = card ∧ k = k')) as [[-> ->] | Hne].
    - rewrite Hsame in * by done. apply attr_putAttribute_eq.
      unfold attr in H0. destruct (d0 !! card) eqn:E; [| done]. by eapply lookup_lt_Some.
    - rewrite attr_putAttribute_ne; [done |]. destruct (decide (n = card)); naive_solver. }
  apply Hstep; [apply Hstep; [done |] |]; destruct Hk as [[= -> ->] | [= -> ->]]; done.
Qed.

Lemma focusable_sets (cards : list NodeId) (d : Document) (card : NodeId) :
  card ∈ cards → card < length d →
  attr (focusable cards d) card "tabindex" = Some "0"
  ∧ attr (focusable cards d) card "role" = Some "button".
Proof.
  revert d. induction cards as [|x cards IH]; intros d Hin Hlt; [set_solver |].
  apply elem_of_cons in Hin as [-> | Hin].
  - unfold focusable. simpl. fold (focusable cards). split.
    + apply focusable_keeps; [by left |].
      rewrite attr_putAttribute_ne by (by right). by apply attr_putAttribute_eq.
    + apply focusable_keeps; [by right |].
      apply attr_putAttribute_eq. by rewrite length_putAttribute.
  - unfold focusable. simpl. fold (focusable cards). apply IH; [done |].
    by rewrite !length_putAttribute.
Qed.

Lemma elem_of_cardListeners (m : ModalEnv) (cards : list NodeId) (card : NodeId) :
  card ∈ cards →
  mkListener (Node card) "click" (CbOpenModal m card) ∈ cardListeners m cards
  ∧ mkListener (Node card) "keydown" (CbCardKeydown m card) ∈ cardListeners m cards.
Proof.
  intros Hin. unfold cardListeners. split; apply list_elem_of_bind; exists card;
    (split; [| done]); in_list.
Qed.

Lemma initDestinationModal_wires (w : World) (overlay : NodeId) :
  getElementById (dom w) "destination-modal" = Some overlay →
  querySelectorAll (dom w) [Sel [SClass "destination-card"]] ≠ [] →
  initDestinationModal w
  = (close ← deref (getElementById (dom w) "modal-close") "modalClose";
     addEventListener (Node close) "click" (CbCloseModal (modalEnvOf (dom w) overlay));;
     backdrop ← deref (querySelectorIn (dom w) overlay [Sel [SClass "modal-backdrop"]])
                  "modalBackdrop";
     addEventListener (Node backdrop) "click" (CbCloseModal (modalEnvOf (dom w) overlay));;
     addEventListener TheDocument "keydown" (CbModalEscape (modalEnvOf (dom w) overlay));;
     cta ← deref (getElementById (dom w) "modal-cta-btn") "modalCtaBtn";
     addEventListener (Node cta) "click" (CbCloseModal (modalEnvOf (dom w) overlay));;
     c ← deref (querySelectorIn (dom w) overlay [Sel [SClass "modal-content"]])
           "modal.querySelector('.modal-content')";
     addEventListener (Node c) "click" CbStopPropagation)
      (set_listeners
         (listeners w ++ cardListeners (modalEnvOf (dom w) overlay)
                           (querySelectorAll (dom w) [Sel [SClass "destination-card"]]))
         (set_dom (focusable (querySelectorAll (dom w) [Sel [SClass "destination-card"]])
                     (dom w)) w)).
Proof.
  intros Hov Hcards.
  unfold initDestinationModal, byId, queryIn, queryAll, mbind at 1 2 3 4 5, M_bind, gets.
  cbn [dom fst snd]. rewrite Hov. cbn [dom fst snd].
  rewrite bool_decide_eq_false_2 by (by destruct (querySelectorAll _ _)).
  unfold mbind at 1 2 3 4 5 6 7 8 9, M_bind, gets. cbn [dom fst snd].
  fold (modalEnvOf (dom w) overlay).
  rewrite run_bind, wireCards_run.
  pose proof (sameBut_querySelectorIn [] ["tabindex"; "role"] _ _ overlay
                [Sel [SClass "modal-content"]]
                (focusable_same (querySelectorAll (dom w) [Sel [SClass "destination-card"]])
                   (dom w))) as Hcontent.
  destruct (getElementById (dom w) "modal-close") as [close|]; [| done].
  destruct (querySelectorIn (dom w) overlay [Sel [SClass "modal-backdrop"]]) as [backdrop|];
    [| done].
  destruct (getElementById (dom w) "modal-cta-btn") as [cta|]; [| done].
  unfold deref, addEventListener, modify, mbind, M_bind, mret, M_ret.
  cbn [dom set_listeners set_dom]. rewrite Hcontent by (repeat constructor; set_solver).
  reflexivity.
Qed.

(** X19: [initDestinationModal] on a page that has the overlay and at
    least one card.  Every card is made focusable ([tabindex] 0, [role]
    [button]) and gets its click and keydown listeners before anything else
    is looked at; no class changes.  With the close button, the backdrop,
    the call-to-action button and the content element in place, the five
    closing listeners follow and the function returns; when the close
    button is missing the function throws at that point, with the cards
    wired and no listener registered that could close the modal. *)
Theorem modal_cards_are_wired (w : World) (overlay : NodeId) :
  let cards := querySelectorAll (dom w) [Sel [SClass "destination-card"]] in
  let m := modalEnvOf (dom w) overlay in
  getElementById (dom w) "destination-modal" = Some overlay →
  cards ≠ [] →
  ∃ r w', initDestinationModal w = (r, w')
    ∧ dom w' = focusable cards (dom w)
    ∧ (∀ card, card ∈ cards →
         attr (dom w') card "tabindex" = Some "0"
         ∧ attr (dom w') card "role" = Some "button"
         ∧ mkListener (Node card) "click" (CbOpenModal m card) ∈ listeners w'
         ∧ mkListener (Node card) "keydown" (CbCardKeydown m card) ∈ listeners w')
    ∧ (∀ n c, hasClass (dom w') n c = hasClass (dom w) n c)
    ∧ (getElementById (dom w) "modal-close" = None →
       r = inl (TypeError "modalClose")
       ∧ listeners w' = listeners w ++ cardListeners m cards)
    ∧ (∀ close backdrop cta content,
         getElementById (dom w) "modal-close" = Some close →
         querySelectorIn (dom w) overlay [Sel [SClass "modal-backdrop"]] = Some backdrop →
         getElementById (dom w) "modal-cta-btn" = Some cta →
         querySelectorIn (dom w) overlay [Sel [SClass "modal-content"]] = Some content →
         r = inr tt
         ∧ listeners w'
           = listeners w ++ cardListeners m cards
             ++ [mkListener (Node close) "click" (CbCloseModal m);
                 mkListener (Node backdrop) "click" (CbCloseModal m);
                 mkListener TheDocument "keydown" (CbModalEscape m);
                 mkListener (Node cta) "click" (CbCloseModal m);
                 mkListener (Node content) "click" CbStopPropagation]).
Proof.
  intros cards m Hov Hcards. rewrite (initDestinationModal_wires w overlay Hov Hcards).
  fold cards. fold m.
  assert (Hfacts : ∀ extra, ∀ card, card ∈ cards →
            attr (focusable cards (dom w)) card "tabindex" = Some "0"
            ∧ attr (focusable cards (dom w)) card "role" = Some "button"
            ∧ mkListener (Node card) "click" (CbOpenModal m card)
              ∈ (listeners w ++ cardListeners m cards) ++ extra
            ∧ mkListener (Node card) "keydown" (CbCardKeydown m card)
              ∈ (listeners w ++ cardListeners m cards) ++ extra).
  { intros extra card Hin.
    assert (Hlt : card < length (dom w)).
    { apply elem_of_querySelectorAll in Hin as [_ Hm]. by apply matches_lt in Hm. }
    destruct (focusable_sets cards (dom w) card Hin Hlt) as [A B].
    destruct (elem_of_cardListeners m cards card Hin) as [C D].
    split_and!; [done | done | |]; rewrite !elem_of_app; auto. }
  assert (Hclasses : ∀ n c, hasClass (focusable cards (dom w)) n c = hasClass (dom w) n c).
  { intros n c. apply (sameBut_hasClass [] ["tabindex"; "role"] _ _ _ _
                         (focusable_same cards (dom w))). set_solver. }
  unfold deref, addEventListener, modify, mbind, M_bind, mret, M_ret, throw.
  destruct (getElementById (dom w) "modal-close") as [close|];
    [destruct (querySelectorIn (dom w) overlay [Sel [SClass "modal-backdrop"]]) as [backdrop|];
     [destruct (getElementById (dom w) "modal-cta-btn") as [cta|];
      [destruct (querySelectorIn (dom w) overlay [Sel [SClass "modal-content"]]) as [content|]
      | ] | ] | ];
    cbn [dom listeners set_listeners set_dom];
    eexists _, _; (split; [reflexivity |]); cbn [dom listeners set_listeners set_dom];
    (split; [reflexivity |]).
  - split_and!; [| done | done |].
    + intros card Hin. rewrite <- !app_assoc. rewrite app_assoc. by apply Hfacts.
    + intros ? ? ? ? [= <-] [= <-] [= <-] [= <-]. split; [done |].
      by rewrite <- !app_assoc.
  - split_and!; [| done | done | done].
    intros card Hin. rewrite <- !app_assoc. rewrite app_assoc. by apply Hfacts.
  - split_and!; [| done | done | done].
    intros card Hin. rewrite <- !app_assoc. rewrite app_assoc. by apply Hfacts.
  - split_and!; [| done | done | done].
    intros card Hin. by apply Hfacts.
  - split_and!; [| done | | done].
    + intros card Hin. rewrite <- (app_nil_r (listeners w ++ _)). by apply Hfacts.
    + done.
Qed.

Lemma modal_cards_are_wired_witness :
  ∃ r w', initDestinationModal (served Landing.page false true 1200 0) = (r, w')
          ∧ attr (dom w') 12 "role" = Some "button".
Proof.
  assert (Hov : getElementById (dom (served Landing.page false true 1200 0)) "destination-modal"
                = Some 13) by (vm_compute; reflexivity).
  assert (Hcards : querySelectorAll (dom (served Landing.page false true 1200 0))
                     [Sel [SClass "destination-card"]] ≠ []).
  { replace (querySelectorAll _ _) with [12] by (vm_compute; reflexivity). discriminate. }
  destruct (modal_cards_are_wired (served Landing.page false true 1200 0) 13 Hov Hcards)
    as (r & w' & H1 & _ & H2 & _).
  exists r, w'. split; [exact H1 |]. apply H2.
  apply (bool_decide_unpack _). by vm_compute.
Defined.



(** ** What follows the destinations request *)








(** ** Registering the listeners *)

Lemma set_listeners_id (w : World) : set_listeners (listeners w) w = w.
Proof. by destruct w. Qed.

Lemma forEach_addEventListener {A} (on : A → EventTarget) (type : string) (cb : Callback)
    (l : list A) (w : World) :
  forEach (λ x, addEventListener (on x) type cb) l w
  = (inr tt, set_listeners (listeners w ++ ((λ x, mkListener (on x) type cb) <$> l)) w).
Proof.
  revert w. induction l as [|x l IH]; intros w.
  - simpl. by rewrite app_nil_r, set_listeners_id.
  - rewrite forEach_cons. unfold addEventListener at 1, modify. rewrite IH.
    destruct w. unfold set_listeners. simpl. by rewrite <- app_assoc.
Qed.

Lemma run_ret {A} (a : A) (w : World) : (mret a : M A) w = (inr a, w).
Proof. reflexivity. Qed.

Lemma run_gets {A} (f : World → A) (w : World) : gets f w = (inr (f w), w).
Proof. reflexivity. Qed.

Lemma run_newCell (w : World) :
  newCell w = (inr (length (cells w)), set_cells (cells w ++ [false]) w).
Proof. reflexivity. Qed.

Lemma run_addEventListener (t : EventTarget) (type : string) (cb : Callback) (w : World) :
  addEventListener t type cb w
  = (inr tt, set_listeners (listeners w ++ [mkListener t type cb]) w).
Proof. reflexivity. Qed.

Lemma set_listeners_twice (l l' : list Listener) (w : World) :
  set_listeners l (set_listeners l' w) = set_listeners l w.
Proof. reflexivity. Qed.

Lemma set_cells_twice (c c' : list bool) (w : World) :
  set_cells c (set_cells c' w) = set_cells c w.
Proof. reflexivity. Qed.

Lemma set_cells_listeners (c : list bool) (l : list Listener) (w : World) :
  set_cells c (set_listeners l w) = set_listeners l (set_cells c w).
Proof. reflexivity. Qed.

Ltac run_step :=
  first [ rewrite run_newCell | rewrite run_ret | rewrite run_gets
        | rewrite run_addEventListener | rewrite forEach_addEventListener
        | rewrite run_bind ];
  cbv beta iota;
  cbn [set_listeners set_cells dom listeners cells globals scrollY innerWidth
       intersectionObserver loading toggleFaqDefined event timers now requests frames
       observed console alerts scrolls uncaught];
  repeat first [ rewrite set_cells_listeners | rewrite set_cells_twice
               | rewrite set_listeners_twice ].

(** X21: [initEventListeners] registers, in this order, the throttled
    scroll listener, the toggle's click listener, the document's click
    listener, a smooth-scroll listener on every link whose [href] starts
    with [#], a closing listener on every link of the mobile menu, the
    throttled resize listener and the keydown listener.  The two throttled
    listeners get flags of their own, so the one never holds the other
    back.  Without the menu toggle the function throws when only the scroll
    listener is registered. *)
Theorem navigation_listeners_in_order (w : World) :
  (∀ mt, menuToggle (globals w) = Some mt →
     initEventListeners w
     = (inr tt,
        set_listeners
          (listeners w
           ++ navigationListeners (length (cells w)) mt
                (querySelectorAll (dom w) [Sel [STag "a"; SAttrPrefix "href" "#"]])
                (mobileMenuLinks (globals w)))
          (set_cells (cells w ++ [false; false]) w)))
  ∧ (menuToggle (globals w) = None →
     initEventListeners w
     = (inl (TypeError "menuToggle"),
        set_listeners
          (listeners w ++ [mkListener Window "scroll"
                             (CbThrottled (length (cells w)) 100 CbScrollChrome)])
          (set_cells (cells w ++ [false]) w))).
Proof.
  split.
  - intros mt Hmt.
    unfold initEventListeners, throttle, global, queryAll. repeat run_step.
    rewrite Hmt. unfold deref. repeat run_step.
    unfold navigationListeners.
    cbn [set_listeners set_cells dom listeners cells globals scrollY innerWidth
         intersectionObserver loading toggleFaqDefined event timers now requests frames
         observed console alerts scrolls uncaught].
    rewrite length_app. cbn [length]. rewrite Nat.add_1_r.
    f_equal. f_equal; [| by rewrite <- app_assoc].
    by rewrite <- !app_assoc.
  - intros Hmt.
    unfold initEventListeners, throttle, global, queryAll. repeat run_step.
    by rewrite Hmt.
Qed.

Lemma navigation_listeners_in_order_witness :
  ∃ w', initEventListeners (set_globals (globals loaded) (served Sample.page false true 1200 0))
        = (inr tt, w')
        ∧ cells w' = [false; false].
Proof.
  eexists. split.
  - apply (proj1 (navigation_listeners_in_order
                    (set_globals (globals loaded) (served Sample.page false true 1200 0))) 5).
    by vm_compute.
  - reflexivity.
Defined.

